(** * AdvancedAPIClient: retry, rate limiting and batch processing

    A shallow embedding of [src/advance-api-client/advanced-api-client.js].

    - JavaScript values that the client inspects (thrown reasons, option
      bags, results) are the inductive [JsValue]; objects used as string
      keyed bags are [gmap string _].
    - [this] is the record [Client]; its only mutable field is
      [lastRequestTime].
    - Asynchronous methods are run to completion in a state and exception
      monad [M] over a [World] that holds [this], the clock, the trace of
      observable effects and the counters of the environment oracles.
      Suspension points that matter for interleavings ([enforceRateLimit])
      are also given segment by segment.
    - Recursion that JavaScript bounds only dynamically takes a [fuel]
      argument; [None] means that the fuel ran out.

    The module [DataFormatter] embeds [formatPhoneUK] and [extractEmail] of
    [src/unnamed/part_000]; a string is the list of its UTF-16 code units
    and the regular expression is run as a backtracking matcher. *)

From Stdlib Require Import ZArith QArith Qround Qpower Qfield Lqa Lia Sorted.
From stdpp Require Import base option list gmap strings pretty.

Open Scope Z_scope.

(** ** JavaScript values *)

(** An [Error] object: [name], [message] and the ad hoc [status] property
    that [request] attaches to HTTP failures (line 89). [None] is a missing
    ([undefined]) status. *)
Record Error := {
  name : string;
  message : string;
  status : option Z
}.

Inductive JsValue :=
| JUndefined
| JNull
| JBool (b : bool)
| JNum (n : Q)
| JStr (s : string)
| JObject (fields : gmap string string)
| JErr (e : Error)
| JSignal.

(** [new Error(msg)] *)
Definition new_Error (msg : string) : Error :=
  {| name := "Error"; message := msg; status := None |}.

(** The [TypeError] raised by a property read on [null] or [undefined]. *)
Definition TypeError (prop : string) : JsValue :=
  JErr {| name := "TypeError";
          message := "Cannot read properties of undefined (reading '" +:+ prop +:+ "')";
          status := None |}.

(** ToBoolean, as used by [if (error)] and [!this.rateLimit]. *)
Definition truthy (v : JsValue) : bool :=
  match v with
  | JUndefined | JNull => false
  | JBool b => b
  | JNum n => negb (Qeq_bool n 0)
  | JStr s => negb (String.eqb s "")
  | JObject _ | JErr _ | JSignal => true
  end.

(** Outcome of evaluating an expression or awaiting a promise. *)
Inductive Completion (A : Type) :=
| Normal (a : A)
| Throw (reason : JsValue).
Arguments Normal {A} a.
Arguments Throw {A} reason.

(** [error.message] and [error.name] on a caught value: reading a
    property of [null] or [undefined] raises; an [Error] has both; a bag
    has the field or it has not; a primitive and a signal have neither. *)
Definition get_message (v : JsValue) : Completion (option string) :=
  match v with
  | JErr e => Normal (Some (message e))
  | JObject fields => Normal (fields !! "message")
  | JUndefined | JNull => Throw (TypeError "message")
  | JBool _ | JNum _ | JStr _ | JSignal => Normal None
  end.

Definition get_name (v : JsValue) : Completion (option string) :=
  match v with
  | JErr e => Normal (Some (name e))
  | JObject fields => Normal (fields !! "name")
  | JUndefined | JNull => Throw (TypeError "name")
  | JBool _ | JNum _ | JStr _ | JSignal => Normal None
  end.

(** Template-literal rendering of a possibly missing string. *)
Definition render (s : option string) : string :=
  match s with Some s => s | None => "undefined" end.

(** [status >= 400 && status < 500] for the status of an [Error], a
    number or [undefined]; a comparison with [undefined] is false. *)
Definition is_client_error (st : option Z) : bool :=
  match st with
  | Some s => (400 <=? s) && (s <? 500)
  | None => false
  end.

(** [error.status >= 400 && error.status < 500] (line 46) on a caught
    value.  Reading the property of [null] or [undefined] raises.  The
    field of a bag is a string, which each comparison first converts to a
    number: [to_number s] is that number, [None] when it is [NaN] or
    infinite, and then the conjunction is false.  A missing field and the
    property of a primitive or of a signal read [undefined], which compares
    false. *)
Definition status_is_4xx (to_number : string -> option Q) (error : JsValue)
  : Completion bool :=
  match error with
  | JErr e => Normal (is_client_error (status e))
  | JObject fields =>
    Normal (match fields !! "status" with
            | Some s =>
              match to_number s with
              | Some q => Qle_bool 400 q && negb (Qle_bool 500 q)
              | None => false
              end
            | None => false
            end)
  | JUndefined | JNull => Throw (TypeError "status")
  | JBool _ | JNum _ | JStr _ | JSignal => Normal false
  end.

(** ** The client object *)

Record Client := {
  baseURL : string;
  timeout : Z;
  maxRetries : Z;
  retryDelay : Q;
  rateLimit : option Q;
  lastRequestTime : Z;
  defaultHeaders : gmap string string
}.

Definition set_lastRequestTime (t : Z) (c : Client) : Client :=
  {| baseURL := baseURL c; timeout := timeout c; maxRetries := maxRetries c;
     retryDelay := retryDelay c; rateLimit := rateLimit c;
     lastRequestTime := t; defaultHeaders := defaultHeaders c |}.

(** The constructor's [options] argument; [None] is a missing field. *)
Record ClientOptions := {
  opt_baseURL : option string;
  opt_timeout : option Z;
  opt_maxRetries : option Z;
  opt_retryDelay : option Q;
  opt_rateLimit : option Q;
  opt_headers : option (gmap string string)
}.

(** [x || d] on an optional number: [undefined] and [0] give [d]. *)
Definition or_Z (x : option Z) (d : Z) : Z :=
  match x with
  | Some v => if v =? 0 then d else v
  | None => d
  end.

Definition or_Q (x : option Q) (d : Q) : Q :=
  match x with
  | Some v => if Qeq_bool v 0 then d else v
  | None => d
  end.

(** Lines 8-16. *)
Definition constructor (options : ClientOptions) : Client :=
  {| baseURL := default "" (opt_baseURL options);
     timeout := or_Z (opt_timeout options) 30000;
     maxRetries := or_Z (opt_maxRetries options) 3;
     retryDelay := or_Q (opt_retryDelay options) 1000;
     rateLimit := match opt_rateLimit options with
                  | Some r => if Qeq_bool r 0 then None else Some r
                  | None => None
                  end;
     lastRequestTime := 0;
     defaultHeaders := default ∅ (opt_headers options) |}.

(** ** The world the client runs in *)

(** What [fetch] settles with: a response, or a rejection. *)
Record Response := {
  ok : bool;
  resp_status : Z;
  statusText : string;
  json : Completion JsValue       (* what [await response.json()] gives *)
}.

Inductive FetchResult :=
| Resolves (response : Response)
| Rejects (reason : JsValue).

(** The collaborators outside the file, as oracles.
    - [timer t ms]: the clock reading when a [setTimeout(_, ms)] armed at
      clock [t] has fired;
    - [transport k url init]: how long the [k]-th [fetch] call would take and
      what it would settle with if it is not aborted;
    - [JSON_stringify]: [JSON.stringify], on data it turns into a string
      (every value here but [undefined], see [stringify]);
    - [StringToNumber]: the number that a comparison converts a string to,
      [None] when that is [NaN] or infinite. *)
Record Env := {
  timer : Z -> Q -> Z;
  transport : nat -> string -> gmap string JsValue -> Z * FetchResult;
  JSON_stringify : JsValue -> string;
  StringToNumber : string -> option Q
}.

(** Observable effects, oldest first in a trace. *)
Inductive Event :=
| EvInvoke (k : nat)                              (* a scripted operation is called *)
| EvSleep (ms : Q)                                (* this.sleep(ms) *)
| EvConsoleLog (attempt : Z) (delay : Q)          (* line 51 *)
| EvEnforceRateLimit                              (* enforceRateLimit() is entered *)
| EvFetch (url : string) (init : gmap string JsValue).   (* fetch(url, init) *)

Record World := {
  this : Client;
  clock : Z;                  (* Date.now() *)
  events : list Event;
  calls : nat;                (* scripted operations invoked so far *)
  fetches : nat;              (* fetch calls issued so far *)
  env : Env
}.

Definition set_this (c : Client) (w : World) : World :=
  {| this := c; clock := clock w; events := events w; calls := calls w;
     fetches := fetches w; env := env w |}.

Definition set_clock (t : Z) (w : World) : World :=
  {| this := this w; clock := t; events := events w; calls := calls w;
     fetches := fetches w; env := env w |}.

Definition record_event (e : Event) (w : World) : World :=
  {| this := this w; clock := clock w; events := events w ++ [e]; calls := calls w;
     fetches := fetches w; env := env w |}.

Definition count_call (w : World) : World :=
  {| this := this w; clock := clock w; events := events w; calls := S (calls w);
     fetches := fetches w; env := env w |}.

Definition count_fetch (w : World) : World :=
  {| this := this w; clock := clock w; events := events w; calls := calls w;
     fetches := S (fetches w); env := env w |}.

(** ** The monad of asynchronous methods run to completion *)

Definition M (A : Type) : Type := World -> option (Completion A * World).

Definition ret {A} (a : A) : M A := fun w => Some (Normal a, w).

Definition throw {A} (reason : JsValue) : M A := fun w => Some (Throw reason, w).

Definition out_of_fuel {A} : M A := fun _ => None.

Definition bind {A B} (m : M A) (k : A -> M B) : M B :=
  fun w =>
    match m w with
    | None => None
    | Some (Throw reason, w') => Some (Throw reason, w')
    | Some (Normal a, w') => k a w'
    end.

(** [try { return await m } catch (error) { handler(error) }] *)
Definition try_catch {A} (m : M A) (handler : JsValue -> M A) : M A :=
  fun w =>
    match m w with
    | None => None
    | Some (Throw reason, w') => handler reason w'
    | Some (Normal a, w') => Some (Normal a, w')
    end.

Definition lift {A} (c : Completion A) : M A := fun w => Some (c, w).

Definition get_this : M Client := fun w => Some (Normal (this w), w).

Definition modify (f : World -> World) : M unit := fun w => Some (Normal tt, f w).

#[global] Instance M_ret : MRet M := @ret.
#[global] Instance M_bind : MBind M := fun A B k m => bind m k.

(** [sleep(ms)] (lines 138-140), awaited: the timer fires and the clock has
    moved to where the environment puts it. *)
Definition sleep (ms : Q) : M unit :=
  fun w =>
    let w1 := record_event (EvSleep ms) w in
    Some (Normal tt, set_clock (timer (env w1) (clock w1) ms) w1).

Definition console_log (attempt : Z) (delay : Q) : M unit :=
  modify (record_event (EvConsoleLog attempt delay)).

(** A caller's operation, scripted by the outcome of each of its calls. *)
Definition invoke (op : nat -> Completion JsValue) : M JsValue :=
  fun w => Some (op (calls w), count_call (record_event (EvInvoke (calls w)) w)).

(** ** Exponential backoff retry logic (lines 37-56) *)

(** The test of line 46, with the engine's conversion of strings. *)
Definition status_test (error : JsValue) : M bool :=
  fun w => lift (status_is_4xx (StringToNumber (env w)) error) w.

Fixpoint retryWithBackoff (fuel : nat) (fn : M JsValue) (attempt : Z) : M JsValue :=
  match fuel with
  | O => out_of_fuel
  | S fuel' =>
    try_catch fn (fun error =>
      this ← get_this;
      if maxRetries this <=? attempt then
        msg ← lift (get_message error);
        throw (JErr (new_Error ("Failed after " +:+ pretty (maxRetries this)
                                 +:+ " attempts: " +:+ render msg)))
      else
        client_error ← status_test error;
        if (client_error : bool) then throw error
        else
          let delay := (retryDelay this * 2 ^ (attempt - 1))%Q in
          console_log attempt delay;;
          sleep delay;;
          retryWithBackoff fuel' fn (attempt + 1))
  end.

(** Fuel that suffices when [this.maxRetries] stays put. *)
Definition retry_fuel (c : Client) (attempt : Z) : nat :=
  S (Z.to_nat (maxRetries c - attempt)).

(** ** Rate limiting (lines 21-32) *)

Definition Qltb (x y : Q) : bool := negb (Qle_bool y x).

(** How a stretch of [enforceRateLimit] that runs without yielding ends:
    the call has returned, or it is suspended on [await this.sleep(ms)]. *)
Inductive Segment :=
| Completed
| Suspended (ms : Q).

(** From the call to the first suspension or to the end, with [now] what
    [Date.now()] reads during that stretch. *)
Definition enforceRateLimit_enter (now : Z) (this : Client) : Client * Segment :=
  match rateLimit this with
  | None => (this, Completed)
  | Some r =>
    if Qeq_bool r 0 then (this, Completed)
    else
      let minInterval := (1000 / r)%Q in
      let timeSinceLastRequest := now - lastRequestTime this in
      if Qltb (inject_Z timeSinceLastRequest) minInterval
      then (this, Suspended (minInterval - inject_Z timeSinceLastRequest))
      else (set_lastRequestTime now this, Completed)
  end.

(** From the wake-up after the sleep to the end (line 31). *)
Definition enforceRateLimit_resume (now : Z) (this : Client) : Client :=
  set_lastRequestTime now this.

(** The call awaited with nothing else running in between. *)
Definition enforceRateLimit : M unit :=
  fun w =>
    let w0 := record_event EvEnforceRateLimit w in
    match enforceRateLimit_enter (clock w0) (this w0) with
    | (c, Completed) => Some (Normal tt, set_this c w0)
    | (c, Suspended ms) =>
      (sleep ms;;
       modify (fun w' => set_this (enforceRateLimit_resume (clock w') (this w')) w'))
        (set_this c w0)
    end.

(** ** The request method (lines 61-103) *)

(** [...v] inside an object literal of headers: a bag contributes its
    entries, [undefined] and [null] contribute nothing. Other values only
    ever reach the merged bag when [options] has a [headers] key, and then
    the bag is overwritten (see [request_config]). *)
Definition spread (v : option JsValue) : gmap string string :=
  match v with
  | Some (JObject fields) => fields
  | _ => ∅
  end.

(** Lines 65-73. In an object literal a later key wins; [∪] on maps keeps
    the left operand's entry. *)
Definition request_config (this : Client) (options : gmap string JsValue)
  : gmap string JsValue :=
  options ∪
  <["headers" := JObject (spread (options !! "headers") ∪ defaultHeaders this
                          ∪ {["Content-Type" := "application/json"]})]>
  {["timeout" := JNum (inject_Z (timeout this))]}.

Definition AbortError : JsValue :=
  JErr {| name := "AbortError"; message := "This operation was aborted"; status := None |}.

(** [await fetch(url, init)] with the abort timer of line 77 armed: the
    call is cancelled when the timer fires before the transport settles. *)
Definition fetch (url : string) (init : gmap string JsValue) : M Response :=
  fun w =>
    let '(latency, outcome) := transport (env w) (fetches w) url init in
    let abort_at := timer (env w) (clock w) (inject_Z (timeout (this w))) in
    let settle_at := clock w + latency in
    let w1 := count_fetch (record_event (EvFetch url init) w) in
    if abort_at <? settle_at then Some (Throw AbortError, set_clock abort_at w1)
    else
      match outcome with
      | Resolves response => Some (Normal response, set_clock settle_at w1)
      | Rejects reason => Some (Throw reason, set_clock settle_at w1)
      end.

(** Lines 95-101. *)
Definition catch_block (error : JsValue) : M JsValue :=
  n ← lift (get_name error);
  if decide (n = Some "AbortError") then
    this ← get_this;
    throw (JErr (new_Error ("Request timeout after " +:+ pretty (timeout this) +:+ "ms")))
  else throw error.

(** The closure handed to [retryWithBackoff] (lines 75-102). *)
Definition attempt_once (url : string) (config : gmap string JsValue) : M JsValue :=
  try_catch
    (response ← fetch url (<["signal" := JSignal]> config);
     if negb (ok response) then
       throw (JErr {| name := "Error";
                      message := "HTTP " +:+ pretty (resp_status response) +:+ ": "
                                 +:+ statusText response;
                      status := Some (resp_status response) |})
     else lift (json response))
    catch_block.

Definition request (fuel : nat) (endpoint : string) (options : option (gmap string JsValue))
  : M JsValue :=
  let options := default ∅ options in
  enforceRateLimit;;
  this ← get_this;
  let url := baseURL this +:+ endpoint in
  let config := request_config this options in
  retryWithBackoff fuel (attempt_once url config) 1.

(** ** Convenience methods (lines 143-165) *)

(** A parameter declared [headers = {}]: the default applies when the
    argument is missing or [undefined]. *)
Definition headers_param (headers : option JsValue) : JsValue :=
  match headers with
  | None | Some JUndefined => JObject ∅
  | Some v => v
  end.

(** [JSON.stringify(data)]: [undefined] for [undefined], a string for any
    other value here. *)
Definition stringify (e : Env) (data : JsValue) : JsValue :=
  match data with
  | JUndefined => JUndefined
  | _ => JStr (JSON_stringify e data)
  end.

Definition get (fuel : nat) (endpoint : string) (headers : option JsValue) : M JsValue :=
  request fuel endpoint
    (Some (<["headers" := headers_param headers]> {["method" := JStr "GET"]})).

Definition post (fuel : nat) (endpoint : string) (data : JsValue) (headers : option JsValue)
  : M JsValue :=
  fun w =>
    request fuel endpoint
      (Some (<["headers" := headers_param headers]>
             (<["body" := stringify (env w) data]> {["method" := JStr "POST"]}))) w.

Definition put (fuel : nat) (endpoint : string) (data : JsValue) (headers : option JsValue)
  : M JsValue :=
  fun w =>
    request fuel endpoint
      (Some (<["headers" := headers_param headers]>
             (<["body" := stringify (env w) data]> {["method" := JStr "PUT"]}))) w.

Definition delete (fuel : nat) (endpoint : string) (headers : option JsValue) : M JsValue :=
  request fuel endpoint
    (Some (<["headers" := headers_param headers]> {["method" := JStr "DELETE"]})).

(** ** Batch processing with concurrency control (lines 108-136) *)

(** A JavaScript array that may have holes: [None] is a hole. *)
Abbreviation JsArray := (list (option JsValue)).

(** [a[i]]: a hole and an index past the end both read as nothing. *)
Definition array_get (a : JsArray) (i : nat) : option JsValue := mjoin (a !! i).

(** [a[i] = v]: writing past the end grows the array and leaves holes. *)
Definition array_set (a : JsArray) (i : nat) (v : JsValue) : JsArray :=
  if decide (i < length a)%nat then <[i := Some v]> a
  else a ++ replicate (i - length a) None ++ [Some v].

(** What the callback of [batch.map] resolves with (lines 118 and 120). *)
Record ItemRecord := {
  index : nat;
  result : JsValue;
  error : JsValue
}.

(** An element of [errors] (line 128). *)
Record ErrorEntry := {
  err_index : nat;
  err_error : JsValue
}.

(** When an item's operation starts and when its promise settles. *)
Inductive BatchEvent :=
| Launch (i : nat)
| Settle (i : nat).

(** The two arrays the method fills, with the windows it has sliced and the
    timeline of the operations it has started and awaited. *)
Record BatchState := {
  results : JsArray;
  errors : list ErrorEntry;
  batches : list (list JsValue);
  timeline : list BatchEvent
}.

Definition empty_batch : BatchState :=
  {| results := []; errors := []; batches := []; timeline := [] |}.

(** [items.slice(i, j)] for [0 <= i <= j]. *)
Definition slice {A} (items : list A) (i j : nat) : list A :=
  take (j - i) (drop i items).

(** The promise that a call of the async callback returns, still pending:
    the position of the item whose operation the call has started, and what
    the promise settles with once that operation has settled. *)
Record Pending := {
  operation : nat;
  settles_with : Completion ItemRecord
}.

(** The async callback of lines 115-122, called by [batch.map] on the item
    at offset [index] of the window that starts at [i]: the call runs up to
    [await processor(item)], which starts the operation; [processor item]
    is what the promise of [processor(item)] settles with. *)
Definition batch_item (processor : JsValue -> Completion JsValue) (i : nat)
    (index : nat) (item : JsValue) : Pending :=
  {| operation := i + index;
     settles_with :=
       match processor item with
       | Normal result =>
         Normal {| index := i + index; result := result; error := JNull |}
       | Throw error =>
         Normal {| index := i + index; result := JNull; error := error |}
       end |}.

(** [await Promise.all(ps)]: the values in order, or a rejection. *)
Fixpoint Promise_all {A} (ps : list (Completion A)) : Completion (list A) :=
  match ps with
  | [] => Normal []
  | p :: ps' =>
    match p, Promise_all ps' with
    | Throw reason, _ => Throw reason
    | Normal _, Throw reason => Throw reason
    | Normal a, Normal l => Normal (a :: l)
    end
  end.

(** The callback of [batchResults.forEach] (lines 126-132). *)
Definition record_outcome (st : BatchState) (r : ItemRecord) : BatchState :=
  if truthy (error r) then
    {| results := results st;
       errors := errors st ++ [{| err_index := index r; err_error := error r |}];
       batches := batches st; timeline := timeline st |}
  else
    {| results := array_set (results st) (index r) (result r);
       errors := errors st;
       batches := batches st; timeline := timeline st |}.

(** After [batch.map(callback)] (line 115): the window is sliced and every
    call of the callback has started its operation, in the order of the
    calls. *)
Definition launched (batch : list JsValue) (batchPromises : list Pending)
    (st : BatchState) : BatchState :=
  {| results := results st; errors := errors st;
     batches := batches st ++ [batch];
     timeline := timeline st ++ (Launch <$> (operation <$> batchPromises)) |}.

(** After [await Promise.all(batchPromises)] (line 124) has resumed: every
    promise it was given has settled, in the order [settle_order] that the
    environment decides. *)
Definition settled (settle_order : list nat -> list nat) (batchPromises : list Pending)
    (st : BatchState) : BatchState :=
  {| results := results st; errors := errors st;
     batches := batches st;
     timeline := timeline st ++ (Settle <$> settle_order (operation <$> batchPromises)) |}.

(** The [for] loop of lines 112-133, from loop variable [i]. *)
Fixpoint batch_loop (fuel : nat) (settle_order : list nat -> list nat)
    (items : list JsValue) (processor : JsValue -> Completion JsValue)
    (concurrency i : nat) (st : BatchState) : option (Completion BatchState) :=
  match fuel with
  | O => None
  | S fuel' =>
    if decide (i < length items)%nat then
      let batch := slice items i (i + concurrency) in
      let batchPromises := imap (batch_item processor i) batch in
      let st := launched batch batchPromises st in
      match Promise_all (settles_with <$> batchPromises) with
      | Throw reason => Some (Throw reason)
      | Normal batchResults =>
        batch_loop fuel' settle_order items processor concurrency (i + concurrency)
          (foldl record_outcome (settled settle_order batchPromises st) batchResults)
      end
    else Some (Normal st)
  end.

(** [batchProcess(items, processor, concurrency = 5)]; the returned object
    is the [results] and [errors] of the final state. *)
Definition batchProcess (fuel : nat) (settle_order : list nat -> list nat)
    (items : list JsValue) (processor : JsValue -> Completion JsValue)
    (concurrency : option nat) : option (Completion BatchState) :=
  batch_loop fuel settle_order items processor (default 5%nat concurrency) 0 empty_batch.

(** ** Calls of [enforceRateLimit] that overlap

    Between two suspension points a call runs alone; several calls on one
    client interleave segment by segment. A schedule lists the turns the
    event loop takes, each with the clock reading during the turn. *)

Inductive Turn :=
| Enter (id : nat) (now : Z)      (* call [id] starts *)
| Wake (id : nat) (now : Z).      (* the sleep of call [id] is over *)

Record Loop := {
  client : Client;
  sleeping : gmap nat (Z * Q);    (* suspended calls: armed at, for how long *)
  completed : list (nat * Z);     (* calls that returned and when, oldest first *)
  last_turn : Z
}.

(** One turn; [None] when the schedule is impossible: the clock runs
    backwards, the call does not sleep, or its timer fires early. *)
Definition turn (s : Loop) (t : Turn) : option Loop :=
  match t with
  | Enter id now =>
    if last_turn s <=? now then
      match enforceRateLimit_enter now (client s) with
      | (c, Completed) =>
        Some {| client := c; sleeping := sleeping s;
                completed := completed s ++ [(id, now)]; last_turn := now |}
      | (c, Suspended ms) =>
        Some {| client := c; sleeping := <[id := (now, ms)]> (sleeping s);
                completed := completed s; last_turn := now |}
      end
    else None
  | Wake id now =>
    match sleeping s !! id with
    | Some (armed, ms) =>
      if (last_turn s <=? now) && Qle_bool (inject_Z armed + ms) (inject_Z now) then
        Some {| client := enforceRateLimit_resume now (client s);
                sleeping := base.delete id (sleeping s);
                completed := completed s ++ [(id, now)]; last_turn := now |}
      else None
    | None => None
    end
  end.

Fixpoint run_schedule (s : Loop) (ts : list Turn) : option Loop :=
  match ts with
  | [] => Some s
  | t :: ts' =>
    match turn s t with
    | Some s' => run_schedule s' ts'
    | None => None
    end
  end.

Definition start_loop (c : Client) (now : Z) : Loop :=
  {| client := c; sleeping := ∅; completed := []; last_turn := now |}.

(** * Data formatting utilities (DataFormatter) *)

Module DataFormatter.

(** A JavaScript string is a sequence of UTF-16 code units. *)
Abbreviation JsString := (list N).

(** The code units of a literal. *)
Definition units (s : string) : JsString :=
  Ascii.N_of_ascii <$> String.list_ascii_of_string s.

(** [\d] without the [u] flag: the ten ASCII digits. *)
Definition is_digit (c : N) : bool := (48 <=? c)%N && (c <=? 57)%N.

(** [s.startsWith(p)] *)
Definition startsWith (p s : JsString) : bool := bool_decide (take (length p) s = p).

(** [formatPhoneUK(phone)] for a string [phone] (lines 14-28); the empty
    string is the one falsy string. *)
Definition formatPhoneUK (phone : JsString) : JsString :=
  if decide (phone = []) then []
  else
    let cleaned := filter (fun c => is_digit c) phone in
    if startsWith (units "44") cleaned then units "+" ++ cleaned
    else if startsWith (units "0") cleaned then units "+44" ++ drop 1 cleaned
    else units "+44" ++ cleaned.

(** ** The regular expression of [extractEmail] (line 38) *)

Definition is_upper (c : N) : bool := (65 <=? c)%N && (c <=? 90)%N.
Definition is_lower (c : N) : bool := (97 <=? c)%N && (c <=? 122)%N.
Definition is_letter (c : N) : bool := is_upper c || is_lower c.

(** [\w]: [[A-Za-z0-9_]] *)
Definition is_word (c : N) : bool := is_letter c || is_digit c || (c =? 95)%N.

(** [[A-Za-z0-9._%+-]] *)
Definition is_local (c : N) : bool :=
  is_letter c || is_digit c
  || (c =? 46)%N || (c =? 95)%N || (c =? 37)%N || (c =? 43)%N || (c =? 45)%N.

(** [[A-Za-z0-9.-]] *)
Definition is_domain (c : N) : bool :=
  is_letter c || is_digit c || (c =? 46)%N || (c =? 45)%N.

(** [[A-Z|a-z]]: inside a class the bar is a character. *)
Definition is_tld (c : N) : bool := is_letter c || (c =? 124)%N.

(** [\b] at position [k]: exactly one of the characters before and after
    is a word character; there is none outside the string. *)
Definition word_at (text : JsString) (k : nat) : bool :=
  match text !! k with
  | Some c => is_word c
  | None => false
  end.

Definition boundary (text : JsString) (k : nat) : bool :=
  xorb (match k with O => false | S k' => word_at text k' end) (word_at text k).

(** How many characters of the class stand at the head of [s]. *)
Fixpoint run (class : N -> bool) (s : JsString) : nat :=
  match s with
  | c :: s' => if class c then S (run class s') else 0
  | [] => 0
  end.

(** A greedy quantifier: the rest of the expression is tried after [hi]
    repetitions, then after one fewer, down to [lo]. *)
Fixpoint backtrack {A} (rest : nat -> option A) (lo hi : nat) : option A :=
  if (hi <? lo)%nat then None
  else
    match rest hi with
    | Some a => Some a
    | None =>
      match hi with
      | O => None
      | S h => backtrack rest lo h
      end
    end.

(** The expression matched from position [i]; the result is where the
    match ends. *)
Definition match_at (text : JsString) (i : nat) : option nat :=
  if boundary text i then
    backtrack (fun k =>
      if decide (text !! (i + k)%nat = Some 64%N) then
        let j := (i + k + 1)%nat in
        backtrack (fun d =>
          if decide (text !! (j + d)%nat = Some 46%N) then
            let t := (j + d + 1)%nat in
            backtrack (fun e => if boundary text (t + e) then Some (t + e)%nat else None)
              2 (run is_tld (drop t text))
          else None)
          1 (run is_domain (drop j text))
      else None)
      1 (run is_local (drop i text))
  else None.

(** [text.match(emailRegex)]: the match at the leftmost position that has
    one, as the pair of its start and its end. *)
Fixpoint search (text : JsString) (i count : nat) : option (nat * nat) :=
  match count with
  | O => None
  | S count' =>
    match match_at text i with
    | Some e => Some (i, e)
    | None => search text (S i) count'
    end
  end.

Definition regex_match (text : JsString) : option JsString :=
  '(i, e) ← search text 0 (S (length text));
  Some (take (e - i) (drop i text)).

(** [toLowerCase] on the ASCII characters that the expression can match. *)
Definition lower (c : N) : N := if is_upper c then (c + 32)%N else c.

Definition toLowerCase (s : JsString) : JsString := lower <$> s.

(** White space and line terminators, which [trim] removes at both ends. *)
Definition is_space (c : N) : bool :=
  bool_decide (c ∈ [9; 10; 11; 12; 13; 32; 160; 5760; 8232; 8233; 8239; 8287; 12288; 65279]%N)
  || ((8192 <=? c)%N && (c <=? 8202)%N).

Fixpoint trimStart (s : JsString) : JsString :=
  match s with
  | c :: s' => if is_space c then trimStart s' else s
  | [] => []
  end.

Definition trim (s : JsString) : JsString := reverse (trimStart (reverse (trimStart s))).

(** [extractEmail(text)] for a string [text] (lines 35-42); [None] is
    [null]. *)
Definition extractEmail (text : JsString) : option JsString :=
  if decide (text = []) then None
  else
    match regex_match text with
    | Some m => Some (trim (toLowerCase m))
    | None => None
    end.

End DataFormatter.

(** * Vocabulary of the properties *)

(** [error.status] where it is a number, [None] where it is missing or
    anything else: the status of an [Error], if it has one; reading the
    property of [null] or [undefined] raises.  The [status] field of a bag
    is a string, so it is not given here; the test of line 46, which
    converts it, is [status_is_4xx]. *)
Definition get_status (v : JsValue) : Completion (option Z) :=
  match v with
  | JErr e => Normal (status e)
  | JUndefined | JNull => Throw (TypeError "status")
  | _ => Normal None
  end.

(** A window as the specification words it, from position [i] and of [len]
    items: all its operations are launched, then all settle, in an order
    [settle_order] of the positions. *)
Definition window_events (settle_order : list nat -> list nat) (i len : nat)
  : list BatchEvent :=
  (Launch <$> seq i len) ++ (Settle <$> settle_order (seq i len)).

(** ** Reading traces *)

Fixpoint invocations (tr : list Event) : nat :=
  match tr with
  | [] => 0
  | EvInvoke _ :: tr' => S (invocations tr')
  | _ :: tr' => invocations tr'
  end.

Fixpoint sleeps (tr : list Event) : list Q :=
  match tr with
  | [] => []
  | EvSleep ms :: tr' => ms :: sleeps tr'
  | _ :: tr' => sleeps tr'
  end.

Fixpoint gate_entries (tr : list Event) : nat :=
  match tr with
  | [] => 0
  | EvEnforceRateLimit :: tr' => S (gate_entries tr')
  | _ :: tr' => gate_entries tr'
  end.

Fixpoint fetched (tr : list Event) : list (string * gmap string JsValue) :=
  match tr with
  | [] => []
  | EvFetch url init :: tr' => (url, init) :: fetched tr'
  | _ :: tr' => fetched tr'
  end.

(** ** Shapes of runs *)

(** [retryDelay * 2^(attempt-1)] *)
Definition backoff_delay (b : Q) (attempt : Z) : Q := (b * 2 ^ (attempt - 1))%Q.

(** The trace of a run that is exhausted after [S n] failed attempts, the
    first of them numbered [a] and calling the operation for the [k]-th
    time: every attempt but the last is followed by its log line and its
    sleep. *)
Fixpoint exhausted_trace (b : Q) (k : nat) (a : Z) (n : nat) : list Event :=
  match n with
  | O => [EvInvoke k]
  | S n' =>
    EvInvoke k :: EvConsoleLog a (backoff_delay b a) :: EvSleep (backoff_delay b a)
    :: exhausted_trace b (S k) (a + 1) n'
  end.

(** ** Environments and worlds to run the definitions on *)

(** The number spelled by a string of decimal digits, most significant
    digit first, after the digits [acc]. *)
Fixpoint digits_value (s : string) (acc : Z) : option Z :=
  match s with
  | EmptyString => Some acc
  | String c s' =>
    let d := Z.of_N (Ascii.N_of_ascii c) - 48 in
    if (0 <=? d) && (d <=? 9) then digits_value s' (10 * acc + d) else None
  end.

(** A sample conversion of strings to numbers: a string of one to fifteen
    decimal digits converts to the integer it spells, as in every engine
    and without rounding; this sample answers [None] on every other
    string. *)
Definition short_decimal (s : string) : option Q :=
  if ((0 <? String.length s) && (String.length s <=? 15))%nat
  then inject_Z <$> digits_value s 0
  else None.

(** Timers that fire on time, a transport that answers 200 at once. *)
Definition punctual_env : Env :=
  {| timer := fun t ms => t + Qceiling ms;
     transport := fun _ _ _ =>
       (0, Resolves {| ok := true; resp_status := 200; statusText := "OK";
                       json := Normal (JStr "body") |});
     JSON_stringify := fun _ => "{}";
     StringToNumber := short_decimal |}.

(** The same with a transport that needs a minute for every call. *)
Definition slow_env : Env :=
  {| timer := timer punctual_env;
     transport := fun _ _ _ =>
       (60000, Resolves {| ok := true; resp_status := 200; statusText := "OK";
                            json := Normal (JStr "body") |});
     JSON_stringify := JSON_stringify punctual_env;
     StringToNumber := StringToNumber punctual_env |}.

Definition sample_options (rate : option Q) : ClientOptions :=
  {| opt_baseURL := Some "https://api.example.com"; opt_timeout := None;
     opt_maxRetries := Some 3; opt_retryDelay := Some (100 # 1);
     opt_rateLimit := rate;
     opt_headers := Some {["Authorization" := "Bearer token"]} |}.

Definition sample_world (e : Env) (rate : option Q) : World :=
  {| this := constructor (sample_options rate); clock := 5000; events := [];
     calls := 0; fetches := 0; env := e |}.

Definition always_boom (k : nat) : Completion JsValue := Throw (JErr (new_Error "boom")).

Definition always_404 (k : nat) : Completion JsValue :=
  Throw (JErr {| name := "Error"; message := "HTTP 404: Not Found"; status := Some 404 |}).

(** The world a computation leaves behind. *)
Definition world_after {A} (m : M A) (w : World) : World :=
  match m w with
  | Some (_, w') => w'
  | None => w
  end.

(** The schedule of three calls on one client limited to one request per
    second: call 0 returns at once at 5000; calls 1 and 2 start while
    nothing has moved [lastRequestTime] past 5000, both sleep 1000 ms and
    both return at 6000. *)
Definition overlapping_calls : list Turn :=
  [Enter 0 5000; Enter 1 5000; Enter 2 5000; Wake 1 6000; Wake 2 6000].

(** The trace of the attempts of one [request], the first numbered [a]:
    a [fetch], and before every further [fetch] the log line and the
    backoff sleep of the attempt that failed. *)
Inductive attempts_from (url : string) (init : gmap string JsValue) (b : Q)
  : Z -> list Event -> Prop :=
| attempts_last a : attempts_from url init b a [EvFetch url init]
| attempts_retry a tr :
    attempts_from url init b (a + 1) tr ->
    attempts_from url init b a
      (EvFetch url init :: EvConsoleLog a (backoff_delay b a)
       :: EvSleep (backoff_delay b a) :: tr).

(** The computation [m], run in [w], ends, calls [fetch] at least once, and
    every [fetch] it makes carries [h] as its [headers]. *)
Definition sends_headers (m : M JsValue) (w : World) (h : JsValue) : Prop :=
  exists r w' tr,
    m w = Some (r, w')
    /\ events w' = events w ++ tr
    /\ fetched tr <> []
    /\ Forall (fun x => x.2 !! "headers" = Some h) (fetched tr).

(** ** What a batch records *)

(** What the window's callback resolves with for the item at position [k]
    of the input. *)
Definition item_record (processor : JsValue -> Completion JsValue) (k : nat)
    (item : JsValue) : ItemRecord :=
  match processor item with
  | Normal r => {| index := k; result := r; error := JNull |}
  | Throw e => {| index := k; result := JNull; error := e |}
  end.

Fixpoint records_from (processor : JsValue -> Completion JsValue) (k : nat)
    (l : list JsValue) : list ItemRecord :=
  match l with
  | [] => []
  | item :: l' => item_record processor k item :: records_from processor (S k) l'
  end.

(** The entry of [errors] that the item at position [k] leaves, if any. *)
Definition item_error (processor : JsValue -> Completion JsValue) (k : nat)
    (item : JsValue) : list ErrorEntry :=
  match processor item with
  | Normal _ => []
  | Throw e => if truthy e then [{| err_index := k; err_error := e |}] else []
  end.

Fixpoint item_errors (processor : JsValue -> Completion JsValue) (k : nat)
    (l : list JsValue) : list ErrorEntry :=
  match l with
  | [] => []
  | item :: l' => item_error processor k item ++ item_errors processor (S k) l'
  end.

(** What [results[k]] reads after the item at position [k] is recorded,
    when it read [before] until then. *)
Definition item_result (processor : JsValue -> Completion JsValue) (item : JsValue)
    (before : option JsValue) : option JsValue :=
  match processor item with
  | Normal r => Some r
  | Throw e => if truthy e then before else Some JNull
  end.

(** [ceil(n / c)] on natural numbers. *)
Definition ceil_div (n c : nat) : nat := ((n + (c - 1)) / c)%nat.

(** Windows still to open when the loop variable is [i]. *)
Definition windows_left (n c i : nat) : nat := ceil_div (n - i) c.

(** Where the first [k] windows from [i] start: [i], [i + c], ... *)
Definition window_starts (c i k : nat) : list nat :=
  (fun q => i + q * c)%nat <$> seq 0 k.

(** The windows as the specification words them: consecutive slices of
    [c] items, and for each its launches followed by its settlements. *)
Definition expected_batches (items : list JsValue) (c i k : nat) : list (list JsValue) :=
  (fun s => slice items s (s + c)) <$> window_starts c i k.

Definition expected_timeline (settle_order : list nat -> list nat)
    (items : list JsValue) (c i k : nat) : list BatchEvent :=
  concat ((fun s => window_events settle_order s (length (slice items s (s + c))))
            <$> window_starts c i k).

(** What [results[j]] reads after the loop has run from [i], when it read
    [before] at that point. *)
Definition result_from (items : list JsValue) (processor : JsValue -> Completion JsValue)
    (i j : nat) (before : option JsValue) : option JsValue :=
  match (if decide (i <= j)%nat then items !! j else None) with
  | Some item => item_result processor item before
  | None => before
  end.

(** Operations started and not yet settled once the events of [tl] have
    happened. *)
Fixpoint in_flight (tl : list BatchEvent) : Z :=
  match tl with
  | [] => 0
  | Launch _ :: tl' => in_flight tl' + 1
  | Settle _ :: tl' => in_flight tl' - 1
  end.

(** At every instant of [tl] at most [c] operations are in flight. *)
Definition at_most_in_flight (c : nat) (tl : list BatchEvent) : Prop :=
  forall m, 0 <= in_flight (take m tl) <= Z.of_nat c.

Definition letters : list JsValue := [JStr "A"; JStr "B"; JStr "C"].

(** Succeeds on every item but ["B"], where it rejects with [reason]. *)
Definition fails_on_B (reason : JsValue) (item : JsValue) : Completion JsValue :=
  match item with
  | JStr "B" => Throw reason
  | v => Normal v
  end.

(** The object [{ results, errors }] that a run returns. *)
Definition returned (run : option (Completion BatchState))
  : option (Completion (JsArray * list ErrorEntry)) :=
  match run with
  | Some (Normal st) => Some (Normal (results st, errors st))
  | Some (Throw reason) => Some (Throw reason)
  | None => None
  end.

Definition four_letters : list JsValue := [JStr "A"; JStr "B"; JStr "C"; JStr "D"].

(** Rejects with [null] on ["B"] and with an [Error] on ["D"]. *)
Definition fails_on_B_and_D (item : JsValue) : Completion JsValue :=
  match item with
  | JStr "B" => Throw JNull
  | JStr "D" => Throw (JErr (new_Error "bad"))
  | v => Normal v
  end.

(** ** Outcomes, pacing and closed forms *)

(** What the attempt numbered [a] makes of the outcome [o] of the
    operation when [this.maxRetries = m]: how the whole call completes, or
    [None] when the method sleeps and calls the operation again. *)
Definition settle (to_number : string -> option Q) (m a : Z) (o : Completion JsValue)
  : option (Completion JsValue) :=
  match o with
  | Normal v => Some (Normal v)
  | Throw error =>
    if m <=? a then
      match get_message error with
      | Normal msg =>
        Some (Throw (JErr (new_Error ("Failed after " +:+ pretty m +:+ " attempts: "
                                       +:+ render msg))))
      | Throw type_error => Some (Throw type_error)
      end
    else
      match status_is_4xx to_number error with
      | Normal client_error => if client_error then Some (Throw error) else None
      | Throw type_error => Some (Throw type_error)
      end
  end.

(** A thrown value that line 46 takes for a client fault: an [Error] whose
    [status] is a number in [400, 500), or a bag whose [status] field
    converts to such a number. *)
Definition client_fault (to_number : string -> option Q) (v : JsValue) : Prop :=
  (exists e s, v = JErr e /\ status e = Some s /\ 400 <= s < 500)
  \/ (exists fields s q,
        v = JObject fields /\ fields !! "status" = Some s
        /\ to_number s = Some q /\ (400 <= q)%Q /\ (q < 500)%Q).

(** Rejects every time with the plain object [{status: '404'}]. *)
Definition always_bag_404 (k : nat) : Completion JsValue :=
  Throw (JObject {["status" := "404"]}).

(** The clock after the sleeps [l], one after the other, from [t]. *)
Definition clock_after (e : Env) (t : Z) (l : list Q) : Z := foldl (timer e) t l.

(** The sum of the durations [l]. *)
Definition total (l : list Q) : Q := foldr Qplus 0%Q l.

(** Timers never fire early. *)
Definition punctual (e : Env) : Prop :=
  forall t ms, (inject_Z t + ms <= inject_Z (timer e t ms))%Q.

(** Fails with a 503 on its first two calls, then answers. *)
Definition third_time_lucky (k : nat) : Completion JsValue :=
  match k with
  | 0%nat | 1%nat =>
    Throw (JErr {| name := "Error"; message := "HTTP 503: busy"; status := Some 503 |})
  | _ => Normal (JStr "done")
  end.

(** The error that [request] builds from a response that is not ok
    (lines 88-90). *)
Definition http_error (response : Response) : Error :=
  {| name := "Error";
     message := "HTTP " +:+ pretty (resp_status response) +:+ ": " +:+ statusText response;
     status := Some (resp_status response) |}.

(** The error that [request] builds when its timeout fires (line 98). *)
Definition timeout_error (c : Client) : Error :=
  new_Error ("Request timeout after " +:+ pretty (timeout c) +:+ "ms").

(** A server that answers every call at once with the same response. *)
Definition answering_env (response : Response) : Env :=
  {| timer := timer punctual_env;
     transport := fun _ _ _ => (0, Resolves response);
     JSON_stringify := JSON_stringify punctual_env;
     StringToNumber := StringToNumber punctual_env |}.

Definition unavailable : Response :=
  {| ok := false; resp_status := 503; statusText := "Service Unavailable";
     json := Normal JNull |}.

Definition unauthorized : Response :=
  {| ok := false; resp_status := 401; statusText := "Unauthorized";
     json := Normal JNull |}.

Definition created : Response :=
  {| ok := true; resp_status := 201; statusText := "Created";
     json := Normal (JStr "{id: 7}") |}.

(** The [SyntaxError] of [response.json()] on an empty body. *)
Definition empty_body_error : Error :=
  {| name := "SyntaxError"; message := "Unexpected end of JSON input"; status := None |}.

Definition no_content : Response :=
  {| ok := true; resp_status := 204; statusText := "No Content";
     json := Throw (JErr empty_body_error) |}.

(** The computation [m], run in [w], ends, calls [fetch] at least once, and
    every call is [fetch(url, init)] for the given pair. *)
Definition fetches_only (m : M JsValue) (w : World) (call : string * gmap string JsValue)
  : Prop :=
  exists r w' tr,
    m w = Some (r, w')
    /\ events w' = events w ++ tr
    /\ fetched tr <> []
    /\ Forall (fun x => x = call) (fetched tr).

(** The [init] object of a convenience method: its own fields, the
    client's timeout and the abort signal. *)
Definition wire_init (c : Client) (fields : gmap string JsValue) (headers : option JsValue)
  : gmap string JsValue :=
  <["signal" := JSignal]>
    (<["timeout" := JNum (inject_Z (timeout c))]>
       (<["headers" := headers_param headers]> fields)).

(** An array without the holes at its end. *)
Fixpoint trim_holes (a : JsArray) : JsArray :=
  match a with
  | [] => []
  | x :: a' =>
    match trim_holes a', x with
    | [], None => []
    | t, _ => x :: t
    end
  end.

(** What the item leaves at its position of [results]: its value, [null]
    for a failure with a falsy reason, a hole for any other failure. *)
Definition slot (processor : JsValue -> Completion JsValue) (item : JsValue)
  : option JsValue :=
  item_result processor item None.

(** The operation fails on the item with a reason that [if (error)] sees. *)
Definition fails_loudly (processor : JsValue -> Completion JsValue) (item : JsValue)
  : Prop :=
  exists e, processor item = Throw e /\ truthy e = true.

(** After a call of [enforceRateLimit] has returned in [w0], [n] more calls
    are made on the same client, each one awaited and each one made when
    the one before has returned, or later; the last returns in the final
    world. *)
Inductive sequential_calls (w0 : World) : nat -> World -> Prop :=
| calls_first : sequential_calls w0 0 w0
| calls_next n w1 w2 w3 :
    sequential_calls w0 n w1 ->
    this w2 = this w1 -> env w2 = env w1 -> clock w1 <= clock w2 ->
    enforceRateLimit w2 = Some (Normal tt, w3) ->
    sequential_calls w0 (S n) w3.

(** An environment in which no answer comes before the question. *)
Definition causal (e : Env) : Prop :=
  forall k url init, 0 <= fst (transport e k url init).

Definition zero_retries : ClientOptions :=
  {| opt_baseURL := None; opt_timeout := None; opt_maxRetries := Some 0;
     opt_retryDelay := None; opt_rateLimit := None; opt_headers := None |}.

(** ** Addresses *)

(** What the expression accepts, and an address in lower case. *)
Definition is_address (email : DataFormatter.JsString) : Prop :=
  exists loc dom tld,
    email = loc ++ 64%N :: dom ++ 46%N :: tld
    /\ loc <> [] /\ Forall (fun c => DataFormatter.is_local c) loc
    /\ dom <> [] /\ Forall (fun c => DataFormatter.is_domain c) dom
    /\ (2 <= length tld)%nat /\ Forall (fun c => DataFormatter.is_tld c) tld.

(** The characters an address is made of. *)
Definition is_address_char (c : N) : bool :=
  DataFormatter.is_local c || DataFormatter.is_domain c || DataFormatter.is_tld c
  || (c =? 64)%N.

(** * Properties *)

(** ** Reading traces *)

Lemma invocations_app tr1 tr2 :
  invocations (tr1 ++ tr2) = (invocations tr1 + invocations tr2)%nat.
Proof. induction tr1 as [|[] tr1 IH]; simpl; auto. Qed.

Lemma sleeps_app tr1 tr2 : sleeps (tr1 ++ tr2) = sleeps tr1 ++ sleeps tr2.
Proof. induction tr1 as [|[] tr1 IH]; simpl; auto; by rewrite IH. Qed.

Lemma gate_entries_app tr1 tr2 :
  gate_entries (tr1 ++ tr2) = (gate_entries tr1 + gate_entries tr2)%nat.
Proof. induction tr1 as [|[] tr1 IH]; simpl; auto. Qed.

Lemma fetched_app tr1 tr2 : fetched (tr1 ++ tr2) = fetched tr1 ++ fetched tr2.
Proof. induction tr1 as [|[] tr1 IH]; simpl; auto; by rewrite IH. Qed.

(** ** Retry with backoff *)

Lemma invocations_exhausted b k a n : invocations (exhausted_trace b k a n) = S n.
Proof. revert k a. induction n as [|n IH]; intros; simpl; [done | by rewrite IH]. Qed.

Lemma sleeps_exhausted b k a n :
  sleeps (exhausted_trace b k a n) = backoff_delay b <$> seqZ a (Z.of_nat n).
Proof.
  revert k a. induction n as [|n IH]; intros k a; [done|].
  rewrite Nat2Z.inj_succ, seqZ_cons by lia. simpl. rewrite IH.
  do 3 f_equal. lia.
Qed.

Lemma last_exhausted b k a n :
  last (exhausted_trace b k a n) = Some (EvInvoke (k + n)).
Proof.
  revert k a. induction n as [|n IH]; intros k a; simpl.
  - by rewrite Nat.add_0_r.
  - rewrite !last_cons, IH. by rewrite Nat.add_succ_r.
Qed.

Section Exhausted.
  Variable op : nat -> Completion JsValue.
  Variable errs : nat -> Error.
  Hypothesis op_fails : forall k, op k = Throw (JErr (errs k)).
  Hypothesis op_transient : forall k, is_client_error (status (errs k)) = false.

Lemma retry_exhaust (n : nat) :
    forall (a : Z) (w : World) (fuel : nat),
      maxRetries (this w) = a + Z.of_nat n ->
      (n < fuel)%nat ->
      exists w',
        retryWithBackoff fuel (invoke op) a w =
          Some (Throw (JErr (new_Error
                  ("Failed after " +:+ pretty (maxRetries (this w)) +:+ " attempts: "
                   +:+ message (errs (calls w + n)%nat)))), w')
        /\ this w' = this w
        /\ calls w' = (calls w + S n)%nat
        /\ events w' =
           events w ++ exhausted_trace (retryDelay (this w)) (calls w) a n.
  Proof.
    induction n as [|n IH]; intros a w fuel Hm Hfuel;
      (destruct fuel as [|fuel]; [lia|]).
    - eexists. simpl. unfold try_catch, invoke. rewrite op_fails.
      unfold mbind, M_bind, bind, get_this. simpl.
      destruct (Z.leb_spec (maxRetries (this w)) a) as [_|]; [|lia].
      simpl. rewrite Nat.add_0_r. repeat split; simpl; auto. lia.
    - destruct (IH (a + 1)
                  (set_clock (timer (env w) (clock w) (backoff_delay (retryDelay (this w)) a))
                     (record_event (EvSleep (backoff_delay (retryDelay (this w)) a))
                        (record_event (EvConsoleLog a (backoff_delay (retryDelay (this w)) a))
                           (count_call (record_event (EvInvoke (calls w)) w)))))
                  fuel) as (w' & Hrun & Hthis & Hcalls & Hev);
        [simpl; lia | lia |].
      exists w'. simpl in Hrun, Hthis, Hcalls, Hev.
      cbn [retryWithBackoff]. unfold try_catch at 1. unfold invoke at 1.
      rewrite op_fails.
      unfold mbind, M_bind, bind, get_this. cbn [this count_call record_event].
      destruct (Z.leb_spec (maxRetries (this w)) a) as [|_]; [lia|].
      unfold status_test. cbn [lift status_is_4xx]. rewrite op_transient.
      unfold console_log, modify, sleep. cbn [env clock record_event count_call].
      unfold backoff_delay in Hrun.
      rewrite Hrun. replace (calls w + S n)%nat with (S (calls w + n)) by lia.
      repeat split; auto.
      + rewrite Hcalls. lia.
      + rewrite Hev. rewrite <- !app_assoc. reflexivity.
  Qed.
End Exhausted.

(** C1: an operation that fails with a non-4xx error on every attempt is
    invoked exactly [maxRetries = m] times; after failed attempt [a], for
    [a = 1 .. m-1], the method sleeps [retryDelay * 2^(a-1)]; nothing follows
    the last failed attempt; the method then fails with the message
    "Failed after <m> attempts: <message of the last cause>". *)
Theorem retryWithBackoff_exhausts
    (op : nat -> Completion JsValue) (errs : nat -> Error) (w : World)
    (m : Z) (b : Q) (fuel : nat) :
  maxRetries (this w) = m -> 1 <= m ->
  retryDelay (this w) = b -> (0 < b)%Q ->
  (forall k, op k = Throw (JErr (errs k)) /\ is_client_error (status (errs k)) = false) ->
  (Z.to_nat m <= fuel)%nat ->
  exists w' tr,
    retryWithBackoff fuel (invoke op) 1 w =
      Some (Throw (JErr (new_Error
              ("Failed after " +:+ pretty m +:+ " attempts: "
               +:+ message (errs (calls w + (Z.to_nat m - 1))%nat)))), w')
    /\ events w' = events w ++ tr
    /\ tr = exhausted_trace b (calls w) 1 (Z.to_nat m - 1)
    /\ invocations tr = Z.to_nat m
    /\ calls w' = (calls w + Z.to_nat m)%nat
    /\ sleeps tr = (fun a => (b * 2 ^ (a - 1))%Q) <$> seqZ 1 (m - 1)
    /\ last tr = Some (EvInvoke (calls w + (Z.to_nat m - 1))).
Proof.
  intros Hm Hm1 Hb _ Hop Hfuel.
  destruct (retry_exhaust op errs (fun k => proj1 (Hop k)) (fun k => proj2 (Hop k))
              (Z.to_nat m - 1) 1 w fuel) as (w' & Hrun & _ & Hcalls & Hev);
    [lia | lia |].
  exists w', (exhausted_trace b (calls w) 1 (Z.to_nat m - 1)).
  rewrite Hm, Hb in *. repeat split; auto.
  - rewrite invocations_exhausted. lia.
  - rewrite Hcalls. lia.
  - rewrite sleeps_exhausted. unfold backoff_delay. do 2 f_equal. lia.
  - apply last_exhausted.
Qed.

Lemma retryWithBackoff_exhausts_witness :
  exists w' tr,
    retryWithBackoff 3 (invoke always_boom) 1 (sample_world punctual_env None) =
      Some (Throw (JErr (new_Error "Failed after 3 attempts: boom")), w')
    /\ events w' = [] ++ tr
    /\ tr = exhausted_trace (100 # 1) 0 1 2
    /\ invocations tr = 3%nat
    /\ calls w' = 3%nat
    /\ sleeps tr = (fun a => ((100 # 1) * 2 ^ (a - 1))%Q) <$> seqZ 1 2
    /\ last tr = Some (EvInvoke 2).
Proof.
  apply (retryWithBackoff_exhausts always_boom (fun _ => new_Error "boom")
           (sample_world punctual_env None) 3 (100 # 1) 3).
  - reflexivity.
  - lia.
  - reflexivity.
  - reflexivity.
  - intros k. split; reflexivity.
  - simpl. lia.
Defined.

(** C2: when the operation fails with an error whose status is in
    [400, 500), the operation is invoked once, no sleep follows, the clock
    does not move and the method fails, whatever [attempt] and
    [maxRetries] are. *)
Theorem retryWithBackoff_client_error_once
    (op : nat -> Completion JsValue) (e : Error) (s : Z) (w : World)
    (fuel : nat) (attempt : Z) :
  op (calls w) = Throw (JErr e) ->
  status e = Some s -> 400 <= s < 500 ->
  exists reason w' tr,
    retryWithBackoff (S fuel) (invoke op) attempt w = Some (Throw reason, w')
    /\ events w' = events w ++ tr
    /\ tr = [EvInvoke (calls w)]
    /\ invocations tr = 1%nat
    /\ sleeps tr = []
    /\ calls w' = S (calls w)
    /\ clock w' = clock w
    /\ reason =
       (if maxRetries (this w) <=? attempt
        then JErr (new_Error ("Failed after " +:+ pretty (maxRetries (this w))
                              +:+ " attempts: " +:+ message e))
        else JErr e).
Proof.
  intros Hop Hst Hs.
  assert (is_client_error (status e) = true) as H4xx.
  { rewrite Hst. simpl. apply andb_true_iff. split; [apply Z.leb_le | apply Z.ltb_lt]; lia. }
  cbn [retryWithBackoff]. unfold try_catch, invoke. rewrite Hop.
  unfold mbind, M_bind, bind, get_this. cbn [this count_call record_event].
  destruct (maxRetries (this w) <=? attempt).
  - simpl. eexists _, _, _. repeat split; reflexivity.
  - unfold status_test. cbn [lift status_is_4xx]. rewrite H4xx. unfold throw.
    eexists _, _, _. repeat split; reflexivity.
Qed.

Lemma retryWithBackoff_client_error_once_witness :
  exists reason w' tr,
    retryWithBackoff 3 (invoke always_404) 1 (sample_world punctual_env None) =
      Some (Throw reason, w')
    /\ events w' = [] ++ tr
    /\ tr = [EvInvoke 0]
    /\ invocations tr = 1%nat
    /\ sleeps tr = []
    /\ calls w' = 1%nat
    /\ clock w' = 5000
    /\ reason = JErr {| name := "Error"; message := "HTTP 404: Not Found";
                        status := Some 404 |}.
Proof.
  apply (retryWithBackoff_client_error_once always_404
           {| name := "Error"; message := "HTTP 404: Not Found"; status := Some 404 |}
           404 (sample_world punctual_env None) 2 1).
  - reflexivity.
  - reflexivity.
  - lia.
Defined.

(** ** Timeouts *)

Lemma fetch_this url init w r w' : fetch url init w = Some (r, w') -> this w' = this w.
Proof.
  unfold fetch. destruct (transport _ _ _ _) as [latency outcome].
  destruct (_ <? _); [|destruct outcome]; intros [= <- <-]; reflexivity.
Qed.

(** The abort timer of line 77 wins the race against a slow transport. *)
Lemma fetch_aborts_on_timeout url init w :
  timer (env w) (clock w) (inject_Z (timeout (this w)))
    < clock w + fst (transport (env w) (fetches w) url init) ->
  fetch url init w =
    Some (Throw AbortError,
          set_clock (timer (env w) (clock w) (inject_Z (timeout (this w))))
            (count_fetch (record_event (EvFetch url init) w))).
Proof.
  intros H. unfold fetch. destruct (transport _ _ _ _) as [latency outcome].
  simpl in H. apply Z.ltb_lt in H. by rewrite H.
Qed.

(** ** Rate limiting *)

Lemma Qltb_lt x y : Qltb x y = true <-> (x < y)%Q.
Proof.
  unfold Qltb. rewrite negb_true_iff, <- not_true_iff_false, Qle_bool_iff.
  split; [apply Qnot_le_lt | apply Qlt_not_le].
Qed.

Lemma Qltb_ge x y : Qltb x y = false <-> (y <= x)%Q.
Proof. unfold Qltb. rewrite negb_false_iff. apply Qle_bool_iff. Qed.

Lemma Qeq_bool_false x y : ~ (x == y)%Q -> Qeq_bool x y = false.
Proof.
  intros H. destruct (Qeq_bool x y) eqn:E; [|done].
  apply Qeq_bool_iff in E. contradiction.
Qed.

(** The segments of one call, for a client whose rate limit is set. *)
Lemma enforceRateLimit_enter_cases (now : Z) (c : Client) (r : Q) :
  rateLimit c = Some r -> ~ (r == 0)%Q ->
  let elapsed := inject_Z (now - lastRequestTime c) in
  ((elapsed < 1000 / r)%Q
   /\ enforceRateLimit_enter now c = (c, Suspended (1000 / r - elapsed)))
  \/ ((1000 / r <= elapsed)%Q
      /\ enforceRateLimit_enter now c = (set_lastRequestTime now c, Completed)).
Proof.
  intros Hr Hr0 elapsed. unfold enforceRateLimit_enter.
  rewrite Hr, (Qeq_bool_false _ _ Hr0). fold elapsed.
  destruct (Qltb elapsed (1000 / r)) eqn:E.
  - left. split; [by apply Qltb_lt | done].
  - right. split; [by apply Qltb_ge | done].
Qed.

(** An awaited call on a rate limited client returns, and when it does
    [lastRequestTime] is what the clock reads. *)
Lemma enforceRateLimit_stamp (w : World) (r : Q) :
  rateLimit (this w) = Some r -> ~ (r == 0)%Q ->
  exists w', enforceRateLimit w = Some (Normal tt, w')
             /\ lastRequestTime (this w') = clock w'.
Proof.
  intros Hr Hr0. unfold enforceRateLimit. cbn [clock this record_event].
  destruct (enforceRateLimit_enter_cases (clock w) (this w) r Hr Hr0) as [[_ ->]|[_ ->]];
    eexists; split; reflexivity.
Qed.

(** C8: once a call of [enforceRateLimit] on a rate limited client has
    returned, [lastRequestTime] is the clock reading at its end, whether or
    not it had to wait; a call that comes more than the minimum interval
    after the last one returns at once and still moves [lastRequestTime] to
    now. *)
Theorem enforceRateLimit_stamps_now (w : World) (r : Q) :
  rateLimit (this w) = Some r -> ~ (r == 0)%Q ->
  (exists w', enforceRateLimit w = Some (Normal tt, w')
              /\ lastRequestTime (this w') = clock w')
  /\ (forall now c, enforceRateLimit_enter now (this w) = (c, Completed) ->
                    lastRequestTime c = now)
  /\ (forall now c, lastRequestTime (enforceRateLimit_resume now c) = now)
  /\ (forall now, (1000 / r <= inject_Z (now - lastRequestTime (this w)))%Q ->
        enforceRateLimit_enter now (this w) = (set_lastRequestTime now (this w), Completed)).
Proof.
  intros Hr Hr0. split; [by apply (enforceRateLimit_stamp w r)|]. repeat split.
  - intros now c.
    destruct (enforceRateLimit_enter_cases now (this w) r Hr Hr0) as [[_ ->]|[_ ->]];
      [discriminate | by intros [= <-]].
  - intros now Hle.
    destruct (enforceRateLimit_enter_cases now (this w) r Hr Hr0) as [[Hlt _]|[_ ->]];
      [|done].
    exfalso. eapply Qlt_not_le; eauto.
Qed.

Lemma enforceRateLimit_stamps_now_witness :
  let w := sample_world punctual_env (Some (2 # 1)) in
  (exists w', enforceRateLimit w = Some (Normal tt, w')
              /\ lastRequestTime (this w') = clock w')
  /\ (forall now c, enforceRateLimit_enter now (this w) = (c, Completed) ->
                    lastRequestTime c = now)
  /\ (forall now c, lastRequestTime (enforceRateLimit_resume now c) = now)
  /\ (forall now, (1000 / (2 # 1) <= inject_Z (now - lastRequestTime (this w)))%Q ->
        enforceRateLimit_enter now (this w) = (set_lastRequestTime now (this w), Completed)).
Proof.
  apply (enforceRateLimit_stamps_now (sample_world punctual_env (Some (2 # 1))) (2 # 1)).
  - reflexivity.
  - discriminate.
Defined.

Lemma inject_Z_minus (a b : Z) : (inject_Z (a - b) == inject_Z a - inject_Z b)%Q.
Proof.
  unfold Z.sub. rewrite inject_Z_plus, inject_Z_opp. reflexivity.
Qed.

(** X3: calls that do not overlap keep their distance: when one call has
    returned in [w1] and the next one is made later on the same client and
    awaited, with timers that never fire early, the second returns at least
    [1000 / rateLimit] after the first. *)
Theorem enforceRateLimit_sequential_spacing (w0 w1 w2 w3 : World) (r : Q) :
  rateLimit (this w0) = Some r -> (0 < r)%Q ->
  (forall t ms, (inject_Z t + ms <= inject_Z (timer (env w2) t ms))%Q) ->
  enforceRateLimit w0 = Some (Normal tt, w1) ->
  this w2 = this w1 -> clock w1 <= clock w2 ->
  enforceRateLimit w2 = Some (Normal tt, w3) ->
  (1000 / r <= inject_Z (clock w3 - clock w1))%Q.
Proof.
  intros Hr Hpos Htimer Hfirst Hthis Hclock Hsecond.
  assert (~ (r == 0)%Q) as Hr0 by (intros E; rewrite E in Hpos; by apply Qlt_irrefl in Hpos).
  destruct (enforceRateLimit_stamp w0 r Hr Hr0) as (w1' & Hrun & Hstamp).
  rewrite Hfirst in Hrun. injection Hrun as <-.
  assert (rateLimit (this w2) = Some r) as Hr2.
  { rewrite Hthis. revert Hfirst. unfold enforceRateLimit. cbn [clock this record_event].
    destruct (enforceRateLimit_enter_cases (clock w0) (this w0) r Hr Hr0) as [[_ ->]|[_ ->]];
      intros [= <-]; exact Hr. }
  revert Hsecond. unfold enforceRateLimit. cbn [clock this record_event].
  destruct (enforceRateLimit_enter_cases (clock w2) (this w2) r Hr2 Hr0)
    as [[Hlt ->]|[Hge ->]]; intros [= <-]; cbn [clock set_clock set_this record_event env].
  - specialize (Htimer (clock w2)
      (1000 / r - inject_Z (clock w2 - lastRequestTime (this w2)))%Q).
    rewrite Hthis, Hstamp in Htimer |- *.
    pose proof (inject_Z_minus (clock w2) (clock w1)) as E1.
    pose proof (inject_Z_minus
      (timer (env w2) (clock w2) (1000 / r - inject_Z (clock w2 - clock w1))%Q)
      (clock w1)) as E2.
    set (minInterval := (1000 / r)%Q) in *.
    rewrite E2. lra.
  - rewrite Hthis, Hstamp in Hge. exact Hge.
Qed.

Lemma enforceRateLimit_sequential_spacing_witness :
  let w0 := sample_world punctual_env (Some (2 # 1)) in
  let w1 := world_after enforceRateLimit w0 in
  let w3 := world_after enforceRateLimit w1 in
  clock w1 = 5000 /\ clock w3 = 5500
  /\ (1000 / (2 # 1) <= inject_Z (clock w3 - clock w1))%Q.
Proof.
  split; [reflexivity|]. split; [reflexivity|].
  apply (enforceRateLimit_sequential_spacing
           (sample_world punctual_env (Some (2 # 1)))
           (world_after enforceRateLimit (sample_world punctual_env (Some (2 # 1))))
           (world_after enforceRateLimit (sample_world punctual_env (Some (2 # 1))))
           (world_after enforceRateLimit
              (world_after enforceRateLimit (sample_world punctual_env (Some (2 # 1)))))
           (2 # 1)).
  - reflexivity.
  - reflexivity.
  - intros t ms. simpl. rewrite inject_Z_plus. apply Qplus_le_r, Qle_ceiling.
  - reflexivity.
  - reflexivity.
  - simpl. lia.
  - reflexivity.
Defined.

(** C5 (the code departs from it): under [overlapping_calls] the second
    and third call of [enforceRateLimit] return at the same clock reading,
    0 ms apart instead of at least 1000 ms. *)
Theorem enforceRateLimit_overlapping_calls_collide :
  completed <$> run_schedule
    (start_loop (constructor (sample_options (Some (1 # 1)))) 5000) overlapping_calls
  = Some [(0%nat, 5000); (1%nat, 6000); (2%nat, 6000)].
Proof. vm_compute. reflexivity. Qed.

(** ** The request method *)

Lemma attempts_from_fetched url init b a tr :
  attempts_from url init b a tr ->
  fetched tr <> [] /\ Forall (fun x => x = (url, init)) (fetched tr).
Proof.
  induction 1 as [a|a tr _ [_ IH]]; simpl; split; try done; by constructor.
Qed.

Lemma attempts_from_gate url init b a tr :
  attempts_from url init b a tr -> gate_entries tr = 0%nat.
Proof. induction 1; simpl; auto. Qed.

Lemma attempts_from_sleeps url init b a tr :
  attempts_from url init b a tr ->
  exists n, sleeps tr = backoff_delay b <$> seqZ a (Z.of_nat n)
            /\ length (fetched tr) = S n.
Proof.
  induction 1 as [a|a tr _ (n & IH1 & IH2)].
  - by exists 0%nat.
  - exists (S n). rewrite Nat2Z.inj_succ, seqZ_cons by lia. simpl.
    rewrite IH1, IH2. split; [|done]. do 3 f_equal. lia.
Qed.

Lemma catch_block_throws error w : exists r, catch_block error w = Some (Throw r, w).
Proof.
  unfold catch_block, mbind, M_bind, bind, lift.
  destruct (get_name error) as [n|r]; [|by eexists].
  destruct (decide (n = Some "AbortError")); by eexists.
Qed.

Lemma fetch_total url init w :
  exists r w', fetch url init w = Some (r, w')
    /\ this w' = this w /\ env w' = env w
    /\ events w' = events w ++ [EvFetch url init].
Proof.
  unfold fetch. destruct (transport _ _ _ _) as [latency outcome].
  destruct (_ <? _); [|destruct outcome]; eexists _, _; repeat split; reflexivity.
Qed.

Lemma attempt_once_total url config w :
  exists r w', attempt_once url config w = Some (r, w')
    /\ this w' = this w /\ env w' = env w
    /\ events w' = events w ++ [EvFetch url (<["signal" := JSignal]> config)].
Proof.
  unfold attempt_once, try_catch, mbind, M_bind, bind.
  destruct (fetch_total url (<["signal" := JSignal]> config) w)
    as ([response|reason] & w' & -> & Hthis & Henv & Hev).
  - destruct (negb (ok response)).
    + unfold throw. destruct (catch_block_throws
        (JErr {| name := "Error";
                 message := "HTTP " +:+ pretty (resp_status response) +:+ ": "
                            +:+ statusText response;
                 status := Some (resp_status response) |}) w') as [r ->].
      by eexists _, _.
    + unfold lift. destruct (json response) as [v|reason].
      * by eexists _, _.
      * destruct (catch_block_throws reason w') as [r ->]. by eexists _, _.
  - destruct (catch_block_throws reason w') as [r ->]. by eexists _, _.
Qed.

(** With fuel for the attempts that remain, the retried closure of
    [request] ends; it leaves [this] alone and its trace is a sequence of
    attempts. *)
Lemma retry_attempts url config (n : nat) :
  forall (a : Z) (w : World) (fuel : nat),
    (Z.to_nat (maxRetries (this w) - a) <= n)%nat -> (n < fuel)%nat ->
    exists r w' tr,
      retryWithBackoff fuel (attempt_once url config) a w = Some (r, w')
      /\ this w' = this w /\ env w' = env w
      /\ events w' = events w ++ tr
      /\ attempts_from url (<["signal" := JSignal]> config) (retryDelay (this w)) a tr.
Proof.
  induction n as [|n IH]; intros a w fuel Hn Hfuel;
    (destruct fuel as [|fuel]; [lia|]);
    cbn [retryWithBackoff]; unfold try_catch at 1;
    destruct (attempt_once_total url config w)
      as ([v|error] & w1 & -> & Hthis & Henv & Hev);
    try (exists (Normal v), w1, [EvFetch url (<["signal" := JSignal]> config)];
         repeat split; auto; constructor);
    unfold mbind at 1, M_bind at 1, bind at 1, get_this at 1; rewrite Hthis.
  - destruct (Z.leb_spec (maxRetries (this w)) a) as [_|]; [|lia].
    unfold mbind, M_bind, bind, lift, throw.
    destruct (get_message error); eexists _, w1, _; repeat split; eauto; constructor.
  - destruct (Z.leb_spec (maxRetries (this w)) a) as [_|Hlt].
    + unfold mbind, M_bind, bind, lift, throw.
      destruct (get_message error); eexists _, w1, _; repeat split; eauto; constructor.
    + unfold mbind at 1, M_bind at 1, bind at 1, status_test at 1, lift at 1.
      destruct (status_is_4xx _ error) as [[|]|te];
        [unfold throw; eexists _, w1, _; repeat split; eauto; constructor|
        |eexists _, w1, _; repeat split; eauto; constructor].
      unfold console_log, modify, sleep, mbind, M_bind, bind.
      cbn [env clock record_event].
      match goal with
      | |- context [retryWithBackoff fuel _ (a + 1) ?w2] =>
        destruct (IH (a + 1) w2 fuel) as (r & w' & tr & Hrun & Hthis' & Henv' & Hev' & Htr);
          [cbn [this set_clock record_event]; rewrite Hthis; lia | lia |]
      end.
      cbn [this env events set_clock record_event] in Hthis', Henv', Hev', Htr.
      exists r, w', (EvFetch url (<["signal" := JSignal]> config)
                  :: EvConsoleLog a (backoff_delay (retryDelay (this w)) a)
                  :: EvSleep (backoff_delay (retryDelay (this w)) a) :: tr).
      unfold backoff_delay in *. rewrite Hrun.
      repeat split; try congruence.
      * rewrite Hev', Hev, <- !app_assoc. reflexivity.
      * constructor. by rewrite Hthis in Htr.
Qed.

Lemma set_lastRequestTime_id c : c = set_lastRequestTime (lastRequestTime c) c.
Proof. by destruct c. Qed.

(** [enforceRateLimit] always returns; it adds its entry and at most one
    sleep to the trace and changes nothing of [this] but [lastRequestTime]. *)
Lemma enforceRateLimit_total w :
  exists w1 gate,
    enforceRateLimit w = Some (Normal tt, w1)
    /\ events w1 = events w ++ EvEnforceRateLimit :: gate
    /\ fetched gate = [] /\ gate_entries gate = 0%nat
    /\ env w1 = env w /\ fetches w1 = fetches w
    /\ this w1 = set_lastRequestTime (lastRequestTime (this w1)) (this w).
Proof.
  unfold enforceRateLimit, enforceRateLimit_enter. cbn [this clock record_event].
  destruct (rateLimit (this w)) as [r|].
  - destruct (Qeq_bool r 0).
    + eexists _, []. repeat split; simpl; auto using set_lastRequestTime_id.
    + destruct (Qltb _ _).
      * eexists _, [EvSleep _]. repeat split; simpl; auto.
        by rewrite <- app_assoc.
      * eexists _, []. repeat split; simpl; auto.
  - eexists _, []. repeat split; simpl; auto using set_lastRequestTime_id.
Qed.

(** What one [request] does: the rate limiter first, then the attempts. *)
Lemma request_trace
    (fuel : nat) (endpoint : string) (options : option (gmap string JsValue))
    (w : World) :
  (retry_fuel (this w) 1 <= fuel)%nat ->
  exists w1 gate r w' tr,
    enforceRateLimit w = Some (Normal tt, w1)
    /\ request fuel endpoint options w = Some (r, w')
    /\ events w1 = events w ++ EvEnforceRateLimit :: gate
    /\ events w' = events w ++ EvEnforceRateLimit :: gate ++ tr
    /\ fetched gate = []
    /\ gate_entries (EvEnforceRateLimit :: gate ++ tr) = 1%nat
    /\ attempts_from (baseURL (this w) +:+ endpoint)
         (<["signal" := JSignal]> (request_config (this w1) (default ∅ options)))
         (retryDelay (this w)) 1 tr
    /\ this w' = this w1
    /\ lastRequestTime (this w') = lastRequestTime (this w1).
Proof.
  intros Hfuel. unfold retry_fuel in Hfuel.
  destruct (enforceRateLimit_total w)
    as (w1 & gate & Hgate & Hev1 & Hfetched & Hentries & Henv & _ & Hthis1).
  assert (maxRetries (this w1) = maxRetries (this w)) as Hmax by (by rewrite Hthis1).
  assert (retryDelay (this w1) = retryDelay (this w)) as Hdelay by (by rewrite Hthis1).
  assert (baseURL (this w1) = baseURL (this w)) as Hbase by (by rewrite Hthis1).
  destruct (retry_attempts (baseURL (this w1) +:+ endpoint)
              (request_config (this w1) (default ∅ options))
              (Z.to_nat (maxRetries (this w1) - 1)) 1 w1 fuel)
    as (r & w' & tr & Hrun & Hthis & _ & Hev & Htr); [lia | rewrite Hmax; lia |].
  exists w1, gate, r, w', tr.
  unfold request, mbind, M_bind, bind. rewrite Hgate. unfold get_this.
  rewrite Hrun, Hev, Hev1, <- app_assoc, <- Hbase, <- Hdelay, Hthis.
  repeat split; auto.
  simpl. rewrite gate_entries_app, Hentries.
  by rewrite (attempts_from_gate _ _ _ _ _ Htr).
Qed.

(** C10: [request] enters [enforceRateLimit] once, before its first
    [fetch]; what follows is the sequence of attempts, separated by the
    backoff sleeps only ([n] sleeps [retryDelay * 2^(a-1)], [a = 1 .. n],
    between [n + 1] fetches), and none of it touches [this], so
    [lastRequestTime] stays what the rate limiter left. *)
Theorem request_passes_rate_limiter_once
    (fuel : nat) (endpoint : string) (options : option (gmap string JsValue))
    (w : World) :
  (retry_fuel (this w) 1 <= fuel)%nat ->
  exists w1 gate r w' tr n,
    enforceRateLimit w = Some (Normal tt, w1)
    /\ request fuel endpoint options w = Some (r, w')
    /\ events w1 = events w ++ EvEnforceRateLimit :: gate
    /\ events w' = events w ++ EvEnforceRateLimit :: gate ++ tr
    /\ fetched gate = []
    /\ gate_entries (EvEnforceRateLimit :: gate ++ tr) = 1%nat
    /\ attempts_from (baseURL (this w) +:+ endpoint)
         (<["signal" := JSignal]> (request_config (this w1) (default ∅ options)))
         (retryDelay (this w)) 1 tr
    /\ length (fetched tr) = S n
    /\ sleeps tr = (fun a => (retryDelay (this w) * 2 ^ (a - 1))%Q) <$> seqZ 1 (Z.of_nat n)
    /\ this w' = this w1
    /\ lastRequestTime (this w') = lastRequestTime (this w1).
Proof.
  intros Hfuel.
  destruct (request_trace fuel endpoint options w Hfuel)
    as (w1 & gate & r & w' & tr & Hgate & Hrun & Hev1 & Hev & Hfetched & Hentries
        & Htr & Hthis & Hlast).
  destruct (attempts_from_sleeps _ _ _ _ _ Htr) as (n & Hsleeps & Hn).
  exists w1, gate, r, w', tr, n. repeat split; auto.
Qed.

Lemma request_passes_rate_limiter_once_witness :
  let w := sample_world slow_env (Some (2 # 1)) in
  exists w1 gate r w' tr n,
    enforceRateLimit w = Some (Normal tt, w1)
    /\ request 3 "/users" None w = Some (r, w')
    /\ events w1 = events w ++ EvEnforceRateLimit :: gate
    /\ events w' = events w ++ EvEnforceRateLimit :: gate ++ tr
    /\ fetched gate = []
    /\ gate_entries (EvEnforceRateLimit :: gate ++ tr) = 1%nat
    /\ attempts_from (baseURL (this w) +:+ "/users")
         (<["signal" := JSignal]> (request_config (this w1) (default ∅ None)))
         (retryDelay (this w)) 1 tr
    /\ length (fetched tr) = S n
    /\ sleeps tr = (fun a => (retryDelay (this w) * 2 ^ (a - 1))%Q) <$> seqZ 1 (Z.of_nat n)
    /\ this w' = this w1
    /\ lastRequestTime (this w') = lastRequestTime (this w1).
Proof.
  apply (request_passes_rate_limiter_once 3 "/users" None
           (sample_world slow_env (Some (2 # 1)))).
  vm_compute. lia.
Defined.

(** ** Headers *)

(** When [options] has a [headers] key, the spread of [options] puts its
    value over the merged bag. *)
Lemma request_config_headers (c : Client) (options : gmap string JsValue) (h : JsValue) :
  options !! "headers" = Some h ->
  request_config c options !! "headers" = Some h.
Proof. intros H. unfold request_config. by apply lookup_union_Some_l. Qed.

(** X5: without a [headers] key in [options] the merged bag stays in the
    configuration: the constructor's default headers over the content type. *)
Theorem request_config_merged (c : Client) (options : gmap string JsValue) :
  options !! "headers" = None ->
  request_config c options !! "headers" =
    Some (JObject (defaultHeaders c ∪ {["Content-Type" := "application/json"]})).
Proof.
  intros H. unfold request_config. rewrite lookup_union_r by done.
  rewrite lookup_insert_eq, H. simpl. by rewrite (left_id_L ∅ (∪)).
Qed.

Lemma request_config_merged_witness :
  request_config (constructor (sample_options None)) {["method" := JStr "GET"]} !! "headers"
  = Some (JObject (defaultHeaders (constructor (sample_options None))
                   ∪ {["Content-Type" := "application/json"]})).
Proof.
  apply (request_config_merged (constructor (sample_options None))
           {["method" := JStr "GET"]}).
  vm_compute. reflexivity.
Defined.

Lemma request_sends_headers fuel endpoint (options : gmap string JsValue) h w :
  options !! "headers" = Some h ->
  (retry_fuel (this w) 1 <= fuel)%nat ->
  sends_headers (request fuel endpoint (Some options)) w h.
Proof.
  intros Hh Hfuel.
  destruct (request_trace fuel endpoint (Some options) w Hfuel)
    as (w1 & gate & r & w' & tr & _ & Hrun & _ & Hev & Hgate & _ & Htr & _).
  exists r, w', (EvEnforceRateLimit :: gate ++ tr). repeat split; auto.
  - simpl. rewrite fetched_app, Hgate. simpl.
    by apply (attempts_from_fetched _ _ _ _ _ Htr).
  - simpl. rewrite fetched_app, Hgate. simpl.
    destruct (attempts_from_fetched _ _ _ _ _ Htr) as [_ Hall].
    eapply Forall_impl; [exact Hall|]. intros [url init] [= -> ->]. simpl.
    rewrite lookup_insert_ne by done. by apply request_config_headers.
Qed.

(** C9: when [options] has a [headers] field, every [fetch] of the request
    carries exactly that field as its headers, and the entry of the
    request's configuration is that field too, not the bag merged from the
    content type and the constructor's default headers; [get], [post],
    [put] and [delete] always pass the field (an empty bag when the
    argument is left out), so their fetches carry the [headers] argument
    and nothing of the defaults. *)
Theorem request_headers_replace_defaults (fuel : nat) (endpoint : string) (w : World) :
  (retry_fuel (this w) 1 <= fuel)%nat ->
  (forall (options : gmap string JsValue) (h : JsValue),
      options !! "headers" = Some h ->
      sends_headers (request fuel endpoint (Some options)) w h
      /\ forall c, request_config c options !! "headers" = Some h)
  /\ (forall headers,
        sends_headers (get fuel endpoint headers) w (headers_param headers))
  /\ (forall data headers,
        sends_headers (post fuel endpoint data headers) w (headers_param headers))
  /\ (forall data headers,
        sends_headers (put fuel endpoint data headers) w (headers_param headers))
  /\ (forall headers,
        sends_headers (delete fuel endpoint headers) w (headers_param headers))
  /\ sends_headers (get fuel endpoint None) w (JObject ∅).
Proof.
  intros Hfuel.
  split; [intros options h Hh; split|split; [|split; [|split; [|split]]]].
  - apply request_sends_headers; assumption.
  - intros c. apply request_config_headers; assumption.
  - intros headers. unfold get.
    apply request_sends_headers; [apply lookup_insert_eq | assumption].
  - intros data headers.
    destruct (request_sends_headers fuel endpoint
                (<["headers" := headers_param headers]>
                 (<["body" := stringify (env w) data]>
                  {["method" := JStr "POST"]}))
                (headers_param headers) w)
      as (r & w' & tr & Hrun & Hrest); [apply lookup_insert_eq | assumption |].
    exists r, w', tr. split; [exact Hrun | exact Hrest].
  - intros data headers.
    destruct (request_sends_headers fuel endpoint
                (<["headers" := headers_param headers]>
                 (<["body" := stringify (env w) data]>
                  {["method" := JStr "PUT"]}))
                (headers_param headers) w)
      as (r & w' & tr & Hrun & Hrest); [apply lookup_insert_eq | assumption |].
    exists r, w', tr. split; [exact Hrun | exact Hrest].
  - intros headers. unfold delete.
    apply request_sends_headers; [apply lookup_insert_eq | assumption].
  - unfold get.
    apply request_sends_headers; [apply lookup_insert_eq | assumption].
Qed.

Lemma request_headers_replace_defaults_witness :
  let w := sample_world punctual_env None in
  defaultHeaders (this w) = {["Authorization" := "Bearer token"]}
  /\ (forall (options : gmap string JsValue) (h : JsValue),
      options !! "headers" = Some h ->
      sends_headers (request 3 "/users" (Some options)) w h
      /\ forall c, request_config c options !! "headers" = Some h)
  /\ (forall headers,
        sends_headers (get 3 "/users" headers) w (headers_param headers))
  /\ (forall data headers,
        sends_headers (post 3 "/users" data headers) w (headers_param headers))
  /\ (forall data headers,
        sends_headers (put 3 "/users" data headers) w (headers_param headers))
  /\ (forall headers,
        sends_headers (delete 3 "/users" headers) w (headers_param headers))
  /\ sends_headers (get 3 "/users" None) w (JObject ∅).
Proof.
  split; [reflexivity|].
  apply (request_headers_replace_defaults 3 "/users" (sample_world punctual_env None)).
  vm_compute. lia.
Defined.

(** ** Batch processing *)

Lemma array_get_set_eq (a : JsArray) (i : nat) (v : JsValue) :
  array_get (array_set a i v) i = Some v.
Proof.
  unfold array_get, array_set. case_decide as Hlt.
  - by rewrite list_lookup_insert_eq.
  - rewrite lookup_app_r by lia. rewrite lookup_app_r; rewrite length_replicate; [|lia].
    by replace (i - length a - (i - length a))%nat with 0%nat by lia.
Qed.

Lemma array_get_set_ne (a : JsArray) (i j : nat) (v : JsValue) :
  i <> j -> array_get (array_set a i v) j = array_get a j.
Proof.
  intros Hne. unfold array_get, array_set. case_decide as Hlt.
  - by rewrite list_lookup_insert_ne.
  - destruct (decide (j < length a)%nat) as [Hj|Hj].
    + by rewrite lookup_app_l.
    + rewrite (lookup_ge_None_2 a j) by lia. rewrite lookup_app_r by lia.
      destruct (decide (j - length a < i - length a)%nat) as [Hin|Hout].
      * rewrite lookup_app_l by (rewrite length_replicate; lia).
        by rewrite lookup_replicate_2.
      * rewrite lookup_app_r; rewrite length_replicate; [|lia].
        rewrite lookup_ge_None_2; [done | simpl; lia].
Qed.

Lemma Promise_all_Normal {A} (l : list A) : Promise_all (Normal <$> l) = Normal l.
Proof. induction l as [|x l IH]; [done|]. rewrite fmap_cons. cbn [Promise_all]. by rewrite IH. Qed.

Lemma imap_batch_item processor (l : list JsValue) :
  forall i, settles_with <$> imap (batch_item processor i) l
            = Normal <$> records_from processor i l.
Proof.
  induction l as [|x l IH]; intros i; [done|].
  cbn [records_from]. rewrite imap_cons, !fmap_cons. f_equal.
  - unfold batch_item, item_record. cbn [settles_with]. rewrite Nat.add_0_r.
    by destruct (processor x).
  - rewrite <- IH. f_equal. apply imap_ext. intros k y _. simpl. unfold batch_item.
    replace (i + S k)%nat with (S i + k)%nat by lia. done.
Qed.

(** The operations that [batch.map] starts are those of the positions of
    the window, in order. *)
Lemma imap_batch_item_operations processor (l : list JsValue) :
  forall i, operation <$> imap (batch_item processor i) l = seq i (length l).
Proof.
  induction l as [|x l IH]; intros i; [done|].
  rewrite imap_cons, fmap_cons. cbn [length seq operation batch_item]. f_equal; [lia|].
  rewrite <- IH. f_equal. apply imap_ext. intros k y _. simpl. unfold batch_item.
  replace (i + S k)%nat with (S i + k)%nat by lia. done.
Qed.

(** The callbacks of a window never reject, so [Promise.all] resolves. *)
Lemma Promise_all_window processor i (batch : list JsValue) :
  Promise_all (settles_with <$> imap (batch_item processor i) batch)
  = Normal (records_from processor i batch).
Proof. by rewrite imap_batch_item, Promise_all_Normal. Qed.

Lemma item_errors_app processor l1 l2 k :
  item_errors processor k (l1 ++ l2)
  = item_errors processor k l1 ++ item_errors processor (k + length l1) l2.
Proof.
  revert k. induction l1 as [|x l1 IH]; intros k; simpl.
  - by rewrite Nat.add_0_r.
  - rewrite IH, <- app_assoc. by replace (S k + length l1)%nat with (k + S (length l1))%nat by lia.
Qed.

Lemma record_outcome_spec processor st k item :
  let st' := record_outcome st (item_record processor k item) in
  errors st' = errors st ++ item_error processor k item
  /\ array_get (results st') k = item_result processor item (array_get (results st) k)
  /\ (forall j, j <> k -> array_get (results st') j = array_get (results st) j)
  /\ batches st' = batches st /\ timeline st' = timeline st.
Proof.
  unfold record_outcome, item_record, item_error, item_result.
  destruct (processor item) as [r|e]; simpl.
  - rewrite app_nil_r. repeat split; auto using array_get_set_eq.
    intros j Hj. by apply array_get_set_ne.
  - destruct (truthy e); simpl.
    + repeat split; auto.
    + rewrite app_nil_r. repeat split; auto using array_get_set_eq.
      intros j Hj. by apply array_get_set_ne.
Qed.

(** The [forEach] over the records of a window. *)
Lemma foldl_record_outcome processor (l : list JsValue) :
  forall k st,
    let st' := foldl record_outcome st (records_from processor k l) in
    errors st' = errors st ++ item_errors processor k l
    /\ (forall j,
          array_get (results st') j =
          match (if decide (k <= j)%nat then l !! (j - k)%nat else None) with
          | Some item => item_result processor item (array_get (results st) j)
          | None => array_get (results st) j
          end)
    /\ batches st' = batches st /\ timeline st' = timeline st.
Proof.
  induction l as [|x l IH]; intros k st; simpl.
  - rewrite app_nil_r. repeat split; auto. intros j. by destruct (decide _).
  - destruct (record_outcome_spec processor st k x) as (He & Hk & Hne & Hb & Ht).
    destruct (IH (S k) (record_outcome st (item_record processor k x)))
      as (He' & Hr' & Hb' & Ht').
    simpl in *. rewrite He', He, Hb', Hb, Ht', Ht, <- app_assoc.
    repeat split; auto. intros j. rewrite Hr'.
    destruct (decide (S k <= j)%nat) as [Hlt|Hge].
    + rewrite decide_True by lia.
      replace (j - k)%nat with (S (j - S k)) by lia. simpl.
      rewrite Hne by lia. done.
    + destruct (decide (k <= j)%nat) as [Hkj|Hkj].
      * assert (j = k) as -> by lia. rewrite Nat.sub_diag. simpl. exact Hk.
      * apply Hne. lia.
Qed.

Lemma ceil_div_is_ceiling n c :
  (1 <= c)%nat -> (n <= ceil_div n c * c)%nat /\ (ceil_div n c * c < n + c)%nat.
Proof.
  intros Hc. unfold ceil_div.
  pose proof (Nat.div_mod (n + (c - 1)) c ltac:(lia)) as Hdiv.
  pose proof (Nat.mod_upper_bound (n + (c - 1)) c ltac:(lia)) as Hmod.
  split; nia.
Qed.

Lemma windows_left_done n c i : (1 <= c)%nat -> (n <= i)%nat -> windows_left n c i = 0%nat.
Proof.
  intros Hc Hi. unfold windows_left, ceil_div.
  replace (n - i)%nat with 0%nat by lia. apply Nat.div_small. lia.
Qed.

Lemma windows_left_step n c i :
  (1 <= c)%nat -> (i < n)%nat -> windows_left n c i = S (windows_left n c (i + c)).
Proof.
  intros Hc Hi. unfold windows_left, ceil_div.
  destruct (decide (c <= n - i)%nat) as [Hfull|Hlast].
  - replace (n - i + (c - 1))%nat with ((n - (i + c) + (c - 1)) + 1 * c)%nat by lia.
    rewrite Nat.div_add by lia. lia.
  - replace (n - (i + c))%nat with 0%nat by lia.
    replace (n - i + (c - 1))%nat with ((n - i - 1) + 1 * c)%nat by lia.
    rewrite Nat.div_add by lia. rewrite !Nat.div_small by lia. done.
Qed.

Lemma window_starts_S c i k : window_starts c i (S k) = i :: window_starts c (i + c) k.
Proof.
  unfold window_starts. simpl. f_equal; [lia|].
  rewrite <- fmap_S_seq, <- list_fmap_compose. apply list_fmap_ext.
  intros _ q _. simpl. lia.
Qed.

Section Loop.
  Variable settle_order : list nat -> list nat.
  Variable items : list JsValue.
  Variable processor : JsValue -> Completion JsValue.
  Variable c : nat.
  Hypothesis c_positive : (1 <= c)%nat.

Lemma batch_loop_spec (rem : nat) :
    forall (i : nat) (st : BatchState) (fuel : nat),
      (length items - i <= rem)%nat -> (rem < fuel)%nat ->
      exists st',
        batch_loop fuel settle_order items processor c i st = Some (Normal st')
        /\ errors st' = errors st ++ item_errors processor i (drop i items)
        /\ (forall j, array_get (results st') j
                      = result_from items processor i j (array_get (results st) j))
        /\ batches st' = batches st
                         ++ expected_batches items c i (windows_left (length items) c i)
        /\ timeline st' = timeline st
                          ++ expected_timeline settle_order items c i
                               (windows_left (length items) c i).
  Proof.
    induction rem as [|rem IH]; intros i st fuel Hrem Hfuel;
      (destruct fuel as [|fuel]; [lia|]); cbn [batch_loop]; case_decide as Hi;
      try lia.
    - exists st. rewrite windows_left_done, drop_ge by lia.
      unfold expected_batches, expected_timeline. simpl. rewrite !app_nil_r.
      repeat split; auto. intros j. unfold result_from. case_decide; [|done].
      by rewrite lookup_ge_None_2 by lia.
    - cbv zeta. rewrite Promise_all_window.
      set (batch := slice items i (i + c)).
      set (ps := imap (batch_item processor i) batch).
      destruct (foldl_record_outcome processor batch i
                  (settled settle_order ps (launched batch ps st)))
        as (He & Hr & Hb & Ht).
      destruct (IH (i + c)%nat
                  (foldl record_outcome (settled settle_order ps (launched batch ps st))
                     (records_from processor i batch)) fuel)
        as (st' & Hrun & He' & Hr' & Hb' & Ht'); [lia | lia |].
      exists st'. rewrite windows_left_step by lia.
      unfold expected_batches, expected_timeline in *. rewrite window_starts_S.
      rewrite Hrun, He', He, Hb', Hb, Ht', Ht. simpl. fold batch.
      unfold ps. rewrite imap_batch_item_operations. unfold window_events.
      rewrite <- !app_assoc. simpl.
      assert (batch = take c (drop i items)) as Hbatch.
      { unfold batch, slice. f_equal. lia. }
      repeat split; auto.
      + f_equal. rewrite <- (take_drop c (drop i items)) at 1.
        rewrite item_errors_app, <- Hbatch, drop_drop. f_equal.
        destruct (decide (i + c <= length items)%nat) as [Hfull|Hlast].
        * rewrite Hbatch, length_take, length_drop. f_equal. lia.
        * rewrite drop_ge by lia. done.
      + intros j. rewrite Hr', Hr. unfold result_from.
        destruct (decide (i + c <= j)%nat) as [Hout|Hin].
        * rewrite decide_True by lia. rewrite decide_True by lia.
          rewrite Hbatch, lookup_take_ge by lia. done.
        * destruct (decide (i <= j)%nat) as [Hij|Hij]; [|done].
          rewrite Hbatch, lookup_take_lt, lookup_drop by lia.
          by replace (i + (j - i))%nat with j by lia.
    - exists st. rewrite windows_left_done, drop_ge by lia.
      unfold expected_batches, expected_timeline. simpl. rewrite !app_nil_r.
      repeat split; auto. intros j. unfold result_from. case_decide; [|done].
      by rewrite lookup_ge_None_2 by lia.
  Qed.
End Loop.

(** *** Windows *)

Lemma slice_length {A} (l : list A) (s c : nat) :
  length (slice l s (s + c)) = (c `min` (length l - s))%nat.
Proof. unfold slice. rewrite length_take, length_drop. f_equal. lia. Qed.

Lemma expected_batches_concat (items : list JsValue) (c : nat) :
  (1 <= c)%nat ->
  forall rem i, (length items - i <= rem)%nat ->
    concat (expected_batches items c i (windows_left (length items) c i)) = drop i items.
Proof.
  intros Hc. induction rem as [|rem IH]; intros i Hrem;
    destruct (decide (i < length items)%nat) as [Hi|Hi]; try lia.
  - rewrite windows_left_done, drop_ge by lia. done.
  - rewrite windows_left_step by lia. unfold expected_batches in *.
    rewrite window_starts_S, fmap_cons. simpl. rewrite IH by lia.
    unfold slice. replace (i + c - i)%nat with c by lia.
    rewrite <- (drop_drop items c i). apply take_drop.
  - rewrite windows_left_done, drop_ge by lia. done.
Qed.

Lemma expected_batches_from_0 (items : list JsValue) (c k : nat) :
  expected_batches items c 0 k
  = (fun q => slice items (q * c) (q * c + c)) <$> seq 0 k.
Proof.
  unfold expected_batches, window_starts. rewrite <- list_fmap_compose.
  apply list_fmap_ext. intros _ q _. simpl. done.
Qed.

Lemma expected_timeline_from_0 settle_order (items : list JsValue) (c k : nat) :
  expected_timeline settle_order items c 0 k
  = concat ((fun q => window_events settle_order (q * c)
                        (c `min` (length items - q * c))%nat) <$> seq 0 k).
Proof.
  unfold expected_timeline, window_starts. rewrite <- list_fmap_compose. f_equal.
  apply list_fmap_ext. intros _ q _. simpl. by rewrite slice_length.
Qed.

(** *** Operations in flight *)

Lemma in_flight_app tl1 tl2 : in_flight (tl1 ++ tl2) = in_flight tl1 + in_flight tl2.
Proof. induction tl1 as [|[] tl1 IH]; simpl; lia. Qed.

Lemma in_flight_launches (l : list nat) : in_flight (Launch <$> l) = Z.of_nat (length l).
Proof. induction l as [|x l IH]; [done|]. rewrite fmap_cons. simpl. lia. Qed.

Lemma in_flight_settles (l : list nat) : in_flight (Settle <$> l) = - Z.of_nat (length l).
Proof. induction l as [|x l IH]; [done|]. rewrite fmap_cons. simpl. lia. Qed.

Lemma at_most_in_flight_app c tl1 tl2 :
  at_most_in_flight c tl1 -> in_flight tl1 = 0 -> at_most_in_flight c tl2 ->
  at_most_in_flight c (tl1 ++ tl2).
Proof.
  intros H1 H0 H2 m. rewrite take_app, in_flight_app.
  destruct (decide (m <= length tl1)%nat) as [Hm|Hm].
  - replace (m - length tl1)%nat with 0%nat by lia. rewrite take_0. simpl.
    specialize (H1 m). lia.
  - rewrite take_ge by lia. rewrite H0. specialize (H2 (m - length tl1)%nat). lia.
Qed.

Lemma window_in_flight settle_order (c s len : nat) :
  (forall l, settle_order l ≡ₚ l) -> (len <= c)%nat ->
  at_most_in_flight c (window_events settle_order s len)
  /\ in_flight (window_events settle_order s len) = 0.
Proof.
  intros Hperm Hlen. unfold window_events.
  assert (length (settle_order (seq s len)) = len) as Hso.
  { rewrite (Permutation_length (Hperm _)). apply length_seq. }
  split.
  - intros m. rewrite take_app, in_flight_app, <- !fmap_take.
    rewrite in_flight_launches, in_flight_settles, !length_take, !length_fmap.
    rewrite length_seq, Hso. lia.
  - rewrite in_flight_app, in_flight_launches, in_flight_settles, Hso, length_seq. lia.
Qed.

Lemma windows_in_flight settle_order (c : nat) (f : nat -> nat * nat) (l : list nat) :
  (forall l, settle_order l ≡ₚ l) ->
  (forall q, ((f q).2 <= c)%nat) ->
  let tl := concat ((fun q => window_events settle_order (f q).1 (f q).2) <$> l) in
  at_most_in_flight c tl /\ in_flight tl = 0.
Proof.
  intros Hperm Hf tl. subst tl. induction l as [|q l [IH1 IH2]].
  - split; [|done]. intros m. simpl. rewrite take_nil. simpl. lia.
  - rewrite fmap_cons. cbn [concat].
    destruct (window_in_flight settle_order c (f q).1 (f q).2 Hperm (Hf q)) as [Hw1 Hw2].
    split.
    + by apply at_most_in_flight_app.
    + rewrite in_flight_app, Hw2, IH2. done.
Qed.

(** *** The whole run *)

Lemma batchProcess_spec settle_order (items : list JsValue) processor concurrency fuel :
  let c := default 5%nat concurrency in
  (1 <= c)%nat -> (length items < fuel)%nat ->
  exists st,
    batchProcess fuel settle_order items processor concurrency = Some (Normal st)
    /\ errors st = item_errors processor 0 items
    /\ (forall j, array_get (results st) j = result_from items processor 0 j None)
    /\ batches st = expected_batches items c 0 (ceil_div (length items) c)
    /\ timeline st = expected_timeline settle_order items c 0 (ceil_div (length items) c).
Proof.
  intros c Hc Hfuel. unfold batchProcess. fold c.
  destruct (batch_loop_spec settle_order items processor c Hc (length items) 0
              empty_batch fuel) as (st & Hrun & He & Hr & Hb & Ht); [lia | lia |].
  exists st. unfold windows_left in *. rewrite Nat.sub_0_r in *.
  repeat split; auto.
Qed.

Lemma item_errors_index processor (l : list JsValue) :
  forall k i,
    filter (fun x => err_index x = i) (item_errors processor k l)
    = match (if decide (k <= i)%nat then l !! (i - k)%nat else None) with
      | Some item => item_error processor i item
      | None => []
      end.
Proof.
  induction l as [|x l IH]; intros k i; simpl.
  - by case_decide.
  - rewrite filter_app, IH.
    assert (filter (fun e => err_index e = i) (item_error processor k x)
            = if decide (k = i) then item_error processor i x else []) as ->.
    { unfold item_error. destruct (processor x) as [r|e]; [by case_decide|].
      destruct (truthy e); [|by case_decide].
      rewrite filter_cons, filter_nil. simpl.
      destruct (decide (k = i)) as [->|Hk]; done. }
    destruct (decide (k = i)) as [->|Hne].
    + rewrite decide_False by lia. rewrite decide_True by lia.
      rewrite Nat.sub_diag. simpl. by rewrite app_nil_r.
    + destruct (decide (S k <= i)%nat) as [Hlt|Hge].
      * rewrite decide_True by lia.
        by replace (i - k)%nat with (S (i - S k)) by lia.
      * rewrite decide_False by lia. done.
Qed.

(** X1: index alignment. With a positive window size the run returns, and for
    the item at position [i] of the input
    - a success is read back at [results[i]] and leaves no entry in
      [errors];
    - a failure whose reason is truthy leaves exactly the entry
      [{index: i, error}] in [errors] and a gap at [results[i]];
    - a failure whose reason is falsy leaves no entry in [errors] and
      [null] at [results[i]]. *)
Theorem batchProcess_index_alignment settle_order (items : list JsValue) processor
    concurrency fuel :
  (1 <= default 5%nat concurrency)%nat -> (length items < fuel)%nat ->
  exists st,
    batchProcess fuel settle_order items processor concurrency = Some (Normal st)
    /\ forall i item, items !! i = Some item ->
         let entries := filter (fun x => err_index x = i) (errors st) in
         match processor item with
         | Normal r => array_get (results st) i = Some r /\ entries = []
         | Throw e =>
           if truthy e
           then array_get (results st) i = None
                /\ entries = [{| err_index := i; err_error := e |}]
           else array_get (results st) i = Some JNull /\ entries = []
         end.
Proof.
  intros Hc Hfuel.
  destruct (batchProcess_spec settle_order items processor concurrency fuel Hc Hfuel)
    as (st & Hrun & He & Hr & _).
  exists st. split; [done|]. intros i item Hitem entries. subst entries.
  rewrite He, item_errors_index, Hr. unfold result_from.
  rewrite !decide_True by lia. rewrite Nat.sub_0_r, Hitem.
  unfold item_result, item_error. destruct (processor item) as [r|e]; [done|].
  by destruct (truthy e).
Qed.

Lemma batchProcess_index_alignment_witness :
  returned (batchProcess 4 id letters (fails_on_B (JErr (new_Error "bad"))) None)
  = Some (Normal ([Some (JStr "A"); None; Some (JStr "C")],
                  [{| err_index := 1; err_error := JErr (new_Error "bad") |}]))
  /\ exists st,
    batchProcess 4 id letters (fails_on_B (JErr (new_Error "bad"))) None
      = Some (Normal st)
    /\ forall i item, letters !! i = Some item ->
         let entries := filter (fun x => err_index x = i) (errors st) in
         match fails_on_B (JErr (new_Error "bad")) item with
         | Normal r => array_get (results st) i = Some r /\ entries = []
         | Throw e =>
           if truthy e
           then array_get (results st) i = None
                /\ entries = [{| err_index := i; err_error := e |}]
           else array_get (results st) i = Some JNull /\ entries = []
         end.
Proof.
  split; [vm_compute; reflexivity|].
  apply (batchProcess_index_alignment id letters (fails_on_B (JErr (new_Error "bad")))
           None 4); simpl; lia.
Defined.

(** C3 (the code departs from it): in the input [A, B, C] let the
    operation of [B] fail with the reason [undefined]. The run records the
    failure as the success [null] at [results[1]] and leaves [errors]
    empty, where the claim has a gap at position 1 and the entry
    [{index: 1, error}]. *)
Theorem batchProcess_falsy_reason_is_recorded_as_success :
  returned (batchProcess 4 id letters (fails_on_B JUndefined) None)
  = Some (Normal ([Some (JStr "A"); Some JNull; Some (JStr "C")], [])).
Proof. vm_compute. reflexivity. Qed.

(** C4: with [n] items and a positive bound [c] the run slices
    [ceil(n / c)] windows, window [q] being [items.slice(q*c, q*c + c)]:
    consecutive, disjoint, covering the input, of [c] items each but
    possibly the last, none empty. The timeline of the operations that the
    calls of the callback start and that [Promise.all] awaits is, window
    after window, the launches of the window's items in order followed by
    their settlements in the order the environment chose; so nothing is in
    flight between two windows, and at no instant are more than [c]
    operations in flight. The operation launched for a position is the
    processor applied to the item there: its value is what the run keeps at
    that position. With [concurrency] left out the bound is 5. *)
Theorem batchProcess_windows settle_order (items : list JsValue) processor (c fuel : nat) :
  (1 <= c)%nat -> (forall l, settle_order l ≡ₚ l) -> (length items < fuel)%nat ->
  let n := length items in
  let K := ceil_div n c in
  let window_timeline q :=
    let positions := seq (q * c) (c `min` (n - q * c))%nat in
    (Launch <$> positions) ++ (Settle <$> settle_order positions) in
  exists st,
    batchProcess fuel settle_order items processor (Some c) = Some (Normal st)
    /\ length (batches st) = K
    /\ (n <= K * c)%nat /\ (K * c < n + c)%nat
    /\ batches st = (fun q => slice items (q * c) (q * c + c)) <$> seq 0 K
    /\ concat (batches st) = items
    /\ (forall q b, batches st !! q = Some b ->
          (1 <= length b <= c)%nat /\ ((S q < K)%nat -> length b = c))
    /\ timeline st = concat (window_timeline <$> seq 0 K)
    /\ (forall q, in_flight (concat (window_timeline <$> seq 0 q)) = 0)
    /\ at_most_in_flight c (timeline st)
    /\ (forall i item r, items !! i = Some item -> processor item = Normal r ->
          array_get (results st) i = Some r)
    /\ batchProcess fuel settle_order items processor None
       = batchProcess fuel settle_order items processor (Some 5%nat).
Proof.
  intros Hc Hperm Hfuel n K window_timeline.
  change window_timeline
    with (fun q => window_events settle_order (q * c) (c `min` (n - q * c))%nat).
  destruct (batchProcess_spec settle_order items processor (Some c) fuel Hc Hfuel)
    as (st & Hrun & _ & Hr & Hb & Ht).
  simpl in Hb, Ht. fold n K in Hb, Ht.
  rewrite expected_batches_from_0 in Hb. rewrite expected_timeline_from_0 in Ht.
  fold n in Ht.
  destruct (ceil_div_is_ceiling n c Hc) as [Hup Hlow]. fold K in Hup, Hlow.
  assert (forall l, at_most_in_flight c (concat (window_timeline <$> l))
                    /\ in_flight (concat (window_timeline <$> l)) = 0) as Hflight.
  { intros l.
    apply (windows_in_flight settle_order c
             (fun q => (q * c, c `min` (n - q * c))%nat) l Hperm).
    intros q. simpl. lia. }
  exists st. split; [exact Hrun|].
  split; [by rewrite Hb, length_fmap, length_seq|].
  split; [exact Hup|]. split; [exact Hlow|]. split; [exact Hb|].
  split.
  { rewrite <- expected_batches_from_0 in Hb. rewrite Hb. unfold K.
    replace (ceil_div n c) with (windows_left (length items) c 0)
      by (unfold windows_left; by rewrite Nat.sub_0_r).
    by rewrite (expected_batches_concat items c Hc (length items) 0) by lia. }
  split.
  { intros q b. rewrite Hb, list_lookup_fmap.
    destruct (seq 0 K !! q) as [q'|] eqn:Hq; [|done].
    apply lookup_seq in Hq as [-> Hq]. simpl. intros [= <-].
    rewrite slice_length. fold n. split; [nia|]. intros HS. nia. }
  split; [exact Ht|].
  split; [intros q; apply Hflight|].
  split; [rewrite Ht; apply Hflight|].
  split; [|reflexivity].
  intros i item r Hitem Hok. rewrite Hr. unfold result_from.
  rewrite decide_True by lia. rewrite Hitem. unfold item_result. by rewrite Hok.
Qed.

Lemma batchProcess_windows_witness :
  let items := JNum <$> [1; 2; 3; 4; 5]%Q in
  let double v := match v with JNum x => Normal (JNum (x * 2)) | _ => Throw JNull end in
  let window_timeline q :=
    let positions := seq (q * 2) (2 `min` (5 - q * 2))%nat in
    (Launch <$> positions) ++ (Settle <$> reverse positions) in
  exists st,
    batchProcess 6 reverse items double (Some 2%nat) = Some (Normal st)
    /\ length (batches st) = 3%nat
    /\ (5 <= 3 * 2)%nat /\ (3 * 2 < 5 + 2)%nat
    /\ batches st = (fun q => slice items (q * 2) (q * 2 + 2)) <$> seq 0 3
    /\ concat (batches st) = items
    /\ (forall q b, batches st !! q = Some b ->
          (1 <= length b <= 2)%nat /\ ((S q < 3)%nat -> length b = 2%nat))
    /\ timeline st = concat (window_timeline <$> seq 0 3)
    /\ (forall q, in_flight (concat (window_timeline <$> seq 0 q)) = 0)
    /\ at_most_in_flight 2 (timeline st)
    /\ (forall i item r, items !! i = Some item -> double item = Normal r ->
          array_get (results st) i = Some r)
    /\ batchProcess 6 reverse items double None
       = batchProcess 6 reverse items double (Some 5%nat).
Proof.
  refine (batchProcess_windows reverse (JNum <$> [1; 2; 3; 4; 5]%Q)
            (fun v => match v with JNum x => Normal (JNum (x * 2)) | _ => Throw JNull end)
            2 6 _ _ _).
  - lia.
  - intros l. apply reverse_Permutation.
  - simpl. lia.
Defined.

(** X2: a run never raises and every item is on its own: the run returns;
    every success is read back at its position; every failure with a truthy
    reason has its entry in [errors]; every entry of [errors] is the
    failure of the item at its index; and what is recorded for an item
    depends on that item's outcome alone, whatever the operation does on the
    other items. *)
Theorem batchProcess_isolates_failures settle_order (items : list JsValue) processor
    concurrency fuel :
  (1 <= default 5%nat concurrency)%nat -> (length items < fuel)%nat ->
  exists st,
    batchProcess fuel settle_order items processor concurrency = Some (Normal st)
    /\ (forall i item r, items !! i = Some item -> processor item = Normal r ->
          array_get (results st) i = Some r)
    /\ (forall i item e, items !! i = Some item -> processor item = Throw e ->
          truthy e = true -> {| err_index := i; err_error := e |} ∈ errors st)
    /\ (forall entry, entry ∈ errors st ->
          exists item, items !! err_index entry = Some item
                       /\ processor item = Throw (err_error entry))
    /\ (forall processor' st',
          batchProcess fuel settle_order items processor' concurrency = Some (Normal st') ->
          forall i item, items !! i = Some item -> processor' item = processor item ->
            array_get (results st') i = array_get (results st) i
            /\ filter (fun x => err_index x = i) (errors st')
               = filter (fun x => err_index x = i) (errors st)).
Proof.
  intros Hc Hfuel.
  destruct (batchProcess_spec settle_order items processor concurrency fuel Hc Hfuel)
    as (st & Hrun & He & Hr & _).
  exists st. split; [exact Hrun|]. split; [|split; [|split]].
  - intros i item r Hitem Hok. rewrite Hr. unfold result_from.
    rewrite decide_True by lia. rewrite Hitem. unfold item_result. by rewrite Hok.
  - intros i item e Hitem Hfail Htruthy.
    assert ({| err_index := i; err_error := e |}
              ∈ filter (fun x => err_index x = i) (errors st)) as Hin.
    { rewrite He, item_errors_index, decide_True by lia.
      rewrite Nat.sub_0_r, Hitem. unfold item_error. rewrite Hfail, Htruthy.
      apply list_elem_of_singleton. done. }
    by apply list_elem_of_filter in Hin as [_ Hin].
  - intros entry Hentry.
    assert (entry ∈ filter (fun x => err_index x = err_index entry) (errors st)) as Hin
      by (by apply list_elem_of_filter).
    rewrite He, item_errors_index, decide_True in Hin by lia.
    rewrite Nat.sub_0_r in Hin.
    destruct (items !! err_index entry) as [item|]; [|by inversion Hin].
    exists item. split; [done|]. unfold item_error in Hin.
    destruct (processor item) as [r|e]; [by inversion Hin|].
    destruct (truthy e); [|by inversion Hin].
    apply list_elem_of_singleton in Hin. by rewrite Hin.
  - intros processor' st' Hrun' i item Hitem Hsame.
    destruct (batchProcess_spec settle_order items processor' concurrency fuel Hc Hfuel)
      as (st'' & Hrun'' & He' & Hr' & _).
    rewrite Hrun' in Hrun''. injection Hrun'' as <-.
    rewrite Hr, Hr', He, He', !item_errors_index. unfold result_from.
    rewrite !decide_True by lia. rewrite Nat.sub_0_r, Hitem.
    unfold item_result, item_error. by rewrite Hsame.
Qed.

Lemma batchProcess_isolates_failures_witness :
  returned (batchProcess 5 id four_letters fails_on_B_and_D (Some 2%nat))
  = Some (Normal ([Some (JStr "A"); Some JNull; Some (JStr "C")],
                  [{| err_index := 3; err_error := JErr (new_Error "bad") |}]))
  /\ exists st,
    batchProcess 5 id four_letters fails_on_B_and_D (Some 2%nat) = Some (Normal st)
    /\ (forall i item r, four_letters !! i = Some item -> fails_on_B_and_D item = Normal r ->
          array_get (results st) i = Some r)
    /\ (forall i item e, four_letters !! i = Some item -> fails_on_B_and_D item = Throw e ->
          truthy e = true -> {| err_index := i; err_error := e |} ∈ errors st)
    /\ (forall entry, entry ∈ errors st ->
          exists item, four_letters !! err_index entry = Some item
                       /\ fails_on_B_and_D item = Throw (err_error entry))
    /\ (forall processor' st',
          batchProcess 5 id four_letters processor' (Some 2%nat) = Some (Normal st') ->
          forall i item, four_letters !! i = Some item ->
            processor' item = fails_on_B_and_D item ->
            array_get (results st') i = array_get (results st) i
            /\ filter (fun x => err_index x = i) (errors st')
               = filter (fun x => err_index x = i) (errors st)).
Proof.
  split; [vm_compute; reflexivity|].
  apply (batchProcess_isolates_failures id four_letters fails_on_B_and_D (Some 2%nat) 5);
    simpl; lia.
Defined.

(** C7 (the code departs from it): of the four items [A, B, C, D] two
    fail, [B] with the reason [null] and [D] with an [Error]. The run
    returns, but its error list has the entry of [D] only, and the failure
    of [B] stands among the successes as [null]. *)
Theorem batchProcess_error_list_misses_falsy_reason :
  returned (batchProcess 5 id four_letters fails_on_B_and_D (Some 2%nat))
  = Some (Normal ([Some (JStr "A"); Some JNull; Some (JStr "C")],
                  [{| err_index := 3; err_error := JErr (new_Error "bad") |}])).
Proof. vm_compute. reflexivity. Qed.

(** X4: with [concurrency = 0] the loop variable never moves: on a
    non-empty input no amount of fuel lets the run return. *)
Theorem batch_loop_zero_never_returns settle_order (items : list JsValue) processor fuel :
  forall st, items <> [] -> batch_loop fuel settle_order items processor 0 0 st = None.
Proof.
  induction fuel as [|fuel IH]; intros st Hne; [done|].
  cbn [batch_loop]. rewrite decide_True by (destruct items; [done | simpl; lia]).
  rewrite Promise_all_window. by apply IH.
Qed.

Lemma batch_loop_zero_never_returns_witness :
  batchProcess 100 id letters (fails_on_B JNull) (Some 0%nat) = None.
Proof.
  apply (batch_loop_zero_never_returns id letters (fails_on_B JNull) 100 empty_batch).
  discriminate.
Defined.

(** * Further properties *)

(** ** Retry with backoff, for any operation *)

Lemma status_is_4xx_client_fault to_number (v : JsValue) :
  status_is_4xx to_number v = Normal true <-> client_fault to_number v.
Proof.
  unfold client_fault. split.
  - destruct v as [| | | | |fields|e|]; try discriminate; simpl; intros [= H].
    + right. destruct (fields !! "status") as [s|] eqn:Hs; [|discriminate].
      destruct (to_number s) as [q|] eqn:Hq; [|discriminate].
      apply andb_true_iff in H as [H1 H2].
      apply Qle_bool_iff in H1. apply negb_true_iff in H2.
      exists fields, s, q. split; [done|]. split; [done|]. split; [done|].
      split; [done|].
      apply Qnot_le_lt. intros Hle. apply Qle_bool_iff in Hle. congruence.
    + left. destruct (status e) as [s|] eqn:Hs; [|discriminate].
      simpl in H. apply andb_true_iff in H as [H1 H2].
      apply Z.leb_le in H1. apply Z.ltb_lt in H2. exists e, s. repeat split; auto.
  - intros [(e & s & -> & Hs & H1 & H2)|(fields & s & q & -> & Hs & Hq & H1 & H2)]; simpl.
    + rewrite Hs. simpl. f_equal. apply andb_true_iff.
      split; [by apply Z.leb_le | by apply Z.ltb_lt].
    + rewrite Hs, Hq. f_equal. apply andb_true_iff. split; [by apply Qle_bool_iff|].
      apply negb_true_iff, not_true_iff_false. intros Hle. apply Qle_bool_iff in Hle.
      by apply Qlt_not_le in H2.
Qed.

(** A call on a scripted operation [op]: it ends after some [S n] calls of
    the operation, [n] of them followed by a backoff sleep, where call [n] is
    the first that [settle] does not send into a retry. *)
Lemma retry_scripted (op : nat -> Completion JsValue) (d : nat) :
  forall (a : Z) (w : World) (fuel : nat),
    (Z.to_nat (maxRetries (this w) - a) <= d)%nat -> (d < fuel)%nat ->
    exists r w' n,
      retryWithBackoff fuel (invoke op) a w = Some (r, w')
      /\ this w' = this w /\ env w' = env w
      /\ calls w' = (calls w + S n)%nat
      /\ events w' = events w ++ exhausted_trace (retryDelay (this w)) (calls w) a n
      /\ clock w' = clock_after (env w) (clock w)
                      (backoff_delay (retryDelay (this w)) <$> seqZ a (Z.of_nat n))
      /\ (n <= d)%nat
      /\ (forall j, (j < n)%nat ->
            settle (StringToNumber (env w)) (maxRetries (this w)) (a + Z.of_nat j)
              (op (calls w + j)%nat) = None)
      /\ settle (StringToNumber (env w)) (maxRetries (this w)) (a + Z.of_nat n)
           (op (calls w + n)%nat) = Some r.
Proof.
  induction d as [|d IH]; intros a w fuel Hd Hfuel;
    (destruct fuel as [|fuel]; [lia|]);
    cbn [retryWithBackoff]; unfold try_catch at 1, invoke at 1;
    destruct (op (calls w)) as [v|error] eqn:Hop.
  - exists (Normal v), (count_call (record_event (EvInvoke (calls w)) w)), 0%nat.
    rewrite !Nat.add_0_r, Z.add_0_r, Hop. simpl.
    repeat split; auto; try lia; intros j Hj; lia.
  - unfold mbind at 1, M_bind at 1, bind at 1, get_this at 1.
    cbn [this count_call record_event].
    destruct (Z.leb_spec (maxRetries (this w)) a) as [Hle|]; [|lia].
    unfold mbind, M_bind, bind, lift, throw.
    destruct (get_message error) as [msg|te] eqn:Hmsg;
      eexists _, (count_call (record_event (EvInvoke (calls w)) w)), 0%nat;
      rewrite !Nat.add_0_r, Z.add_0_r, Hop; simpl;
      (destruct (Z.leb_spec (maxRetries (this w)) a); [|lia]); rewrite Hmsg;
      repeat split; auto; try lia; intros j Hj; lia.
  - exists (Normal v), (count_call (record_event (EvInvoke (calls w)) w)), 0%nat.
    rewrite !Nat.add_0_r, Z.add_0_r, Hop. simpl.
    repeat split; auto; try lia; intros j Hj; lia.
  - unfold mbind at 1, M_bind at 1, bind at 1, get_this at 1.
    cbn [this count_call record_event].
    destruct (Z.leb_spec (maxRetries (this w)) a) as [Hle|Hlt].
    + unfold mbind, M_bind, bind, lift, throw.
      destruct (get_message error) as [msg|te] eqn:Hmsg;
        eexists _, (count_call (record_event (EvInvoke (calls w)) w)), 0%nat;
        rewrite !Nat.add_0_r, Z.add_0_r, Hop; simpl;
        (destruct (Z.leb_spec (maxRetries (this w)) a); [|lia]); rewrite Hmsg;
        repeat split; auto; try lia; intros j Hj; lia.
    + unfold mbind at 1, M_bind at 1, bind at 1, status_test at 1, lift at 1.
      cbn [env count_call record_event].
      destruct (status_is_4xx (StringToNumber (env w)) error) as [[|]|te] eqn:Hst.
      3: { eexists _, (count_call (record_event (EvInvoke (calls w)) w)), 0%nat.
           rewrite !Nat.add_0_r, Z.add_0_r, Hop. simpl.
           destruct (Z.leb_spec (maxRetries (this w)) a); [lia|]. rewrite Hst.
           repeat split; auto; try lia; intros j Hj; lia. }
      { unfold throw.
        eexists _, (count_call (record_event (EvInvoke (calls w)) w)), 0%nat.
        rewrite !Nat.add_0_r, Z.add_0_r, Hop. simpl.
        destruct (Z.leb_spec (maxRetries (this w)) a); [lia|]. rewrite Hst.
        repeat split; auto; try lia; intros j Hj; lia. }
      unfold console_log, modify, sleep, mbind, M_bind, bind.
      cbn [env clock record_event count_call].
      match goal with
      | |- context [retryWithBackoff fuel _ (a + 1) ?w2] =>
        destruct (IH (a + 1) w2 fuel)
          as (r & w' & n & Hrun & Hthis & Henv & Hcalls & Hev & Hclock & Hn & Hbefore & Hlast);
          [cbn [this set_clock record_event count_call]; lia | lia |]
      end.
      cbn [this env events calls clock set_clock record_event count_call]
        in Hthis, Henv, Hcalls, Hev, Hclock, Hbefore, Hlast.
      exists r, w', (S n). unfold backoff_delay in *. rewrite Hrun.
      split; [done|]. split; [done|]. split; [done|].
      split; [rewrite Hcalls; lia|].
      split; [rewrite Hev; cbn [exhausted_trace]; unfold backoff_delay;
              rewrite <- !app_assoc; reflexivity|].
      split.
      { rewrite Nat2Z.inj_succ, seqZ_cons by lia. rewrite Hclock. simpl.
        replace (Z.pred (Z.succ (Z.of_nat n))) with (Z.of_nat n) by lia. done. }
      split; [lia|]. split.
      * intros [|j] Hj.
        -- rewrite Nat.add_0_r, Z.add_0_r, Hop. cbn [settle].
           destruct (Z.leb_spec (maxRetries (this w)) a); [lia|]. by rewrite Hst.
        -- specialize (Hbefore j ltac:(lia)).
           replace (a + Z.of_nat (S j)) with (a + 1 + Z.of_nat j) by lia.
           by replace (calls w + S j)%nat with (S (calls w) + j)%nat by lia.
      * replace (a + Z.of_nat (S n)) with (a + 1 + Z.of_nat n) by lia.
        by replace (calls w + S n)%nat with (S (calls w) + n)%nat by lia.
Qed.

Lemma Qpower_2_succ (z : Z) : (2 ^ (z + 1) == 2 * 2 ^ z)%Q.
Proof. rewrite Qpower_plus by discriminate. change ((2 : Q) ^ 1)%Q with (2 : Q). ring. Qed.

(** The backoff sleeps of [n] consecutive failed attempts from attempt [a]
    add up to [b * 2^(a-1) * (2^n - 1)]. *)
Lemma total_backoff (b : Q) (n : nat) :
  forall a : Z,
    (total (backoff_delay b <$> seqZ a (Z.of_nat n))
     == b * 2 ^ (a - 1) * (2 ^ Z.of_nat n - 1))%Q.
Proof.
  induction n as [|n IH]; intros a.
  - simpl. ring.
  - rewrite Nat2Z.inj_succ, seqZ_cons by lia. rewrite fmap_cons. cbn [total foldr].
    replace (Z.pred (Z.succ (Z.of_nat n))) with (Z.of_nat n) by lia.
    fold (total (backoff_delay b <$> seqZ (Z.succ a) (Z.of_nat n))).
    rewrite (IH (Z.succ a)). unfold backoff_delay.
    replace (Z.succ a - 1) with (a - 1 + 1) by lia.
    replace (Z.succ (Z.of_nat n)) with (Z.of_nat n + 1) by lia.
    rewrite !Qpower_2_succ. ring.
Qed.

Lemma clock_after_punctual (e : Env) (l : list Q) :
  punctual e ->
  forall t, (inject_Z t + total l <= inject_Z (clock_after e t l))%Q.
Proof.
  intros He. unfold clock_after, total. induction l as [|ms l IH]; intros t; simpl.
  - rewrite Qplus_0_r. apply Qle_refl.
  - specialize (IH (timer e t ms)). specialize (He t ms). lra.
Qed.

(** X6: recovery. When the operation fails [n] times with errors that are
    not 4xx and then succeeds, with [n < maxRetries], the call returns the
    value of that success after [n + 1] calls of the operation and the [n]
    sleeps [retryDelay * 2^(a-1)], [a = 1 .. n], which add up to
    [retryDelay * (2^n - 1)]; with timers that never fire early the clock has
    moved by at least that much. *)
Theorem retryWithBackoff_recovers
    (op : nat -> Completion JsValue) (errs : nat -> Error) (v : JsValue)
    (w : World) (n fuel : nat) :
  Z.of_nat n < maxRetries (this w) ->
  (forall j, (j < n)%nat ->
     op (calls w + j)%nat = Throw (JErr (errs j))
     /\ is_client_error (status (errs j)) = false) ->
  op (calls w + n)%nat = Normal v ->
  (retry_fuel (this w) 1 <= fuel)%nat ->
  let b := retryDelay (this w) in
  exists w' tr,
    retryWithBackoff fuel (invoke op) 1 w = Some (Normal v, w')
    /\ events w' = events w ++ tr
    /\ invocations tr = S n
    /\ sleeps tr = (fun a => (b * 2 ^ (a - 1))%Q) <$> seqZ 1 (Z.of_nat n)
    /\ (total (sleeps tr) == b * (2 ^ Z.of_nat n - 1))%Q
    /\ (punctual (env w) ->
        (inject_Z (clock w) + b * (2 ^ Z.of_nat n - 1) <= inject_Z (clock w'))%Q).
Proof.
  intros Hn Hfail Hok Hfuel b. unfold retry_fuel in Hfuel.
  destruct (retry_scripted op (Z.to_nat (maxRetries (this w) - 1)) 1 w fuel)
    as (r & w' & n' & Hrun & _ & _ & _ & Hev & Hclock & _ & Hbefore & Hlast); [lia | lia |].
  assert (n' = n) as ->.
  { destruct (lt_eq_lt_dec n' n) as [[Hlt|Heq]|Hgt]; [|done|].
    - destruct (Hfail n' Hlt) as [Hop H4xx]. rewrite Hop in Hlast. simpl in Hlast.
      destruct (Z.leb_spec (maxRetries (this w)) (1 + Z.of_nat n')); [lia|].
      by rewrite H4xx in Hlast.
    - specialize (Hbefore n Hgt). by rewrite Hok in Hbefore. }
  rewrite Hok in Hlast. injection Hlast as <-.
  exists w', (exhausted_trace b (calls w) 1 n).
  assert (sleeps (exhausted_trace b (calls w) 1 n)
          = (fun a => (b * 2 ^ (a - 1))%Q) <$> seqZ 1 (Z.of_nat n)) as Hsleeps
    by apply sleeps_exhausted.
  split; [exact Hrun|]. split; [exact Hev|].
  split; [apply invocations_exhausted|]. split; [exact Hsleeps|].
  assert (total ((fun a => (b * 2 ^ (a - 1))%Q) <$> seqZ 1 (Z.of_nat n))
          == b * (2 ^ Z.of_nat n - 1))%Q as Htotal.
  { pose proof (total_backoff b n 1) as H. unfold backoff_delay in H. rewrite H.
    change ((2 : Q) ^ (1 - 1))%Q with (1 : Q). ring. }
  split; [by rewrite Hsleeps|].
  intros Hpunctual. rewrite Hclock, <- Htotal. apply clock_after_punctual, Hpunctual.
Qed.

Lemma punctual_env_punctual : punctual punctual_env.
Proof. intros t ms. simpl. rewrite inject_Z_plus. apply Qplus_le_r, Qle_ceiling. Qed.

Lemma retryWithBackoff_recovers_witness :
  let w := sample_world punctual_env None in
  exists w' tr,
    retryWithBackoff 3 (invoke third_time_lucky) 1 w = Some (Normal (JStr "done"), w')
    /\ events w' = events w ++ tr
    /\ invocations tr = 3%nat
    /\ sleeps tr = (fun a => ((100 # 1) * 2 ^ (a - 1))%Q) <$> seqZ 1 2
    /\ (total (sleeps tr) == (100 # 1) * (2 ^ 2 - 1))%Q
    /\ (punctual punctual_env ->
        (inject_Z 5000 + (100 # 1) * (2 ^ 2 - 1) <= inject_Z (clock w'))%Q).
Proof.
  refine (retryWithBackoff_recovers third_time_lucky
            (fun _ => {| name := "Error"; message := "HTTP 503: busy"; status := Some 503 |})
            (JStr "done") (sample_world punctual_env None) 2 3 _ _ _ _).
  - reflexivity.
  - intros [|[|j]] Hj; [split; reflexivity | split; reflexivity | lia].
  - reflexivity.
  - vm_compute. lia.
Defined.

(** X7: whatever the operation does, a call from attempt 1 ends after at
    most [max(1, maxRetries)] calls of the operation; it sleeps exactly
    once, by the backoff delay, between two calls and never after the last
    one; and it ends in one of four ways: with the value of the last call;
    with the last call's own reason when attempts remained and line 46
    takes it for a client fault (an [Error] with a status in [400, 500), or
    a bag whose [status] string converts to such a number); with the new
    error "Failed after ..." (which has no status) when the attempts are
    used up; or with the [TypeError] of reading a property of a [null] or
    [undefined] reason.  A failure that is no client fault is never passed
    on as it is. *)
Theorem retryWithBackoff_bounded (op : nat -> Completion JsValue) (w : World) (fuel : nat) :
  (retry_fuel (this w) 1 <= fuel)%nat ->
  let m := maxRetries (this w) in
  exists r w' tr n,
    retryWithBackoff fuel (invoke op) 1 w = Some (r, w')
    /\ events w' = events w ++ tr
    /\ invocations tr = S n
    /\ Z.of_nat (S n) <= Z.max 1 m
    /\ sleeps tr = backoff_delay (retryDelay (this w)) <$> seqZ 1 (Z.of_nat n)
    /\ last tr = Some (EvInvoke (calls w + n))
    /\ this w' = this w
    /\ match r with
       | Normal v => op (calls w + n)%nat = Normal v
       | Throw reason =>
         exists e, op (calls w + n)%nat = Throw e
           /\ ((reason = e /\ Z.of_nat (S n) < m
                /\ client_fault (StringToNumber (env w)) e)
               \/ (m <= Z.of_nat (S n)
                   /\ exists msg,
                        reason = JErr (new_Error ("Failed after " +:+ pretty m
                                                  +:+ " attempts: " +:+ msg))
                        /\ get_status reason = Normal None)
               \/ ((e = JUndefined \/ e = JNull)
                   /\ exists prop, reason = TypeError prop))
       end.
Proof.
  intros Hfuel m. unfold retry_fuel in Hfuel.
  destruct (retry_scripted op (Z.to_nat (maxRetries (this w) - 1)) 1 w fuel)
    as (r & w' & n & Hrun & Hthis & _ & _ & Hev & _ & Hn & _ & Hlast); [lia | lia |].
  exists r, w', (exhausted_trace (retryDelay (this w)) (calls w) 1 n), n.
  split; [exact Hrun|]. split; [exact Hev|]. split; [apply invocations_exhausted|].
  split; [lia|]. split; [apply sleeps_exhausted|]. split; [apply last_exhausted|].
  split; [exact Hthis|].
  fold m in Hlast. unfold settle in Hlast.
  destruct (op (calls w + n)%nat) as [v|e]; [by injection Hlast as <-|].
  destruct (Z.leb_spec m (1 + Z.of_nat n)) as [Hle|Hlt].
  - destruct e; simpl in Hlast; injection Hlast as <-; eexists; (split; [reflexivity|]);
      try (right; left; split; [lia|]; eexists; split; reflexivity);
      right; right; (split; [auto|]); eexists; reflexivity.
  - destruct (status_is_4xx (StringToNumber (env w)) e) as [[|]|te] eqn:Hst;
      [|discriminate|].
    + injection Hlast as <-.
      exists e. split; [reflexivity|]. left. split; [done|]. split; [lia|].
      by apply status_is_4xx_client_fault.
    + injection Hlast as <-. exists e. split; [reflexivity|]. right. right.
      destruct e; try discriminate; injection Hst as <-; (split; [auto|]); eexists; reflexivity.
Qed.

Lemma retryWithBackoff_bounded_witness :
  let w := sample_world punctual_env None in
  exists r w' tr n,
    retryWithBackoff 3 (invoke third_time_lucky) 1 w = Some (r, w')
    /\ events w' = events w ++ tr
    /\ invocations tr = S n
    /\ Z.of_nat (S n) <= Z.max 1 3
    /\ sleeps tr = backoff_delay (100 # 1) <$> seqZ 1 (Z.of_nat n)
    /\ last tr = Some (EvInvoke (0 + n))
    /\ this w' = this w
    /\ match r with
       | Normal v => third_time_lucky (0 + n)%nat = Normal v
       | Throw reason =>
         exists e, third_time_lucky (0 + n)%nat = Throw e
           /\ ((reason = e /\ Z.of_nat (S n) < 3
                /\ client_fault (StringToNumber (env w)) e)
               \/ (3 <= Z.of_nat (S n)
                   /\ exists msg,
                        reason = JErr (new_Error ("Failed after " +:+ pretty 3
                                                  +:+ " attempts: " +:+ msg))
                        /\ get_status reason = Normal None)
               \/ ((e = JUndefined \/ e = JNull)
                   /\ exists prop, reason = TypeError prop))
       end.
Proof.
  refine (retryWithBackoff_bounded third_time_lucky (sample_world punctual_env None) 3 _).
  vm_compute. lia.
Defined.

(** X8: an operation that rejects with [undefined] or [null] is never
    retried, whatever attempts remain: after that one call the method
    itself fails, with the [TypeError] raised by reading [error.message]
    (attempts used up) or [error.status] (attempts left) in its catch
    block; it does not sleep. *)
Theorem retryWithBackoff_nullish_reason
    (op : nat -> Completion JsValue) (w : World) (fuel : nat) (attempt : Z) :
  op (calls w) = Throw JUndefined \/ op (calls w) = Throw JNull ->
  exists w',
    retryWithBackoff (S fuel) (invoke op) attempt w
      = Some (Throw (TypeError (if maxRetries (this w) <=? attempt
                                then "message" else "status")), w')
    /\ events w' = events w ++ [EvInvoke (calls w)]
    /\ calls w' = S (calls w)
    /\ clock w' = clock w.
Proof.
  intros Hop. cbn [retryWithBackoff]. unfold try_catch, invoke.
  unfold mbind, M_bind, bind, get_this. cbn [this count_call record_event].
  destruct Hop as [->| ->]; destruct (maxRetries (this w) <=? attempt); simpl;
    eexists; repeat split; reflexivity.
Qed.

Lemma retryWithBackoff_nullish_reason_witness :
  exists w',
    retryWithBackoff 3 (invoke (fun _ => Throw JUndefined)) 1
      (sample_world punctual_env None)
      = Some (Throw (TypeError "status"), w')
    /\ events w' = [] ++ [EvInvoke 0]
    /\ calls w' = 1%nat
    /\ clock w' = 5000.
Proof.
  refine (retryWithBackoff_nullish_reason (fun _ => Throw JUndefined)
            (sample_world punctual_env None) 2 1 _).
  left. reflexivity.
Defined.

(** X28: a reason that line 46 takes for a client fault is passed on at
    once while attempts remain, whether it is an [Error] with a status in
    [400, 500) or a plain object whose [status] string converts to such a
    number: the operation is called once, the method does not sleep and the
    caller gets the very reason the operation threw. *)
Theorem retryWithBackoff_client_fault_once
    (op : nat -> Completion JsValue) (w : World) (fuel : nat) (attempt : Z) (e : JsValue) :
  op (calls w) = Throw e ->
  client_fault (StringToNumber (env w)) e ->
  attempt < maxRetries (this w) ->
  exists w',
    retryWithBackoff (S fuel) (invoke op) attempt w = Some (Throw e, w')
    /\ events w' = events w ++ [EvInvoke (calls w)]
    /\ calls w' = S (calls w)
    /\ clock w' = clock w.
Proof.
  intros Hop Hfault Hattempt. apply status_is_4xx_client_fault in Hfault.
  cbn [retryWithBackoff]. unfold try_catch, invoke. rewrite Hop.
  unfold mbind, M_bind, bind, get_this. cbn [this count_call record_event].
  destruct (Z.leb_spec (maxRetries (this w)) attempt) as [|_]; [lia|].
  unfold status_test, lift. cbn [env count_call record_event]. rewrite Hfault.
  unfold throw. eexists. repeat split; reflexivity.
Qed.

Lemma retryWithBackoff_client_fault_once_witness :
  let w := sample_world punctual_env None in
  exists w',
    retryWithBackoff 3 (invoke always_bag_404) 1 w
      = Some (Throw (JObject {["status" := "404"]}), w')
    /\ events w' = events w ++ [EvInvoke (calls w)]
    /\ calls w' = S (calls w)
    /\ clock w' = clock w.
Proof.
  refine (retryWithBackoff_client_fault_once always_bag_404
            (sample_world punctual_env None) 2 1 (JObject {["status" := "404"]}) _ _ _).
  - reflexivity.
  - right. exists {["status" := "404"]}, "404", (inject_Z 404).
    split; [reflexivity|]. split; [reflexivity|]. split; [reflexivity|].
    split; [discriminate | reflexivity].
  - reflexivity.
Defined.

(** ** The request method, case by case *)

(** What one attempt leaves in the world, whatever its outcome. *)
Lemma attempt_once_counts url config w :
  exists r w', attempt_once url config w = Some (r, w')
    /\ this w' = this w /\ env w' = env w
    /\ fetches w' = S (fetches w)
    /\ events w' = events w ++ [EvFetch url (<["signal" := JSignal]> config)].
Proof.
  assert (exists r w', fetch url (<["signal" := JSignal]> config) w = Some (r, w')
            /\ this w' = this w /\ env w' = env w /\ fetches w' = S (fetches w)
            /\ events w' = events w ++ [EvFetch url (<["signal" := JSignal]> config)])
    as ([response|reason] & w' & Hfetch & Hthis & Henv & Hn & Hev).
  { unfold fetch. destruct (transport _ _ _ _) as [latency outcome].
    destruct (_ <? _); [|destruct outcome]; eexists _, _; repeat split; reflexivity. }
  all: unfold attempt_once, try_catch, mbind, M_bind, bind; rewrite Hfetch.
  - destruct (negb (ok response)).
    + unfold throw. destruct (catch_block_throws (JErr (http_error response)) w') as [r Hr].
      unfold http_error in Hr. rewrite Hr. by eexists _, _.
    + unfold lift. destruct (json response) as [v|reason].
      * by eexists _, _.
      * destruct (catch_block_throws reason w') as [r ->]. by eexists _, _.
  - destruct (catch_block_throws reason w') as [r ->]. by eexists _, _.
Qed.

(** With punctual timers a transport that answers within the timeout is
    not cut short. *)
Lemma fetch_in_time url init w latency outcome :
  punctual (env w) ->
  transport (env w) (fetches w) url init = (latency, outcome) ->
  latency <= timeout (this w) ->
  fetch url init w =
    Some (match outcome with
          | Resolves response => Normal response
          | Rejects reason => Throw reason
          end,
          set_clock (clock w + latency) (count_fetch (record_event (EvFetch url init) w))).
Proof.
  intros Hpunctual Htransport Hlat. unfold fetch. rewrite Htransport.
  specialize (Hpunctual (clock w) (inject_Z (timeout (this w)))).
  rewrite <- inject_Z_plus, <- Zle_Qle in Hpunctual.
  destruct (Z.ltb_spec (timer (env w) (clock w) (inject_Z (timeout (this w))))
              (clock w + latency)) as [Hlt|_]; [lia|].
  by destruct outcome.
Qed.

(** An attempt whose response is not ok fails with [http_error]. *)
Lemma attempt_once_http_error url config w latency response :
  punctual (env w) ->
  transport (env w) (fetches w) url (<["signal" := JSignal]> config)
    = (latency, Resolves response) ->
  latency <= timeout (this w) -> ok response = false ->
  attempt_once url config w =
    Some (Throw (JErr (http_error response)),
          set_clock (clock w + latency)
            (count_fetch (record_event
               (EvFetch url (<["signal" := JSignal]> config)) w))).
Proof.
  intros Hpunctual Htransport Hlat Hok.
  unfold attempt_once, try_catch, mbind, M_bind, bind.
  rewrite (fetch_in_time _ _ _ _ _ Hpunctual Htransport Hlat), Hok. reflexivity.
Qed.

(** An attempt whose response is ok returns what [response.json()] gives. *)
Lemma attempt_once_ok url config w latency response v :
  punctual (env w) ->
  transport (env w) (fetches w) url (<["signal" := JSignal]> config)
    = (latency, Resolves response) ->
  latency <= timeout (this w) -> ok response = true -> json response = Normal v ->
  attempt_once url config w =
    Some (Normal v,
          set_clock (clock w + latency)
            (count_fetch (record_event
               (EvFetch url (<["signal" := JSignal]> config)) w))).
Proof.
  intros Hpunctual Htransport Hlat Hok Hjson.
  unfold attempt_once, try_catch, mbind, M_bind, bind.
  rewrite (fetch_in_time _ _ _ _ _ Hpunctual Htransport Hlat), Hok, Hjson. reflexivity.
Qed.

(** An attempt cut short by the abort timer fails with [timeout_error]. *)
Lemma attempt_once_timeout url config w :
  timer (env w) (clock w) (inject_Z (timeout (this w)))
    < clock w + fst (transport (env w) (fetches w) url (<["signal" := JSignal]> config)) ->
  attempt_once url config w =
    Some (Throw (JErr (timeout_error (this w))),
          set_clock (timer (env w) (clock w) (inject_Z (timeout (this w))))
            (count_fetch (record_event
               (EvFetch url (<["signal" := JSignal]> config)) w))).
Proof.
  intros Hslow. unfold attempt_once, try_catch, mbind, M_bind, bind.
  rewrite (fetch_aborts_on_timeout _ _ _ Hslow). reflexivity.
Qed.

Section ClosureAlwaysFails.
  Variable url : string.
  Variable config : gmap string JsValue.
  Variable c0 : Client.
  Variable e0 : Env.
  Variable errs : nat -> Error.
  Hypothesis closure_fails :
    forall w, this w = c0 -> env w = e0 ->
      exists w1, attempt_once url config w = Some (Throw (JErr (errs (fetches w))), w1).
  Hypothesis closure_transient : forall k, is_client_error (status (errs k)) = false.

(** When every attempt of the closure fails with an error that is not 4xx,
    the attempts are used up. *)
Lemma retry_closure_exhausts (n : nat) :
  forall (a : Z) (w : World) (fuel : nat),
    this w = c0 -> env w = e0 ->
    maxRetries c0 = a + Z.of_nat n -> (n < fuel)%nat ->
    exists w' tr,
      retryWithBackoff fuel (attempt_once url config) a w =
        Some (Throw (JErr (new_Error
                ("Failed after " +:+ pretty (maxRetries c0) +:+ " attempts: "
                 +:+ message (errs (fetches w + n)%nat)))), w')
      /\ this w' = c0
      /\ fetches w' = (fetches w + S n)%nat
      /\ events w' = events w ++ tr
      /\ attempts_from url (<["signal" := JSignal]> config) (retryDelay c0) a tr
      /\ length (fetched tr) = S n
      /\ sleeps tr = backoff_delay (retryDelay c0) <$> seqZ a (Z.of_nat n).
Proof.
  induction n as [|n IH]; intros a w fuel Hthis Henv Hm Hfuel;
    (destruct fuel as [|fuel]; [lia|]);
    cbn [retryWithBackoff]; unfold try_catch at 1;
    destruct (closure_fails w Hthis Henv) as [w1 Hfail];
    destruct (attempt_once_counts url config w)
      as (r & w1' & Hrun & Hthis1 & Henv1 & Hn1 & Hev1);
    rewrite Hfail in Hrun; injection Hrun as <- <-; rewrite Hfail;
    unfold mbind at 1, M_bind at 1, bind at 1, get_this at 1; rewrite Hthis1, Hthis.
  - destruct (Z.leb_spec (maxRetries c0) a) as [_|]; [|lia].
    simpl. rewrite Nat.add_0_r.
    exists w1, [EvFetch url (<["signal" := JSignal]> config)].
    repeat split; auto; [congruence | lia | constructor].
  - destruct (Z.leb_spec (maxRetries c0) a) as [|_]; [lia|].
    unfold mbind at 1, M_bind at 1, bind at 1, status_test at 1, lift at 1.
    cbn [status_is_4xx]. rewrite closure_transient.
    unfold console_log, modify, sleep, mbind, M_bind, bind.
    cbn [env clock record_event].
    match goal with
    | |- context [retryWithBackoff fuel _ (a + 1) ?w2] =>
      destruct (IH (a + 1) w2 fuel)
        as (w' & tr & Hrun' & Hthis' & Hn' & Hev' & Htr & Hlen & Hsl);
        [cbn [this set_clock record_event]; congruence
        |cbn [env set_clock record_event]; congruence | lia | lia |]
    end.
    cbn [fetches events set_clock record_event] in Hrun', Hn', Hev'.
    exists w', (EvFetch url (<["signal" := JSignal]> config)
                :: EvConsoleLog a (backoff_delay (retryDelay c0) a)
                :: EvSleep (backoff_delay (retryDelay c0) a) :: tr).
    unfold backoff_delay in *. rewrite Hrun', Hn1.
    replace (S (fetches w) + n)%nat with (fetches w + S n)%nat by lia.
    repeat split; auto.
    + rewrite Hn', Hn1. lia.
    + rewrite Hev', Hev1, <- !app_assoc. reflexivity.
    + by constructor.
    + simpl. by rewrite Hlen.
    + rewrite Nat2Z.inj_succ, seqZ_cons by lia. simpl. rewrite Hsl.
      do 3 f_equal. lia.
Qed.
End ClosureAlwaysFails.

(** Whatever the transport does, the retried closure makes at most one
    attempt per attempt number up to [maxRetries]. *)
Lemma retry_attempts_bounded url config (d : nat) :
  forall (a : Z) (w : World) (fuel : nat),
    (Z.to_nat (maxRetries (this w) - a) <= d)%nat -> (d < fuel)%nat ->
    exists r w' tr n,
      retryWithBackoff fuel (attempt_once url config) a w = Some (r, w')
      /\ this w' = this w /\ env w' = env w
      /\ events w' = events w ++ tr
      /\ fetched tr = replicate (S n) (url, <["signal" := JSignal]> config)
      /\ sleeps tr = backoff_delay (retryDelay (this w)) <$> seqZ a (Z.of_nat n)
      /\ fetches w' = (fetches w + S n)%nat
      /\ (n <= d)%nat.
Proof.
  induction d as [|d IH]; intros a w fuel Hd Hfuel;
    (destruct fuel as [|fuel]; [lia|]);
    cbn [retryWithBackoff]; unfold try_catch at 1;
    destruct (attempt_once_counts url config w)
      as ([v|error] & w1 & -> & Hthis & Henv & Hn1 & Hev);
    try (exists (Normal v), w1, [EvFetch url (<["signal" := JSignal]> config)], 0%nat;
         repeat split; auto; lia);
    unfold mbind at 1, M_bind at 1, bind at 1, get_this at 1; rewrite Hthis.
  - destruct (Z.leb_spec (maxRetries (this w)) a) as [_|]; [|lia].
    unfold mbind, M_bind, bind, lift, throw.
    destruct (get_message error);
      eexists _, w1, [EvFetch url (<["signal" := JSignal]> config)], 0%nat;
      repeat split; eauto; lia.
  - destruct (Z.leb_spec (maxRetries (this w)) a) as [_|Hlt].
    + unfold mbind, M_bind, bind, lift, throw.
      destruct (get_message error);
        eexists _, w1, [EvFetch url (<["signal" := JSignal]> config)], 0%nat;
        repeat split; eauto; lia.
    + unfold mbind at 1, M_bind at 1, bind at 1, status_test at 1, lift at 1.
      destruct (status_is_4xx _ error) as [[|]|te];
        [unfold throw;
         eexists _, w1, [EvFetch url (<["signal" := JSignal]> config)], 0%nat;
         repeat split; eauto; lia|
        |eexists _, w1, [EvFetch url (<["signal" := JSignal]> config)], 0%nat;
          repeat split; eauto; lia].
      unfold console_log, modify, sleep, mbind, M_bind, bind.
      cbn [env clock record_event].
      match goal with
      | |- context [retryWithBackoff fuel _ (a + 1) ?w2] =>
        destruct (IH (a + 1) w2 fuel)
          as (r & w' & tr & n & Hrun & Hthis' & Henv' & Hev' & Hf & Hsl & Hn' & Hle);
          [cbn [this set_clock record_event]; rewrite Hthis; lia | lia |]
      end.
      cbn [this env events fetches set_clock record_event] in Hthis', Henv', Hev', Hsl, Hn'.
      exists r, w', (EvFetch url (<["signal" := JSignal]> config)
                  :: EvConsoleLog a (backoff_delay (retryDelay (this w)) a)
                  :: EvSleep (backoff_delay (retryDelay (this w)) a) :: tr), (S n).
      unfold backoff_delay in *. rewrite Hrun.
      repeat split; try congruence.
      * rewrite Hev', Hev, <- !app_assoc. reflexivity.
      * simpl. by rewrite Hf.
      * rewrite Nat2Z.inj_succ, seqZ_cons by lia. simpl. rewrite Hsl, Hthis.
        do 3 f_equal. lia.
      * rewrite Hn', Hn1. lia.
      * lia.
Qed.

(** C6: a transport attempt that ends in an abort (the timeout's
    cancellation) makes the closure of [request] fail with a fresh [Error]
    that has no status, hence none in [400, 500), so the test of line 46 is
    false on it; while attempts remain [retryWithBackoff] does not fail
    there: the call goes on with the log line and the backoff sleep
    [retryDelay * 2^(a-1)], then calls the closure again, which issues the
    next [fetch] of the same request, and ends after a sequence of such
    attempts. *)
Theorem request_timeout_is_retried
    (url : string) (config : gmap string JsValue) (reason : JsValue)
    (w w1 : World) (fuel : nat) (a : Z) :
  fetch url (<["signal" := JSignal]> config) w = Some (Throw reason, w1) ->
  get_name reason = Normal (Some "AbortError") ->
  a < maxRetries (this w) ->
  (retry_fuel (this w) a <= fuel)%nat ->
  let timeout_error :=
    new_Error ("Request timeout after " +:+ pretty (timeout (this w)) +:+ "ms") in
  let delay := backoff_delay (retryDelay (this w)) a in
  let init := <["signal" := JSignal]> config in
  attempt_once url config w = Some (Throw (JErr timeout_error), w1)
  /\ status timeout_error = None
  /\ is_client_error (status timeout_error) = false
  /\ status_is_4xx (StringToNumber (env w)) (JErr timeout_error) = Normal false
  /\ exists r w' tr,
       retryWithBackoff fuel (attempt_once url config) a w = Some (r, w')
       /\ events w' = events w1 ++ EvConsoleLog a delay :: EvSleep delay :: EvFetch url init :: tr
       /\ attempts_from url init (retryDelay (this w)) (a + 1) (EvFetch url init :: tr)
       /\ (fetches w1 < fetches w')%nat.
Proof.
  intros Hfetch Hname Ha Hfuel timeout_error delay init. unfold retry_fuel in Hfuel.
  pose proof (fetch_this _ _ _ _ _ Hfetch) as Hthis.
  assert (attempt_once url config w = Some (Throw (JErr timeout_error), w1)) as Hatt.
  { unfold attempt_once, try_catch, mbind, M_bind, bind. rewrite Hfetch.
    unfold catch_block, mbind, M_bind, bind, lift. rewrite Hname.
    rewrite decide_True by done. unfold get_this, throw. subst timeout_error.
    by rewrite Hthis. }
  split; [exact Hatt|]. split; [reflexivity|]. split; [reflexivity|].
  split; [reflexivity|].
  destruct fuel as [|fuel]; [lia|].
  cbn [retryWithBackoff]. unfold try_catch at 1. rewrite Hatt.
  unfold mbind at 1, M_bind at 1, bind at 1, get_this at 1. rewrite Hthis.
  destruct (Z.leb_spec (maxRetries (this w)) a) as [|_]; [lia|].
  unfold mbind at 1, M_bind at 1, bind at 1, status_test at 1, lift at 1.
  cbn [status_is_4xx timeout_error new_Error status is_client_error].
  unfold console_log, modify, sleep, mbind, M_bind, bind.
  cbn [env clock record_event].
  match goal with
  | |- context [retryWithBackoff fuel _ (a + 1) ?w2] =>
    destruct (retry_attempts_bounded url config (Z.to_nat (maxRetries (this w) - (a + 1)))
                (a + 1) w2 fuel)
      as (r & w' & tr & n & Hrun & _ & _ & Hev & _ & _ & Hn & _);
      [cbn [this set_clock record_event]; rewrite Hthis; lia | lia |];
    destruct (retry_attempts url config (Z.to_nat (maxRetries (this w) - (a + 1)))
                (a + 1) w2 fuel)
      as (r0 & w0 & tr0 & Hrun0 & _ & _ & Hev0 & Htr0);
      [cbn [this set_clock record_event]; rewrite Hthis; lia | lia |]
  end.
  rewrite Hrun in Hrun0. injection Hrun0 as <- <-.
  cbn [this events fetches set_clock record_event] in Hev, Hev0, Hn, Htr0.
  rewrite Hthis in Htr0.
  assert (exists tr', tr0 = EvFetch url init :: tr') as [tr' ->]
    by (inversion Htr0; eauto).
  exists r, w', tr'. rewrite Hrun. split; [reflexivity|].
  split; [|split; [exact Htr0 | lia]].
  rewrite Hev0, <- !app_assoc. reflexivity.
Qed.

Lemma request_timeout_is_retried_witness :
  let w := sample_world slow_env None in
  let w1 := set_clock 35000 (count_fetch (record_event
              (EvFetch "/users" (<["signal" := JSignal]> ∅)) w)) in
  let delay := backoff_delay (100 # 1) 1 in
  let init := <["signal" := JSignal]> ∅ in
  attempt_once "/users" ∅ w =
    Some (Throw (JErr (new_Error "Request timeout after 30000ms")), w1)
  /\ status (new_Error "Request timeout after 30000ms") = None
  /\ is_client_error (status (new_Error "Request timeout after 30000ms")) = false
  /\ status_is_4xx (StringToNumber (env w))
       (JErr (new_Error "Request timeout after 30000ms")) = Normal false
  /\ exists r w' tr,
       retryWithBackoff 3 (attempt_once "/users" ∅) 1 w = Some (r, w')
       /\ events w' = events w1 ++ EvConsoleLog 1 delay :: EvSleep delay
                                    :: EvFetch "/users" init :: tr
       /\ attempts_from "/users" init (100 # 1) (1 + 1) (EvFetch "/users" init :: tr)
       /\ (fetches w1 < fetches w')%nat.
Proof.
  apply (request_timeout_is_retried "/users" ∅ AbortError
           (sample_world slow_env None)
           (set_clock 35000 (count_fetch (record_event
              (EvFetch "/users" (<["signal" := JSignal]> ∅))
              (sample_world slow_env None))))
           3 1).
  - reflexivity.
  - reflexivity.
  - reflexivity.
  - vm_compute. lia.
Defined.

(** X9: however the transport behaves, one [request] calls [fetch] at
    least once and at most [max(1, maxRetries)] times, every time with the
    URL [baseURL + endpoint] and the same configuration, and between two
    calls it sleeps exactly the backoff delay [retryDelay * 2^(a-1)] of the
    attempt [a] that failed. *)
Theorem request_fetches_are_bounded
    (fuel : nat) (endpoint : string) (options : option (gmap string JsValue)) (w : World) :
  (retry_fuel (this w) 1 <= fuel)%nat ->
  exists w1 r w' tr n,
    enforceRateLimit w = Some (Normal tt, w1)
    /\ request fuel endpoint options w = Some (r, w')
    /\ events w' = events w1 ++ tr
    /\ fetched tr
       = replicate (S n) (baseURL (this w) +:+ endpoint,
                          <["signal" := JSignal]>
                            (request_config (this w1) (default ∅ options)))
    /\ Z.of_nat (S n) <= Z.max 1 (maxRetries (this w))
    /\ fetches w' = (fetches w + S n)%nat
    /\ sleeps tr = (fun a => (retryDelay (this w) * 2 ^ (a - 1))%Q) <$> seqZ 1 (Z.of_nat n).
Proof.
  intros Hfuel. unfold retry_fuel in Hfuel.
  destruct (enforceRateLimit_total w)
    as (w1 & gate & Hgate & _ & _ & _ & _ & Hfetches & Hthis1).
  assert (maxRetries (this w1) = maxRetries (this w)) as Hmax by (by rewrite Hthis1).
  assert (retryDelay (this w1) = retryDelay (this w)) as Hdelay by (by rewrite Hthis1).
  assert (baseURL (this w1) = baseURL (this w)) as Hbase by (by rewrite Hthis1).
  destruct (retry_attempts_bounded (baseURL (this w1) +:+ endpoint)
              (request_config (this w1) (default ∅ options))
              (Z.to_nat (maxRetries (this w1) - 1)) 1 w1 fuel)
    as (r & w' & tr & n & Hrun & _ & _ & Hev & Hf & Hsl & Hn & Hle);
    [lia | rewrite Hmax; lia |].
  exists w1, r, w', tr, n.
  unfold request, mbind, M_bind, bind. rewrite Hgate. unfold get_this.
  rewrite Hrun, <- Hbase, <- Hdelay, <- Hfetches.
  repeat split; auto. lia.
Qed.

Lemma request_fetches_are_bounded_witness :
  let w := sample_world slow_env (Some (2 # 1)) in
  exists w1 r w' tr n,
    enforceRateLimit w = Some (Normal tt, w1)
    /\ request 3 "/users" None w = Some (r, w')
    /\ events w' = events w1 ++ tr
    /\ fetched tr
       = replicate (S n) (baseURL (this w) +:+ "/users",
                          <["signal" := JSignal]>
                            (request_config (this w1) (default ∅ None)))
    /\ Z.of_nat (S n) <= Z.max 1 (maxRetries (this w))
    /\ fetches w' = (fetches w + S n)%nat
    /\ sleeps tr = (fun a => (retryDelay (this w) * 2 ^ (a - 1))%Q) <$> seqZ 1 (Z.of_nat n).
Proof.
  refine (request_fetches_are_bounded 3 "/users" None
            (sample_world slow_env (Some (2 # 1))) _).
  vm_compute. lia.
Defined.

(** The rate limiter leaves everything but [lastRequestTime] alone. *)
Lemma enforceRateLimit_frame w :
  exists w1,
    enforceRateLimit w = Some (Normal tt, w1)
    /\ env w1 = env w /\ fetches w1 = fetches w
    /\ baseURL (this w1) = baseURL (this w)
    /\ timeout (this w1) = timeout (this w)
    /\ maxRetries (this w1) = maxRetries (this w)
    /\ retryDelay (this w1) = retryDelay (this w).
Proof.
  destruct (enforceRateLimit_total w)
    as (w1 & gate & Hgate & _ & _ & _ & Henv & Hfetches & Hthis1).
  exists w1. by rewrite Hthis1.
Qed.

(** X10: when every response arrives in time and is a failure outside
    4xx (a 5xx, say), [request] calls [fetch] exactly [maxRetries] times and
    then throws a fresh error whose message is
    [Failed after <maxRetries> attempts: HTTP <status>: <statusText>], built
    from the last response; the thrown error carries no [status]. *)
Theorem request_server_errors_exhaust
    (fuel : nat) (endpoint : string) (options : option (gmap string JsValue)) (w : World)
    (latency : nat -> Z) (response : nat -> Response) :
  punctual (env w) ->
  (forall k url init, transport (env w) k url init = (latency k, Resolves (response k))) ->
  (forall k, latency k <= timeout (this w)) ->
  (forall k, ok (response k) = false) ->
  (forall k, resp_status (response k) < 400 \/ 500 <= resp_status (response k)) ->
  1 <= maxRetries (this w) ->
  (retry_fuel (this w) 1 <= fuel)%nat ->
  let m := maxRetries (this w) in
  let last := response (fetches w + Z.to_nat m - 1)%nat in
  exists w1 reason w' tr,
    enforceRateLimit w = Some (Normal tt, w1)
    /\ request fuel endpoint options w = Some (Throw reason, w')
    /\ reason = JErr (new_Error ("Failed after " +:+ pretty m +:+ " attempts: HTTP "
                                 +:+ pretty (resp_status last) +:+ ": " +:+ statusText last))
    /\ get_status reason = Normal None
    /\ events w' = events w1 ++ tr
    /\ length (fetched tr) = Z.to_nat m
    /\ fetches w' = (fetches w + Z.to_nat m)%nat
    /\ sleeps tr = (fun a => (retryDelay (this w) * 2 ^ (a - 1))%Q) <$> seqZ 1 (m - 1).
Proof.
  intros Hpunctual Htransport Hlat Hok Hstatus Hm Hfuel m last.
  unfold retry_fuel in Hfuel.
  destruct (enforceRateLimit_frame w)
    as (w1 & Hgate & Henv & Hfetches & Hbase & Htimeout & Hmax & Hdelay).
  destruct (retry_closure_exhausts (baseURL (this w1) +:+ endpoint)
              (request_config (this w1) (default ∅ options)) (this w1) (env w1)
              (fun k => http_error (response k))) with
      (n := Z.to_nat (m - 1)) (a := 1) (w := w1) (fuel := fuel)
    as (w' & tr & Hrun & _ & Hn & Hev & _ & Hlen & Hsl); auto.
  - intros w2 Hthis2 Henv2. eexists.
    apply attempt_once_http_error with (latency := latency (fetches w2)); auto.
    + by rewrite Henv2, Henv.
    + by rewrite Henv2, Henv.
    + rewrite Hthis2, Htimeout. apply Hlat.
  - intros k. simpl.
    destruct (Hstatus k); [rewrite (proj2 (Z.leb_gt _ _)) by lia
                          |rewrite (proj2 (Z.ltb_ge _ _)) by lia];
      by rewrite ?andb_false_r.
  - rewrite Hmax. subst m. lia.
  - eexists w1, _, w', tr.
    unfold request, mbind, M_bind, bind. rewrite Hgate. unfold get_this.
    rewrite Hrun. rewrite Hmax, Hfetches, Hdelay in *.
    replace (fetches w + Z.to_nat (m - 1))%nat with (fetches w + Z.to_nat m - 1)%nat
      by (subst m; lia).
    split; [reflexivity|]. split; [reflexivity|].
    split; [reflexivity|].
    split; [reflexivity|]. split; [assumption|].
    split; [subst m; lia|]. split; [subst m; lia|].
    rewrite Hsl. unfold backoff_delay. do 2 f_equal. subst m. lia.
Qed.

Lemma request_server_errors_exhaust_witness :
  let w := sample_world (answering_env unavailable) (Some (2 # 1)) in
  exists w1 reason w' tr,
    enforceRateLimit w = Some (Normal tt, w1)
    /\ request 3 "/users" None w = Some (Throw reason, w')
    /\ reason = JErr (new_Error ("Failed after " +:+ pretty 3 +:+ " attempts: HTTP "
                                 +:+ pretty 503 +:+ ": " +:+ "Service Unavailable"))
    /\ get_status reason = Normal None
    /\ events w' = events w1 ++ tr
    /\ length (fetched tr) = 3%nat
    /\ fetches w' = 3%nat
    /\ sleeps tr = (fun a => (retryDelay (this w) * 2 ^ (a - 1))%Q) <$> seqZ 1 2.
Proof.
  refine (request_server_errors_exhaust 3 "/users" None
            (sample_world (answering_env unavailable) (Some (2 # 1)))
            (fun _ => 0) (fun _ => unavailable) _ _ _ _ _ _ _).
  - apply punctual_env_punctual.
  - reflexivity.
  - intros k. vm_compute. discriminate.
  - reflexivity.
  - intros k. right. vm_compute. discriminate.
  - vm_compute. discriminate.
  - vm_compute. lia.
Defined.

(** X11: when the abort timer always fires before the transport settles,
    [request] calls [fetch] exactly [maxRetries] times and throws
    [Failed after <maxRetries> attempts: Request timeout after <timeout>ms];
    each attempt ends when its timer fires, and the backoff sleeps lie
    between the attempts. *)
Theorem request_timeouts_exhaust
    (fuel : nat) (endpoint : string) (options : option (gmap string JsValue)) (w : World) :
  (forall t k url init,
     timer (env w) t (inject_Z (timeout (this w))) < t + fst (transport (env w) k url init)) ->
  1 <= maxRetries (this w) ->
  (retry_fuel (this w) 1 <= fuel)%nat ->
  let m := maxRetries (this w) in
  exists w1 w' tr,
    enforceRateLimit w = Some (Normal tt, w1)
    /\ request fuel endpoint options w =
       Some (Throw (JErr (new_Error
               ("Failed after " +:+ pretty m +:+ " attempts: Request timeout after "
                +:+ pretty (timeout (this w)) +:+ "ms"))), w')
    /\ events w' = events w1 ++ tr
    /\ length (fetched tr) = Z.to_nat m
    /\ fetches w' = (fetches w + Z.to_nat m)%nat
    /\ sleeps tr = (fun a => (retryDelay (this w) * 2 ^ (a - 1))%Q) <$> seqZ 1 (m - 1).
Proof.
  intros Hslow Hm Hfuel m. unfold retry_fuel in Hfuel.
  destruct (enforceRateLimit_frame w)
    as (w1 & Hgate & Henv & Hfetches & Hbase & Htimeout & Hmax & Hdelay).
  destruct (retry_closure_exhausts (baseURL (this w1) +:+ endpoint)
              (request_config (this w1) (default ∅ options)) (this w1) (env w1)
              (fun _ => timeout_error (this w1))) with
      (n := Z.to_nat (m - 1)) (a := 1) (w := w1) (fuel := fuel)
    as (w' & tr & Hrun & _ & Hn & Hev & _ & Hlen & Hsl); auto.
  - intros w2 Hthis2 Henv2. eexists. rewrite <- Hthis2.
    apply attempt_once_timeout. rewrite Henv2, Henv, Hthis2, Htimeout. apply Hslow.
  - rewrite Hmax. subst m. lia.
  - exists w1, w', tr.
    unfold request, mbind, M_bind, bind. rewrite Hgate. unfold get_this.
    rewrite Hrun. rewrite Hmax, Hfetches, Hdelay in *.
    split; [reflexivity|].
    split; [unfold timeout_error; simpl; by rewrite Htimeout|].
    split; [assumption|].
    split; [subst m; lia|]. split; [subst m; lia|].
    rewrite Hsl. unfold backoff_delay. do 2 f_equal. subst m. lia.
Qed.

Lemma request_timeouts_exhaust_witness :
  let w := sample_world slow_env None in
  exists w1 w' tr,
    enforceRateLimit w = Some (Normal tt, w1)
    /\ request 3 "/users" None w =
       Some (Throw (JErr (new_Error
               ("Failed after " +:+ pretty 3 +:+ " attempts: Request timeout after "
                +:+ pretty 30000 +:+ "ms"))), w')
    /\ events w' = events w1 ++ tr
    /\ length (fetched tr) = 3%nat
    /\ fetches w' = 3%nat
    /\ sleeps tr = (fun a => (retryDelay (this w) * 2 ^ (a - 1))%Q) <$> seqZ 1 2.
Proof.
  refine (request_timeouts_exhaust 3 "/users" None (sample_world slow_env None) _ _ _).
  - intros t k url init. change (t + Qceiling (inject_Z 30000) < t + 60000).
    rewrite Qceiling_Z. lia.
  - vm_compute. discriminate.
  - vm_compute. lia.
Defined.

(** X12: when the first response arrives in time and is ok, [request]
    returns what [response.json()] gives after exactly one [fetch], to
    [baseURL + endpoint], without any backoff sleep, and the call takes the
    rate limiter's wait plus the transport's latency. *)
Theorem request_returns_parsed_body
    (fuel : nat) (endpoint : string) (options : option (gmap string JsValue)) (w : World)
    (latency : Z) (response : Response) (v : JsValue) :
  punctual (env w) ->
  (forall url init, transport (env w) (fetches w) url init = (latency, Resolves response)) ->
  latency <= timeout (this w) ->
  ok response = true -> json response = Normal v ->
  (1 <= fuel)%nat ->
  exists w1 w',
    enforceRateLimit w = Some (Normal tt, w1)
    /\ request fuel endpoint options w = Some (Normal v, w')
    /\ events w' = events w1 ++ [EvFetch (baseURL (this w) +:+ endpoint)
                                   (<["signal" := JSignal]>
                                      (request_config (this w1) (default ∅ options)))]
    /\ fetches w' = S (fetches w)
    /\ clock w' = clock w1 + latency
    /\ this w' = this w1.
Proof.
  intros Hpunctual Htransport Hlat Hok Hjson Hfuel.
  destruct fuel as [|fuel]; [lia|].
  destruct (enforceRateLimit_frame w)
    as (w1 & Hgate & Henv & Hfetches & Hbase & Htimeout & Hmax & Hdelay).
  exists w1. eexists.
  unfold request, mbind, M_bind, bind. rewrite Hgate. unfold get_this.
  cbn [retryWithBackoff]. unfold try_catch.
  rewrite (attempt_once_ok _ _ w1 latency response v);
    [|by rewrite Henv|by rewrite Henv, Hfetches|by rewrite Htimeout|done|done].
  rewrite Hbase. repeat split; auto. simpl. by rewrite Hfetches.
Qed.

Lemma request_returns_parsed_body_witness :
  let w := sample_world (answering_env created) (Some (2 # 1)) in
  exists w1 w',
    enforceRateLimit w = Some (Normal tt, w1)
    /\ request 1 "/users" None w = Some (Normal (JStr "{id: 7}"), w')
    /\ events w' = events w1 ++ [EvFetch (baseURL (this w) +:+ "/users")
                                   (<["signal" := JSignal]>
                                      (request_config (this w1) (default ∅ None)))]
    /\ fetches w' = S (fetches w)
    /\ clock w' = clock w1 + 0
    /\ this w' = this w1.
Proof.
  refine (request_returns_parsed_body 1 "/users" None
            (sample_world (answering_env created) (Some (2 # 1)))
            0 created (JStr "{id: 7}") _ _ _ _ _ _).
  - apply punctual_env_punctual.
  - reflexivity.
  - vm_compute. discriminate.
  - reflexivity.
  - reflexivity.
  - lia.
Defined.

(** X13: when the first response arrives in time with a status in
    [400, 500), [request] stops after exactly one [fetch] and no backoff
    sleep.  With [maxRetries > 1] the caller gets the error
    [HTTP <status>: <statusText>] with its [status]; with [maxRetries <= 1]
    it gets the wrapped [Failed after ...] error, which has no [status]. *)
Theorem request_client_error_stops
    (fuel : nat) (endpoint : string) (options : option (gmap string JsValue)) (w : World)
    (latency : Z) (response : Response) :
  punctual (env w) ->
  (forall url init, transport (env w) (fetches w) url init = (latency, Resolves response)) ->
  latency <= timeout (this w) ->
  ok response = false ->
  400 <= resp_status response < 500 ->
  (1 <= fuel)%nat ->
  let m := maxRetries (this w) in
  let http := "HTTP " +:+ pretty (resp_status response) +:+ ": " +:+ statusText response in
  exists w1 reason w',
    enforceRateLimit w = Some (Normal tt, w1)
    /\ request fuel endpoint options w = Some (Throw reason, w')
    /\ reason = (if m <=? 1
                 then JErr (new_Error ("Failed after " +:+ pretty m +:+ " attempts: " +:+ http))
                 else JErr {| name := "Error"; message := http;
                              status := Some (resp_status response) |})
    /\ get_status reason = Normal (if m <=? 1 then None else Some (resp_status response))
    /\ events w' = events w1 ++ [EvFetch (baseURL (this w) +:+ endpoint)
                                   (<["signal" := JSignal]>
                                      (request_config (this w1) (default ∅ options)))]
    /\ fetches w' = S (fetches w).
Proof.
  intros Hpunctual Htransport Hlat Hok Hstatus Hfuel m http.
  destruct fuel as [|fuel]; [lia|].
  destruct (enforceRateLimit_frame w)
    as (w1 & Hgate & Henv & Hfetches & Hbase & Htimeout & Hmax & Hdelay).
  assert (attempt_once (baseURL (this w1) +:+ endpoint)
            (request_config (this w1) (default ∅ options)) w1
          = Some (Throw (JErr (http_error response)),
                  set_clock (clock w1 + latency)
                    (count_fetch (record_event
                       (EvFetch (baseURL (this w1) +:+ endpoint)
                          (<["signal" := JSignal]>
                             (request_config (this w1) (default ∅ options)))) w1))))
    as Hattempt.
  { apply attempt_once_http_error; auto.
    - by rewrite Henv.
    - by rewrite Henv, Hfetches.
    - by rewrite Htimeout. }
  exists w1.
  unfold request, mbind at 1 2, M_bind at 1 2, bind at 1 2. rewrite Hgate.
  unfold get_this at 1.
  cbn [retryWithBackoff]. unfold try_catch at 1. rewrite Hattempt.
  unfold mbind at 1, M_bind at 1, bind at 1, get_this at 1.
  cbn [this set_clock count_fetch record_event]. rewrite Hmax. fold m.
  destruct (Z.leb_spec m 1) as [Hle|Hgt].
  - unfold mbind, M_bind, bind, lift, throw. cbn [get_message http_error message].
    eexists _, _. rewrite Hbase.
    split; [reflexivity|]. split; [reflexivity|]. split; [reflexivity|].
    split; [reflexivity|]. split; [reflexivity|]. simpl. by rewrite Hfetches.
  - unfold mbind, M_bind, bind, status_test, lift, throw.
    cbn [status_is_4xx http_error status is_client_error].
    rewrite (proj2 (Z.leb_le 400 _)), (proj2 (Z.ltb_lt _ 500)) by lia.
    cbn [andb]. eexists _, _. rewrite Hbase.
    split; [reflexivity|]. split; [reflexivity|]. split; [reflexivity|].
    split; [reflexivity|]. split; [reflexivity|]. simpl. by rewrite Hfetches.
Qed.

Lemma request_client_error_stops_witness :
  let w := sample_world (answering_env unauthorized) None in
  let http := "HTTP " +:+ pretty 401 +:+ ": " +:+ "Unauthorized" in
  exists w1 reason w',
    enforceRateLimit w = Some (Normal tt, w1)
    /\ request 1 "/users" None w = Some (Throw reason, w')
    /\ reason = (if 3 <=? 1
                 then JErr (new_Error ("Failed after " +:+ pretty 3 +:+ " attempts: " +:+ http))
                 else JErr {| name := "Error"; message := http; status := Some 401 |})
    /\ get_status reason = Normal (if 3 <=? 1 then None else Some 401)
    /\ events w' = events w1 ++ [EvFetch (baseURL (this w) +:+ "/users")
                                   (<["signal" := JSignal]>
                                      (request_config (this w1) (default ∅ None)))]
    /\ fetches w' = S (fetches w).
Proof.
  refine (request_client_error_stops 1 "/users" None
            (sample_world (answering_env unauthorized) None)
            0 unauthorized _ _ _ _ _ _).
  - apply punctual_env_punctual.
  - reflexivity.
  - vm_compute. discriminate.
  - reflexivity.
  - simpl. lia.
  - lia.
Defined.

(** An attempt whose ok response has a body that [response.json()] rejects
    fails with that rejection. *)
Lemma attempt_once_bad_body url config w latency response (e : Error) :
  punctual (env w) ->
  transport (env w) (fetches w) url (<["signal" := JSignal]> config)
    = (latency, Resolves response) ->
  latency <= timeout (this w) -> ok response = true ->
  json response = Throw (JErr e) -> name e <> "AbortError" ->
  attempt_once url config w =
    Some (Throw (JErr e),
          set_clock (clock w + latency)
            (count_fetch (record_event
               (EvFetch url (<["signal" := JSignal]> config)) w))).
Proof.
  intros Hpunctual Htransport Hlat Hok Hjson Hname.
  unfold attempt_once, try_catch, mbind, M_bind, bind.
  rewrite (fetch_in_time _ _ _ _ _ Hpunctual Htransport Hlat), Hok, Hjson.
  unfold lift, catch_block, mbind, M_bind, bind, lift. cbn [get_name negb].
  rewrite decide_False by congruence. reflexivity.
Qed.

(** X14: an ok response whose body [response.json()] cannot parse (a
    [204 No Content], say) counts as a failed attempt: when every response
    is like that, [request] sends the request [maxRetries] times and then
    throws [Failed after <maxRetries> attempts: <message of the last parse
    error>]. *)
Theorem request_unparsable_body_is_resent
    (fuel : nat) (endpoint : string) (options : option (gmap string JsValue)) (w : World)
    (latency : nat -> Z) (response : nat -> Response) (e : nat -> Error) :
  punctual (env w) ->
  (forall k url init, transport (env w) k url init = (latency k, Resolves (response k))) ->
  (forall k, latency k <= timeout (this w)) ->
  (forall k, ok (response k) = true) ->
  (forall k, json (response k) = Throw (JErr (e k))) ->
  (forall k, name (e k) <> "AbortError") ->
  (forall k, is_client_error (status (e k)) = false) ->
  1 <= maxRetries (this w) ->
  (retry_fuel (this w) 1 <= fuel)%nat ->
  let m := maxRetries (this w) in
  exists w1 w' tr,
    enforceRateLimit w = Some (Normal tt, w1)
    /\ request fuel endpoint options w =
       Some (Throw (JErr (new_Error
               ("Failed after " +:+ pretty m +:+ " attempts: "
                +:+ message (e (fetches w + Z.to_nat m - 1)%nat)))), w')
    /\ events w' = events w1 ++ tr
    /\ fetched tr
       = replicate (Z.to_nat m)
           (baseURL (this w) +:+ endpoint,
            <["signal" := JSignal]> (request_config (this w1) (default ∅ options)))
    /\ fetches w' = (fetches w + Z.to_nat m)%nat.
Proof.
  intros Hpunctual Htransport Hlat Hok Hjson Hname Hstatus Hm Hfuel m.
  unfold retry_fuel in Hfuel.
  destruct (enforceRateLimit_frame w)
    as (w1 & Hgate & Henv & Hfetches & Hbase & Htimeout & Hmax & Hdelay).
  destruct (retry_closure_exhausts (baseURL (this w1) +:+ endpoint)
              (request_config (this w1) (default ∅ options)) (this w1) (env w1) e) with
      (n := Z.to_nat (m - 1)) (a := 1) (w := w1) (fuel := fuel)
    as (w' & tr & Hrun & _ & Hn & Hev & Htr & Hlen & _); auto.
  - intros w2 Hthis2 Henv2. eexists.
    apply attempt_once_bad_body with (latency := latency (fetches w2))
                                     (response := response (fetches w2)); auto.
    + by rewrite Henv2, Henv.
    + by rewrite Henv2, Henv.
    + rewrite Hthis2, Htimeout. apply Hlat.
  - rewrite Hmax. subst m. lia.
  - exists w1, w', tr.
    unfold request, mbind, M_bind, bind. rewrite Hgate. unfold get_this.
    rewrite Hrun. rewrite Hmax, Hfetches in *.
    replace (fetches w + Z.to_nat (m - 1))%nat with (fetches w + Z.to_nat m - 1)%nat
      by (subst m; lia).
    split; [reflexivity|]. split; [reflexivity|]. split; [assumption|].
    split; [|subst m; lia].
    apply attempts_from_fetched in Htr as [_ Hall]. rewrite <- Hbase.
    symmetry. apply replicate_as_Forall. split; [subst m; lia|].
    eapply Forall_impl; [exact Hall|]. by intros x ->.
Qed.

Lemma request_unparsable_body_is_resent_witness :
  let w := sample_world (answering_env no_content) None in
  exists w1 w' tr,
    enforceRateLimit w = Some (Normal tt, w1)
    /\ request 3 "/users/7" (Some {["method" := JStr "DELETE"]}) w =
       Some (Throw (JErr (new_Error
               ("Failed after " +:+ pretty 3 +:+ " attempts: "
                +:+ "Unexpected end of JSON input"))), w')
    /\ events w' = events w1 ++ tr
    /\ fetched tr
       = replicate 3
           (baseURL (this w) +:+ "/users/7",
            <["signal" := JSignal]>
              (request_config (this w1) (default ∅ (Some {["method" := JStr "DELETE"]}))))
    /\ fetches w' = 3%nat.
Proof.
  refine (request_unparsable_body_is_resent 3 "/users/7" (Some {["method" := JStr "DELETE"]})
            (sample_world (answering_env no_content) None)
            (fun _ => 0) (fun _ => no_content) (fun _ => empty_body_error)
            _ _ _ _ _ _ _ _ _).
  - apply punctual_env_punctual.
  - reflexivity.
  - intros k. vm_compute. discriminate.
  - reflexivity.
  - reflexivity.
  - intros k. discriminate.
  - reflexivity.
  - vm_compute. discriminate.
  - vm_compute. lia.
Defined.

(** ** The convenience methods on the wire *)

Lemma request_config_with_headers (c : Client) (fields : gmap string JsValue) (h : JsValue) :
  fields !! "timeout" = None ->
  request_config c (<["headers" := h]> fields)
  = <["timeout" := JNum (inject_Z (timeout c))]> (<["headers" := h]> fields).
Proof.
  intros Hfields. unfold request_config. generalize (JObject
    (spread (<["headers" := h]> fields !! "headers") ∪ defaultHeaders c
     ∪ {["Content-Type" := "application/json"]})). intros merged.
  apply map_eq. intros k.
  destruct (decide (k = "headers")) as [->|Hh].
  - rewrite lookup_insert_ne by done.
    erewrite lookup_union_Some_l; [|apply lookup_insert_eq]. by rewrite lookup_insert_eq.
  - destruct (decide (k = "timeout")) as [->|Ht].
    + rewrite lookup_insert_eq, lookup_union_r by (by rewrite lookup_insert_ne).
      rewrite lookup_insert_ne by done. apply lookup_insert_eq.
    + rewrite lookup_insert_ne by done.
      destruct ((<["headers" := h]> fields) !! k) as [v|] eqn:Hk.
      * by apply lookup_union_Some_l.
      * rewrite lookup_union_r by done. rewrite lookup_insert_ne by done.
        by rewrite lookup_singleton_ne.
Qed.

Lemma request_fetches_only fuel endpoint (fields : gmap string JsValue) headers w :
  fields !! "timeout" = None ->
  (retry_fuel (this w) 1 <= fuel)%nat ->
  fetches_only
    (request fuel endpoint (Some (<["headers" := headers_param headers]> fields))) w
    (baseURL (this w) +:+ endpoint, wire_init (this w) fields headers).
Proof.
  intros Hfields Hfuel.
  destruct (request_trace fuel endpoint
              (Some (<["headers" := headers_param headers]> fields)) w Hfuel)
    as (w1 & gate & r & w' & tr & Hgate1 & Hrun & _ & Hev & Hgate & _ & Htr & _).
  destruct (enforceRateLimit_frame w) as (w1' & Hgate1' & _ & _ & _ & Htimeout & _).
  rewrite Hgate1 in Hgate1'. injection Hgate1' as <-.
  exists r, w', (EvEnforceRateLimit :: gate ++ tr).
  destruct (attempts_from_fetched _ _ _ _ _ Htr) as [Hne Hall].
  split; [exact Hrun|]. split; [exact Hev|].
  simpl. rewrite fetched_app, Hgate. simpl. split; [exact Hne|].
  eapply Forall_impl; [exact Hall|]. intros x ->. unfold wire_init.
  simpl. by rewrite request_config_with_headers, Htimeout.
Qed.

(** X15: what the convenience methods put on the wire.  Every [fetch] of
    [get], [post], [put] and [delete] goes to [baseURL + endpoint] with an
    [init] object that holds exactly: the method name, for [post] and [put]
    the body [JSON.stringify(data)] (a string, or [undefined] when [data]
    is), the [headers] argument, the client's [timeout] and the abort
    signal; a retry sends the same again. *)
Theorem convenience_methods_on_the_wire (fuel : nat) (endpoint : string) (w : World) :
  (retry_fuel (this w) 1 <= fuel)%nat ->
  let url := baseURL (this w) +:+ endpoint in
  let body data := stringify (env w) data in
  (forall headers,
      fetches_only (get fuel endpoint headers) w
        (url, wire_init (this w) {["method" := JStr "GET"]} headers))
  /\ (forall data headers,
        fetches_only (post fuel endpoint data headers) w
          (url, wire_init (this w)
                  (<["body" := body data]> {["method" := JStr "POST"]}) headers))
  /\ (forall data headers,
        fetches_only (put fuel endpoint data headers) w
          (url, wire_init (this w)
                  (<["body" := body data]> {["method" := JStr "PUT"]}) headers))
  /\ (forall headers,
        fetches_only (delete fuel endpoint headers) w
          (url, wire_init (this w) {["method" := JStr "DELETE"]} headers)).
Proof.
  intros Hfuel url body.
  split; [|split; [|split]].
  - intros headers. unfold get. by apply request_fetches_only.
  - intros data headers.
    destruct (request_fetches_only fuel endpoint
                (<["body" := body data]> {["method" := JStr "POST"]}) headers w)
      as (r & w' & tr & Hrun & Hrest); [done | assumption |].
    exists r, w', tr. split; [exact Hrun | exact Hrest].
  - intros data headers.
    destruct (request_fetches_only fuel endpoint
                (<["body" := body data]> {["method" := JStr "PUT"]}) headers w)
      as (r & w' & tr & Hrun & Hrest); [done | assumption |].
    exists r, w', tr. split; [exact Hrun | exact Hrest].
  - intros headers. unfold delete. by apply request_fetches_only.
Qed.

Lemma convenience_methods_on_the_wire_witness :
  let w := sample_world punctual_env None in
  let url := baseURL (this w) +:+ "/users" in
  let body data := stringify (env w) data in
  (forall headers,
      fetches_only (get 3 "/users" headers) w
        (url, wire_init (this w) {["method" := JStr "GET"]} headers))
  /\ (forall data headers,
        fetches_only (post 3 "/users" data headers) w
          (url, wire_init (this w)
                  (<["body" := body data]> {["method" := JStr "POST"]}) headers))
  /\ (forall data headers,
        fetches_only (put 3 "/users" data headers) w
          (url, wire_init (this w)
                  (<["body" := body data]> {["method" := JStr "PUT"]}) headers))
  /\ (forall headers,
        fetches_only (delete 3 "/users" headers) w
          (url, wire_init (this w) {["method" := JStr "DELETE"]} headers)).
Proof.
  refine (convenience_methods_on_the_wire 3 "/users" (sample_world punctual_env None) _).
  vm_compute. lia.
Defined.

(** ** What a batch returns, in closed form *)

Lemma array_set_no_trailing_hole (a : JsArray) (i : nat) (v : JsValue) :
  last a <> Some None -> last (array_set a i v) <> Some None.
Proof.
  intros Ha. unfold array_set. case_decide as Hi.
  - rewrite last_lookup, length_insert.
    destruct (decide (i = pred (length a))) as [->|Hne].
    + by rewrite list_lookup_insert_eq by lia.
    + rewrite list_lookup_insert_ne by done. by rewrite <- last_lookup.
  - by rewrite app_assoc, last_snoc.
Qed.

Lemma foldl_record_outcome_results (P : JsArray -> Prop) :
  (forall a i v, P a -> P (array_set a i v)) ->
  forall rs st, P (results st) -> P (results (foldl record_outcome st rs)).
Proof.
  intros Hset. induction rs as [|r rs IH]; intros st Hst; [done|].
  simpl. apply IH. unfold record_outcome. destruct (truthy (error r)); simpl; auto.
Qed.

(** A property of [results] that every assignment keeps holds when the
    loop ends. *)
Lemma batch_loop_results (P : JsArray -> Prop) settle_order items processor c :
  (forall a i v, P a -> P (array_set a i v)) ->
  forall fuel i st st',
    P (results st) ->
    batch_loop fuel settle_order items processor c i st = Some (Normal st') ->
    P (results st').
Proof.
  intros Hset. induction fuel as [|fuel IH]; intros i st st' Hst Hrun; [done|].
  cbn [batch_loop] in Hrun. case_decide.
  - destruct (Promise_all _) as [rs|reason]; [|done].
    eapply IH; [|exact Hrun]. by apply foldl_record_outcome_results.
  - by injection Hrun as <-.
Qed.

Lemma trim_holes_id (a : JsArray) : last a <> Some None -> trim_holes a = a.
Proof.
  induction a as [|x a IH]; [done|]. intros Hlast. simpl.
  destruct a as [|y a].
  - simpl in *. destruct x; [done|]. by destruct Hlast.
  - rewrite IH by done. by destruct x.
Qed.

Lemma trim_holes_all_holes (a : JsArray) :
  (forall j, array_get a j = None) -> trim_holes a = [].
Proof.
  induction a as [|x a IH]; [done|]. intros Hall. simpl.
  rewrite IH by (intros j; apply (Hall (S j))).
  by rewrite (Hall 0%nat : x = None).
Qed.

Lemma trim_holes_ext (a : JsArray) :
  forall b : JsArray, (forall j, array_get a j = array_get b j) ->
                      trim_holes a = trim_holes b.
Proof.
  induction a as [|x a IH]; intros b Hab.
  - symmetry. apply trim_holes_all_holes. intros j. by rewrite <- Hab.
  - destruct b as [|y b].
    + apply trim_holes_all_holes. intros j. by rewrite Hab.
    + simpl. rewrite (IH b) by (intros j; apply (Hab (S j))).
      by rewrite (Hab 0%nat : x = y).
Qed.

Lemma trim_holes_filled (a : JsArray) :
  filter is_Some (trim_holes a) = filter is_Some a.
Proof.
  induction a as [|x a IH]; [done|]. simpl.
  assert (filter is_Some (x :: trim_holes a) = filter is_Some (x :: a)) as Hcons.
  { destruct x as [v|].
    - rewrite !filter_cons_True by done. by rewrite IH.
    - rewrite !filter_cons_False by (by intros [? ?]). exact IH. }
  destruct (trim_holes a) as [|y t], x as [v|]; exact Hcons.
Qed.

Lemma trim_holes_snoc (a : JsArray) (v : JsValue) (b : JsArray) :
  trim_holes b = [] -> trim_holes (a ++ Some v :: b) = a ++ [Some v].
Proof.
  intros Hb. induction a as [|x a IH]; simpl.
  - by rewrite Hb.
  - rewrite IH. by destruct a, x.
Qed.

Lemma batchProcess_closed settle_order (items : list JsValue) processor concurrency fuel :
  (1 <= default 5%nat concurrency)%nat -> (length items < fuel)%nat ->
  exists st,
    batchProcess fuel settle_order items processor concurrency = Some (Normal st)
    /\ results st = trim_holes (slot processor <$> items)
    /\ errors st = item_errors processor 0 items.
Proof.
  intros Hc Hfuel.
  destruct (batchProcess_spec settle_order items processor concurrency fuel Hc Hfuel)
    as (st & Hrun & He & Hr & _).
  exists st. split; [exact Hrun|]. split; [|exact He].
  rewrite <- (trim_holes_id (results st)).
  - apply trim_holes_ext. intros j. rewrite Hr. unfold result_from, array_get, slot.
    rewrite decide_True by lia. rewrite list_lookup_fmap. by destruct (items !! j).
  - eapply (batch_loop_results (fun a => last a <> Some None)); [|..|exact Hrun]; [|done].
    intros a i v. apply array_set_no_trailing_hole.
Qed.

(** X16: the object that [batchProcess] returns does not depend on the
    window size or on the order in which the operations of a window settle:
    with any positive [concurrency], [results] is the input mapped item by
    item (the value, [null] for a failure with a falsy reason, a hole for
    any other failure) without the holes at the end, and [errors] lists the
    failures with a truthy reason from the first item to the last. *)
Theorem batchProcess_window_size_is_irrelevant
    settle_order settle_order' (items : list JsValue) processor concurrency concurrency'
    fuel fuel' :
  (1 <= default 5%nat concurrency)%nat -> (length items < fuel)%nat ->
  (1 <= default 5%nat concurrency')%nat -> (length items < fuel')%nat ->
  returned (batchProcess fuel settle_order items processor concurrency)
  = Some (Normal (trim_holes (slot processor <$> items), item_errors processor 0 items))
  /\ returned (batchProcess fuel' settle_order' items processor concurrency')
     = returned (batchProcess fuel settle_order items processor concurrency).
Proof.
  intros Hc Hfuel Hc' Hfuel'.
  destruct (batchProcess_closed settle_order items processor concurrency fuel Hc Hfuel)
    as (st & -> & Hr & He).
  destruct (batchProcess_closed settle_order' items processor concurrency' fuel' Hc' Hfuel')
    as (st' & -> & Hr' & He').
  simpl. by rewrite Hr, He, Hr', He'.
Qed.

Lemma batchProcess_window_size_is_irrelevant_witness :
  returned (batchProcess 5 id four_letters fails_on_B_and_D (Some 2%nat))
  = Some (Normal (trim_holes (slot fails_on_B_and_D <$> four_letters),
                  item_errors fails_on_B_and_D 0 four_letters))
  /\ returned (batchProcess 9 reverse four_letters fails_on_B_and_D None)
     = returned (batchProcess 5 id four_letters fails_on_B_and_D (Some 2%nat)).
Proof.
  apply (batchProcess_window_size_is_irrelevant id reverse four_letters fails_on_B_and_D
           (Some 2%nat) None 5 9); simpl; lia.
Defined.

Lemma slot_hole processor item : slot processor item = None <-> fails_loudly processor item.
Proof.
  unfold slot, item_result, fails_loudly. split.
  - destruct (processor item) as [r|e]; [done|].
    destruct (truthy e) eqn:He; [|done]. by exists e.
  - intros (e & -> & ->). done.
Qed.

Lemma trim_holes_length (a : JsArray) : (length (trim_holes a) <= length a)%nat.
Proof.
  induction a as [|x a IH]; [done|]. simpl.
  destruct (trim_holes a), x; simpl in *; lia.
Qed.

Lemma item_errors_accounting processor (l : list JsValue) :
  forall k,
    (length (item_errors processor k l) + length (filter is_Some (slot processor <$> l))
     = length l)%nat.
Proof.
  induction l as [|x l IH]; intros k; [done|].
  specialize (IH (S k)). cbn [item_errors]. rewrite fmap_cons, length_app.
  unfold item_error, slot at 1, item_result.
  destruct (processor x) as [r|e]; [|destruct (truthy e)].
  - rewrite filter_cons_True by done. cbn [length]. lia.
  - rewrite filter_cons_False by (by intros [? ?]). cbn [length]. lia.
  - rewrite filter_cons_True by done. cbn [length]. lia.
Qed.

(** X17: what [results.length] and [errors.length] count.  Every item is
    accounted for once: the entries of [errors] and the filled positions of
    [results] add up to the number of items.  But the length of [results] is
    the position after the last item that did not fail with a truthy reason,
    so failures before that item are counted in it and it is [0] when every
    item fails that way. *)
Theorem batchProcess_results_length settle_order (items : list JsValue) processor
    concurrency fuel :
  (1 <= default 5%nat concurrency)%nat -> (length items < fuel)%nat ->
  exists st,
    batchProcess fuel settle_order items processor concurrency = Some (Normal st)
    /\ (length (errors st) + length (filter is_Some (results st)) = length items)%nat
    /\ (length (results st) <= length items)%nat
    /\ (forall before item after,
          items = before ++ item :: after ->
          ~ fails_loudly processor item ->
          Forall (fails_loudly processor) after ->
          length (results st) = S (length before))
    /\ (Forall (fails_loudly processor) items ->
          results st = [] /\ length (errors st) = length items).
Proof.
  intros Hc Hfuel.
  destruct (batchProcess_closed settle_order items processor concurrency fuel Hc Hfuel)
    as (st & Hrun & Hr & He).
  assert (forall l, Forall (fails_loudly processor) l ->
                    trim_holes (slot processor <$> l) = []) as Hholes.
  { intros l Hl. apply trim_holes_all_holes. intros j. unfold array_get.
    rewrite list_lookup_fmap. destruct (l !! j) as [x|] eqn:Hx; [|done]. simpl.
    apply slot_hole. by eapply Forall_lookup_1. }
  pose proof (item_errors_accounting processor items 0) as Hcount.
  exists st. split; [exact Hrun|]. rewrite Hr, He. split; [|split; [|split]].
  - by rewrite trim_holes_filled.
  - etrans; [apply trim_holes_length|]. by rewrite length_fmap.
  - intros before item after -> Hitem Hafter.
    destruct (slot processor item) as [v|] eqn:Hv; [|by apply slot_hole in Hv].
    rewrite fmap_app, fmap_cons, Hv, trim_holes_snoc by auto.
    rewrite length_app, length_fmap. simpl. lia.
  - intros Hall. rewrite <- trim_holes_filled, Hholes in Hcount by done.
    rewrite Hholes by done. simpl in Hcount. split; [done | lia].
Qed.

Lemma batchProcess_results_length_witness :
  returned (batchProcess 5 id four_letters fails_on_B_and_D (Some 2%nat))
  = Some (Normal ([Some (JStr "A"); Some JNull; Some (JStr "C")],
                  [{| err_index := 3; err_error := JErr (new_Error "bad") |}]))
  /\ exists st,
    batchProcess 5 id four_letters fails_on_B_and_D (Some 2%nat) = Some (Normal st)
    /\ (length (errors st) + length (filter is_Some (results st)) = 4)%nat
    /\ (length (results st) <= 4)%nat
    /\ (forall before item after,
          four_letters = before ++ item :: after ->
          ~ fails_loudly fails_on_B_and_D item ->
          Forall (fails_loudly fails_on_B_and_D) after ->
          length (results st) = S (length before))
    /\ (Forall (fails_loudly fails_on_B_and_D) four_letters ->
          results st = [] /\ length (errors st) = 4%nat).
Proof.
  split; [vm_compute; reflexivity|].
  apply (batchProcess_results_length id four_letters fails_on_B_and_D (Some 2%nat) 5);
    simpl; lia.
Defined.

Lemma item_errors_from processor (l : list JsValue) :
  forall k, Forall (fun x => k <= err_index x)%nat (item_errors processor k l).
Proof.
  induction l as [|x l IH]; intros k; simpl; [constructor|].
  apply Forall_app. split.
  - unfold item_error. destruct (processor x) as [r|e]; [constructor|].
    destruct (truthy e); repeat constructor.
  - eapply Forall_impl; [apply (IH (S k))|]. simpl. lia.
Qed.

(** X18: [errors] comes out in input order: the indices of its entries
    increase strictly from one entry to the next, whatever the window size
    and the order in which the operations settle, and each index is a
    position of the input. *)
Theorem batchProcess_errors_in_input_order settle_order (items : list JsValue) processor
    concurrency fuel :
  (1 <= default 5%nat concurrency)%nat -> (length items < fuel)%nat ->
  exists st,
    batchProcess fuel settle_order items processor concurrency = Some (Normal st)
    /\ StronglySorted lt (err_index <$> errors st)
    /\ Forall (fun i => i < length items)%nat (err_index <$> errors st).
Proof.
  intros Hc Hfuel.
  destruct (batchProcess_closed settle_order items processor concurrency fuel Hc Hfuel)
    as (st & Hrun & _ & He).
  exists st. split; [exact Hrun|]. rewrite He. clear.
  assert (forall l k,
             StronglySorted lt (err_index <$> item_errors processor k l)
             /\ Forall (fun i => i < k + length l)%nat
                  (err_index <$> item_errors processor k l)) as Hsorted.
  { induction l as [|x l IH]; intros k; simpl; [split; constructor|].
    destruct (IH (S k)) as [Hs Hb].
    assert (Forall (fun i => i < k + S (length l))%nat
              (err_index <$> item_errors processor (S k) l)) as Hb'.
    { eapply Forall_impl; [exact Hb|]. simpl. lia. }
    unfold item_error. destruct (processor x) as [r|e]; [done|].
    destruct (truthy e); [|done]. simpl. split.
    - constructor; [exact Hs|].
      apply Forall_fmap. eapply Forall_impl; [apply item_errors_from|]. simpl. lia.
    - constructor; [lia | exact Hb']. }
  apply (Hsorted items 0%nat).
Qed.

Lemma batchProcess_errors_in_input_order_witness :
  exists st,
    batchProcess 5 reverse four_letters fails_on_B_and_D (Some 2%nat) = Some (Normal st)
    /\ StronglySorted lt (err_index <$> errors st)
    /\ Forall (fun i => i < length four_letters)%nat (err_index <$> errors st).
Proof.
  apply (batchProcess_errors_in_input_order reverse four_letters fails_on_B_and_D
           (Some 2%nat) 5); simpl; lia.
Defined.

(** ** Pacing *)

(** One awaited call under punctual timers: it returns no earlier than
    the minimum interval after the last stamp. *)
Lemma enforceRateLimit_paces (w w' : World) (r : Q) :
  rateLimit (this w) = Some r -> (0 < r)%Q -> punctual (env w) ->
  enforceRateLimit w = Some (Normal tt, w') ->
  (inject_Z (lastRequestTime (this w)) + 1000 / r <= inject_Z (clock w'))%Q
  /\ lastRequestTime (this w') = clock w'
  /\ rateLimit (this w') = Some r
  /\ env w' = env w.
Proof.
  intros Hr Hpos Hpunctual.
  assert (~ (r == 0)%Q) as Hr0 by (intros E; rewrite E in Hpos; by apply Qlt_irrefl in Hpos).
  unfold enforceRateLimit. cbn [clock this record_event].
  pose proof (inject_Z_minus (clock w) (lastRequestTime (this w))) as E.
  destruct (enforceRateLimit_enter_cases (clock w) (this w) r Hr Hr0)
    as [[Hlt ->]|[Hge ->]]; intros [= <-];
    cbn [clock this env set_clock set_this record_event enforceRateLimit_resume
         set_lastRequestTime lastRequestTime rateLimit].
  - repeat split; auto.
    specialize (Hpunctual (clock w)
      (1000 / r - inject_Z (clock w - lastRequestTime (this w)))%Q).
    set (minInterval := (1000 / r)%Q) in *. lra.
  - repeat split; auto.
    set (minInterval := (1000 / r)%Q) in *. lra.
Qed.

(** X19: throughput.  With timers that never fire early, [n + 1] calls of
    [enforceRateLimit] made one after the other on a client limited to [r]
    calls per second take at least [n * 1000 / r] milliseconds from the
    return of the first to the return of the last. *)
Theorem enforceRateLimit_throughput (w w0 wn : World) (r : Q) (n : nat) :
  rateLimit (this w) = Some r -> (0 < r)%Q -> punctual (env w) ->
  enforceRateLimit w = Some (Normal tt, w0) ->
  sequential_calls w0 n wn ->
  (inject_Z (Z.of_nat n) * (1000 / r) <= inject_Z (clock wn - clock w0))%Q.
Proof.
  intros Hr Hpos Hpunctual Hfirst Hcalls.
  destruct (enforceRateLimit_paces w w0 r Hr Hpos Hpunctual Hfirst)
    as (_ & Hstamp0 & Hr0 & Henv0).
  assert ((inject_Z (Z.of_nat n) * (1000 / r) <= inject_Z (clock wn - clock w0))%Q
          /\ lastRequestTime (this wn) = clock wn
          /\ rateLimit (this wn) = Some r
          /\ env wn = env w) as [H _]; [|exact H].
  induction Hcalls as [|n w1 w2 w3 _ (IH & Hstamp & Hrate & Henv) Hthis Henv2 Hclock Hrun].
  - repeat split; auto. rewrite Z.sub_diag.
    change (inject_Z (Z.of_nat 0)) with 0%Q. change (inject_Z 0) with 0%Q.
    set (minInterval := (1000 / r)%Q). lra.
  - destruct (enforceRateLimit_paces w2 w3 r) as (Hpace & Hstamp3 & Hr3 & Henv3); auto.
    + by rewrite Hthis.
    + by rewrite Henv2, Henv.
    + repeat split; auto; [|by rewrite Henv3, Henv2].
      rewrite Hthis, Hstamp in Hpace.
      rewrite Nat2Z.inj_succ. unfold Z.succ. rewrite inject_Z_plus.
      change (inject_Z 1) with 1%Q.
      rewrite inject_Z_minus in IH |- *.
      set (minInterval := (1000 / r)%Q) in *. lra.
Qed.

Lemma enforceRateLimit_throughput_witness :
  let w := sample_world punctual_env (Some (2 # 1)) in
  let w0 := world_after enforceRateLimit w in
  let w1 := world_after enforceRateLimit w0 in
  let w2 := world_after enforceRateLimit w1 in
  clock w0 = 5000 /\ clock w2 = 6000
  /\ (inject_Z (Z.of_nat 2) * (1000 / (2 # 1)) <= inject_Z (clock w2 - clock w0))%Q.
Proof.
  split; [reflexivity|]. split; [reflexivity|].
  apply (enforceRateLimit_throughput
           (sample_world punctual_env (Some (2 # 1)))
           (world_after enforceRateLimit (sample_world punctual_env (Some (2 # 1))))
           (world_after enforceRateLimit (world_after enforceRateLimit
              (world_after enforceRateLimit (sample_world punctual_env (Some (2 # 1))))))
           (2 # 1) 2).
  - reflexivity.
  - reflexivity.
  - apply punctual_env_punctual.
  - reflexivity.
  - eapply calls_next; [eapply calls_next; [apply calls_first|..]|..];
      try reflexivity; vm_compute; discriminate.
Defined.

Lemma attempt_once_clock url config w r w' :
  punctual (env w) -> causal (env w) -> 0 <= timeout (this w) ->
  attempt_once url config w = Some (r, w') ->
  clock w <= clock w' /\ this w' = this w /\ env w' = env w.
Proof.
  intros Hpunctual Hcausal Htimeout.
  assert (exists o w1, fetch url (<["signal" := JSignal]> config) w = Some (o, w1)
            /\ clock w <= clock w1 /\ this w1 = this w /\ env w1 = env w)
    as (o & w1 & Hfetch & Hclock & Hthis & Henv).
  { unfold fetch.
    specialize (Hcausal (fetches w) url (<["signal" := JSignal]> config)).
    specialize (Hpunctual (clock w) (inject_Z (timeout (this w)))).
    rewrite <- inject_Z_plus, <- Zle_Qle in Hpunctual.
    destruct (transport _ _ _ _) as [latency outcome]. simpl in Hcausal.
    destruct (_ <? _); [|destruct outcome]; eexists _, _;
      (split; [reflexivity|]); cbn [clock this env set_clock count_fetch record_event];
      repeat split; lia. }
  unfold attempt_once, try_catch, mbind, M_bind, bind. rewrite Hfetch.
  destruct o as [response|reason].
  - destruct (negb (ok response)).
    + unfold throw.
      match goal with
      | |- catch_block ?e w1 = _ -> _ => destruct (catch_block_throws e w1) as [r' ->]
      end.
      by intros [= <- <-].
    + unfold lift. destruct (json response) as [v|reason].
      * by intros [= <- <-].
      * destruct (catch_block_throws reason w1) as [r' ->]. by intros [= <- <-].
  - destruct (catch_block_throws reason w1) as [r' ->]. by intros [= <- <-].
Qed.

(** Under punctual timers and with delays that are not negative, time
    only moves forward while [retryWithBackoff] runs the closure of
    [request], and the client is left as it was. *)
Lemma retry_clock url config :
  forall (fuel : nat) (a : Z) (w : World) r w',
    punctual (env w) -> causal (env w) ->
    0 <= timeout (this w) -> (0 <= retryDelay (this w))%Q ->
    retryWithBackoff fuel (attempt_once url config) a w = Some (r, w') ->
    clock w <= clock w' /\ this w' = this w /\ env w' = env w.
Proof.
  induction fuel as [|fuel IH]; intros a w r w' Hpunctual Hcausal Htimeout Hdelay; [done|].
  cbn [retryWithBackoff]. unfold try_catch at 1.
  destruct (attempt_once url config w) as [[[v|error] w1]|] eqn:Hattempt; [| |done].
  - destruct (attempt_once_clock _ _ _ _ _ Hpunctual Hcausal Htimeout Hattempt)
      as (Hclock & Hthis & Henv).
    by intros [= <- <-].
  - destruct (attempt_once_clock _ _ _ _ _ Hpunctual Hcausal Htimeout Hattempt)
      as (Hclock & Hthis & Henv).
    unfold mbind at 1, M_bind at 1, bind at 1, get_this at 1.
    destruct (maxRetries (this w1) <=? a).
    { unfold mbind, M_bind, bind, lift, throw.
      destruct (get_message error); by intros [= <- <-]. }
    unfold mbind at 1, M_bind at 1, bind at 1, status_test at 1, lift at 1.
    destruct (status_is_4xx _ error) as [[|]|te];
      [unfold throw; by intros [= <- <-]| |by intros [= <- <-]].
    unfold console_log, modify, sleep, mbind, M_bind, bind.
    cbn [env clock record_event]. intros Hrun.
    apply IH in Hrun as (Hclock' & Hthis' & Henv');
      cbn [this env clock set_clock record_event] in *; rewrite ?Henv, ?Hthis; auto.
    split; [|split; congruence].
    specialize (Hpunctual (clock w1) (retryDelay (this w) * 2 ^ (a - 1))%Q).
    rewrite Henv, Hthis in Hclock'.
    assert (0 <= retryDelay (this w) * 2 ^ (a - 1))%Q as Hnonneg.
    { apply Qmult_le_0_compat; [done|]. by apply Qpower_0_le. }
    assert (inject_Z (clock w1) <= inject_Z (timer (env w) (clock w1)
              (retryDelay (this w) * 2 ^ (a - 1))))%Q as Hle by lra.
    rewrite <- Zle_Qle in Hle. lia.
Qed.

(** X20: pacing of awaited requests.  On a client limited to [r] requests
    per second, with timers that never fire early, a transport that does
    not answer before it is asked and a timeout and a retry delay that are
    not negative: when a request is awaited and a second one is made
    afterwards, the rate limiter lets the second through (to its first
    [fetch]) at least [1000 / r] milliseconds after it let the first one
    through, however the first request ended. *)
Theorem request_pacing
    (fuel : nat) (endpoint : string) (options : option (gmap string JsValue))
    (w g1 w' w2 g2 : World) (res : Completion JsValue) (r : Q) :
  rateLimit (this w) = Some r -> (0 < r)%Q ->
  punctual (env w) -> causal (env w) ->
  0 <= timeout (this w) -> (0 <= retryDelay (this w))%Q ->
  enforceRateLimit w = Some (Normal tt, g1) ->
  request fuel endpoint options w = Some (res, w') ->
  this w2 = this w' -> env w2 = env w' -> clock w' <= clock w2 ->
  enforceRateLimit w2 = Some (Normal tt, g2) ->
  clock g1 <= clock w'
  /\ (1000 / r <= inject_Z (clock g2 - clock g1))%Q.
Proof.
  intros Hr Hpos Hpunctual Hcausal Htimeout Hdelay Hgate1 Hrun Hthis2 Henv2 Hclock2 Hgate2.
  destruct (enforceRateLimit_paces w g1 r Hr Hpos Hpunctual Hgate1)
    as (_ & Hstamp1 & Hr1 & Henv1).
  destruct (enforceRateLimit_frame w)
    as (g1' & Hgate1' & _ & _ & _ & Htimeout1 & _ & Hdelay1).
  rewrite Hgate1 in Hgate1'. injection Hgate1' as <-.
  revert Hrun. unfold request, mbind, M_bind, bind. rewrite Hgate1. unfold get_this.
  intros Hrun.
  apply retry_clock in Hrun as (Hclock & Hthis & Henv);
    [|by rewrite Henv1|by rewrite Henv1|by rewrite Htimeout1|by rewrite Hdelay1].
  split; [exact Hclock|].
  destruct (enforceRateLimit_paces w2 g2 r) as (Hpace & _); auto.
  - by rewrite Hthis2, Hthis.
  - by rewrite Henv2, Henv, Henv1.
  - rewrite Hthis2, Hthis, Hstamp1 in Hpace. rewrite inject_Z_minus.
    set (minInterval := (1000 / r)%Q) in *. lra.
Qed.

Lemma request_pacing_witness :
  let w := sample_world punctual_env (Some (2 # 1)) in
  let g1 := world_after enforceRateLimit w in
  let w' := world_after (request 3 "/users" None) w in
  let g2 := world_after enforceRateLimit w' in
  clock g1 <= clock w'
  /\ (1000 / (2 # 1) <= inject_Z (clock g2 - clock g1))%Q.
Proof.
  apply (request_pacing 3 "/users" None
           (sample_world punctual_env (Some (2 # 1)))
           (world_after enforceRateLimit (sample_world punctual_env (Some (2 # 1))))
           (world_after (request 3 "/users" None) (sample_world punctual_env (Some (2 # 1))))
           (world_after (request 3 "/users" None) (sample_world punctual_env (Some (2 # 1))))
           (world_after enforceRateLimit
              (world_after (request 3 "/users" None)
                 (sample_world punctual_env (Some (2 # 1)))))
           (Normal (JStr "body")) (2 # 1)).
  - reflexivity.
  - reflexivity.
  - apply punctual_env_punctual.
  - intros k url init. simpl. lia.
  - vm_compute. discriminate.
  - vm_compute. discriminate.
  - reflexivity.
  - reflexivity.
  - reflexivity.
  - reflexivity.
  - lia.
  - reflexivity.
Defined.

(** ** Clients fresh from the constructor *)

(** X21: [maxRetries: 0] does not switch retrying off.  On a client built
    with [maxRetries] missing or [0] an operation that keeps failing with
    errors outside 4xx is invoked three times, with sleeps of [retryDelay]
    and [2 * retryDelay] in between, before the call fails with
    [Failed after 3 attempts: ...]. *)
Theorem constructor_zero_maxRetries_retries
    (options : ClientOptions) (op : nat -> Completion JsValue) (errs : nat -> Error)
    (w : World) (fuel : nat) :
  this w = constructor options ->
  opt_maxRetries options = None \/ opt_maxRetries options = Some 0 ->
  (forall k, op k = Throw (JErr (errs k)) /\ is_client_error (status (errs k)) = false) ->
  (3 <= fuel)%nat ->
  exists w' tr,
    retryWithBackoff fuel (invoke op) 1 w =
      Some (Throw (JErr (new_Error
              ("Failed after 3 attempts: " +:+ message (errs (calls w + 2)%nat)))), w')
    /\ events w' = events w ++ tr
    /\ invocations tr = 3%nat
    /\ sleeps tr = [(retryDelay (this w) * 2 ^ 0)%Q; (retryDelay (this w) * 2 ^ 1)%Q].
Proof.
  intros Hthis Hopt Hop Hfuel.
  assert (maxRetries (this w) = 3) as Hm.
  { rewrite Hthis. unfold constructor. simpl. by destruct Hopt as [-> | ->]. }
  destruct (retry_exhaust op errs (fun k => proj1 (Hop k)) (fun k => proj2 (Hop k))
              2 1 w fuel) as (w' & Hrun & _ & _ & Hev); [lia | lia |].
  rewrite Hm in Hrun.
  exists w', (exhausted_trace (retryDelay (this w)) (calls w) 1 2).
  split; [exact Hrun|]. split; [exact Hev|]. split; [apply invocations_exhausted|].
  rewrite sleeps_exhausted. reflexivity.
Qed.

Lemma constructor_zero_maxRetries_retries_witness :
  let w := {| this := constructor zero_retries; clock := 5000; events := [];
              calls := 0; fetches := 0; env := punctual_env |} in
  exists w' tr,
    retryWithBackoff 3 (invoke always_boom) 1 w =
      Some (Throw (JErr (new_Error ("Failed after 3 attempts: " +:+ "boom"))), w')
    /\ events w' = events w ++ tr
    /\ invocations tr = 3%nat
    /\ sleeps tr = [(retryDelay (this w) * 2 ^ 0)%Q; (retryDelay (this w) * 2 ^ 1)%Q].
Proof.
  refine (constructor_zero_maxRetries_retries zero_retries always_boom
            (fun _ => new_Error "boom")
            {| this := constructor zero_retries; clock := 5000; events := [];
               calls := 0; fetches := 0; env := punctual_env |} 3 _ _ _ _).
  - reflexivity.
  - right. reflexivity.
  - intros k. split; reflexivity.
  - lia.
Defined.

(** X22: the first call on a new client is not held back.  The
    constructor sets [lastRequestTime] to [0], so on a client built with a
    rate limit [r] the first [enforceRateLimit] returns without sleeping as
    soon as the clock reads at least [1000 / r] (any wall-clock time does),
    and stamps that reading. *)
Theorem constructor_first_call_is_immediate (options : ClientOptions) (w : World) (r : Q) :
  this w = constructor options ->
  opt_rateLimit options = Some r -> ~ (r == 0)%Q ->
  (1000 / r <= inject_Z (clock w))%Q ->
  exists w',
    enforceRateLimit w = Some (Normal tt, w')
    /\ clock w' = clock w
    /\ events w' = events w ++ [EvEnforceRateLimit]
    /\ lastRequestTime (this w') = clock w.
Proof.
  intros Hthis Hopt Hr0 Hclock.
  assert (rateLimit (this w) = Some r) as Hr.
  { rewrite Hthis. unfold constructor. simpl. by rewrite Hopt, (Qeq_bool_false _ _ Hr0). }
  assert (lastRequestTime (this w) = 0) as Hlast by (by rewrite Hthis).
  unfold enforceRateLimit. cbn [clock this record_event].
  destruct (enforceRateLimit_enter_cases (clock w) (this w) r Hr Hr0) as [[Hlt _]|[_ ->]].
  - exfalso. rewrite Hlast, Z.sub_0_r in Hlt. eapply Qlt_not_le; eauto.
  - eexists. repeat split; reflexivity.
Qed.

Lemma constructor_first_call_is_immediate_witness :
  let w := sample_world punctual_env (Some (2 # 1)) in
  exists w',
    enforceRateLimit w = Some (Normal tt, w')
    /\ clock w' = clock w
    /\ events w' = events w ++ [EvEnforceRateLimit]
    /\ lastRequestTime (this w') = clock w.
Proof.
  refine (constructor_first_call_is_immediate (sample_options (Some (2 # 1)))
            (sample_world punctual_env (Some (2 # 1))) (2 # 1) _ _ _ _).
  - reflexivity.
  - reflexivity.
  - intros E. vm_compute in E. discriminate.
  - vm_compute. discriminate.
Defined.

(** * Data formatting utilities *)

Import DataFormatter.

Lemma filter_digits_id (ds : JsString) :
  Forall (fun c => is_digit c) ds -> filter (fun c => is_digit c) ds = ds.
Proof.
  induction 1 as [|c ds Hc _ IH]; [done|]. by rewrite filter_cons_True, IH.
Qed.

Lemma filter_digits_digits (s : JsString) :
  Forall (fun c => is_digit c) (filter (fun c => is_digit c) s).
Proof.
  induction s as [|c s IH]; [constructor|].
  destruct (is_digit c) eqn:Hc.
  - apply Is_true_true in Hc. rewrite filter_cons_True by done. by constructor.
  - apply Is_true_false in Hc. by rewrite filter_cons_False by done.
Qed.

Lemma formatPhoneUK_shape (phone : JsString) :
  phone <> [] ->
  exists ds, formatPhoneUK phone = units "+44" ++ ds /\ Forall (fun c => is_digit c) ds.
Proof.
  intros Hne. unfold formatPhoneUK. rewrite decide_False by done.
  pose proof (filter_digits_digits phone) as Hdigits.
  pose proof (Forall_drop _ 1 _ Hdigits) as Hdrop.
  set (cleaned := filter (fun c => is_digit c) phone) in *.
  destruct (startsWith (units "44") cleaned) eqn:H44.
  - apply bool_decide_eq_true in H44.
    exists (drop 2 cleaned). split; [|by apply Forall_drop].
    rewrite <- (take_drop 2 cleaned) at 1. simpl length in H44. by rewrite H44.
  - destruct (startsWith (units "0") cleaned); eauto.
Qed.

Lemma formatPhoneUK_digits (ds : JsString) :
  Forall (fun c => is_digit c) ds ->
  formatPhoneUK (units "+44" ++ ds) = units "+44" ++ ds.
Proof.
  intros Hds. unfold formatPhoneUK. rewrite decide_False by done.
  change (units "+44" ++ ds) with (43%N :: 52%N :: 52%N :: ds).
  rewrite filter_cons_False by (compute; auto).
  rewrite !filter_cons_True by (compute; auto).
  by rewrite filter_digits_id.
Qed.

(** X23: the result of [formatPhoneUK] is in normal form.  For a string
    that is not empty the result is [+44] followed by digits only (just
    [+44] when the input has no digit), it is empty for the empty string
    only, and formatting a result again gives it back. *)
Theorem formatPhoneUK_normal_form (phone : JsString) :
  formatPhoneUK (formatPhoneUK phone) = formatPhoneUK phone
  /\ (phone <> [] ->
      exists ds, formatPhoneUK phone = units "+44" ++ ds
                 /\ Forall (fun c => is_digit c) ds)
  /\ (filter (fun c => is_digit c) phone = [] -> phone <> [] ->
      formatPhoneUK phone = units "+44")
  /\ (formatPhoneUK phone = [] <-> phone = []).
Proof.
  split; [|split; [|split]].
  - destruct (decide (phone = [])) as [->|Hne]; [done|].
    destruct (formatPhoneUK_shape phone Hne) as (ds & -> & Hds).
    by apply formatPhoneUK_digits.
  - apply formatPhoneUK_shape.
  - intros Hnone Hne. unfold formatPhoneUK. rewrite decide_False by done.
    by rewrite Hnone.
  - split; [|by intros ->].
    intros Hempty. destruct (decide (phone = [])) as [|Hne]; [done|].
    destruct (formatPhoneUK_shape phone Hne) as (ds & Hshape & _).
    by rewrite Hshape in Hempty.
Qed.

(** X24: [formatPhoneUK] reads the digits only, and the spellings of one
    number agree: two strings that are not empty and have the same digits
    in the same order give the same result; and for digits [ds] the national
    spelling [0 ds] and the international spellings [44 ds] and [+44 ds]
    all give [+44 ds]. *)
Theorem formatPhoneUK_reads_digits_only (phone phone' ds : JsString) :
  phone <> [] -> phone' <> [] ->
  filter (fun c => is_digit c) phone = filter (fun c => is_digit c) phone' ->
  Forall (fun c => is_digit c) ds ->
  formatPhoneUK phone = formatPhoneUK phone'
  /\ formatPhoneUK (units "0" ++ ds) = units "+44" ++ ds
  /\ formatPhoneUK (units "44" ++ ds) = units "+44" ++ ds
  /\ formatPhoneUK (units "+44" ++ ds) = units "+44" ++ ds.
Proof.
  intros Hne Hne' Hsame Hds. split; [|split; [|split]].
  - unfold formatPhoneUK. rewrite !decide_False by done. by rewrite Hsame.
  - unfold formatPhoneUK. rewrite decide_False by done.
    change (units "0" ++ ds) with (48%N :: ds).
    rewrite filter_cons_True by (compute; auto). by rewrite filter_digits_id.
  - unfold formatPhoneUK. rewrite decide_False by done.
    change (units "44" ++ ds) with (52%N :: 52%N :: ds).
    rewrite !filter_cons_True by (compute; auto). by rewrite filter_digits_id.
  - by apply formatPhoneUK_digits.
Qed.

Lemma formatPhoneUK_reads_digits_only_witness :
  formatPhoneUK (units "020 7946 0958") = formatPhoneUK (units "(0207) 946-0958")
  /\ formatPhoneUK (units "0" ++ units "2079460958") = units "+44" ++ units "2079460958"
  /\ formatPhoneUK (units "44" ++ units "2079460958") = units "+44" ++ units "2079460958"
  /\ formatPhoneUK (units "+44" ++ units "2079460958") = units "+44" ++ units "2079460958".
Proof.
  apply (formatPhoneUK_reads_digits_only
           (units "020 7946 0958") (units "(0207) 946-0958") (units "2079460958")).
  - discriminate.
  - discriminate.
  - vm_compute. reflexivity.
  - vm_compute. repeat constructor.
Defined.

(** ** Addresses in a text *)

Lemma backtrack_Some {A} (rest : nat -> option A) lo hi a :
  backtrack rest lo hi = Some a -> exists n, (lo <= n <= hi)%nat /\ rest n = Some a.
Proof.
  induction hi as [|hi IH]; cbn [backtrack].
  - destruct (Nat.ltb_spec 0 lo); [done|].
    destruct (rest 0%nat) eqn:E; [|done]. intros [= ->]. exists 0%nat. split; [lia|done].
  - destruct (Nat.ltb_spec (S hi) lo); [done|].
    destruct (rest (S hi)) eqn:E.
    + intros [= ->]. exists (S hi). split; [lia|done].
    + intros H'. destruct (IH H') as (n & Hn & Hr). exists n. split; [lia|done].
Qed.

Lemma backtrack_first {A} (rest : nat -> option A) lo n a :
  (lo <= n)%nat -> rest n = Some a ->
  forall hi, (n <= hi)%nat -> (forall m, (n < m <= hi)%nat -> rest m = None) ->
             backtrack rest lo hi = Some a.
Proof.
  intros Hlo Hn. induction hi as [|hi IH]; intros Hhi Hnone.
  - assert (n = 0)%nat as -> by lia. cbn [backtrack].
    destruct (Nat.ltb_spec 0 lo); [lia|]. by rewrite Hn.
  - cbn [backtrack]. destruct (Nat.ltb_spec (S hi) lo); [lia|].
    destruct (decide (n = S hi)) as [->|Hne]; [by rewrite Hn|].
    rewrite Hnone by lia. apply IH; [lia|]. intros m Hm. apply Hnone. lia.
Qed.

Lemma run_take (class : N -> bool) (s : JsString) (n : nat) :
  (n <= run class s)%nat -> Forall (fun c => class c) (take n s) /\ length (take n s) = n.
Proof.
  revert n. induction s as [|c s IH]; intros n; simpl.
  - intros Hn. assert (n = 0)%nat as -> by lia. by split.
  - destruct n as [|n]; [by split|]. destruct (class c) eqn:Hc; [|lia].
    intros Hn. destruct (IH n) as [Hall Hlen]; [lia|]. simpl. split; [|by rewrite Hlen].
    constructor; [by rewrite Hc | done].
Qed.

Lemma run_app (class : N -> bool) (s s' : JsString) :
  Forall (fun c => class c) s -> run class (s ++ s') = (length s + run class s')%nat.
Proof.
  induction 1 as [|c s Hc _ IH]; [done|]. simpl.
  apply Is_true_true in Hc. by rewrite Hc, IH.
Qed.

Lemma take_add (s : JsString) (k m : nat) :
  take (k + m) s = take k s ++ take m (drop k s).
Proof.
  revert s. induction k as [|k IH]; intros [|c s]; simpl; try done.
  - by rewrite take_nil.
  - by rewrite IH.
Qed.

Lemma match_at_Some text i e :
  match_at text i = Some e ->
  exists k d n,
    (1 <= k <= run is_local (drop i text))%nat
    /\ text !! (i + k)%nat = Some 64%N
    /\ (1 <= d <= run is_domain (drop (i + k + 1) text))%nat
    /\ text !! (i + k + 1 + d)%nat = Some 46%N
    /\ (2 <= n <= run is_tld (drop (i + k + 1 + d + 1) text))%nat
    /\ e = (i + k + 1 + d + 1 + n)%nat.
Proof.
  unfold match_at. destruct (boundary text i); [|done].
  intros H. apply backtrack_Some in H as (k & Hk & H).
  destruct (decide (text !! (i + k)%nat = Some 64%N)) as [Hat|]; [|done].
  apply backtrack_Some in H as (d & Hd & H).
  destruct (decide (text !! (i + k + 1 + d)%nat = Some 46%N)) as [Hdot|]; [|done].
  apply backtrack_Some in H as (n & Hn & H).
  destruct (boundary text _); [|done]. injection H as <-.
  by exists k, d, n.
Qed.

Lemma search_Some text count : forall i i' e,
  search text i count = Some (i', e) -> match_at text i' = Some e.
Proof.
  induction count as [|count IH]; intros i i' e; [done|]. simpl.
  destruct (match_at text i) as [e0|] eqn:E; [by intros [= <- <-]|]. apply IH.
Qed.

Lemma segment (text : JsString) (i k : nat) (c : N) :
  text !! (i + k)%nat = Some c ->
  forall m, take (k + S m) (drop i text)
            = take k (drop i text) ++ c :: take m (drop (i + k + 1) text).
Proof.
  intros Hc m. rewrite take_add, drop_drop.
  rewrite (drop_S _ _ _ Hc). simpl. by rewrite Nat.add_1_r.
Qed.

Lemma regex_match_address text m :
  regex_match text = Some m ->
  is_address m /\ exists pre post, text = pre ++ m ++ post.
Proof.
  unfold regex_match. destruct (search text 0 (S (length text))) as [[i e]|] eqn:E; [|done].
  simpl. intros [= <-]. apply search_Some, match_at_Some in E
    as (k & d & n & Hk & Hat & Hd & Hdot & Hn & ->).
  replace (i + k + 1 + d + 1 + n - i)%nat with (k + S (d + S n))%nat by lia.
  assert (take (k + S (d + S n)) (drop i text)
          = take k (drop i text) ++ 64%N :: take d (drop (i + k + 1) text)
            ++ 46%N :: take n (drop (i + k + 1 + d + 1) text)) as Hm.
  { rewrite (segment _ _ _ _ Hat). by rewrite (segment _ _ _ _ Hdot). }
  rewrite Hm.
  destruct (run_take is_local (drop i text) k) as [Hl Hll]; [lia|].
  destruct (run_take is_domain (drop (i + k + 1) text) d) as [Hdm Hdl]; [lia|].
  destruct (run_take is_tld (drop (i + k + 1 + d + 1) text) n) as [Ht Htl]; [lia|].
  split.
  - eexists _, _, _. split; [reflexivity|].
    repeat split; auto.
    + intros E. rewrite E in Hll. simpl in Hll. lia.
    + intros E. rewrite E in Hdl. simpl in Hdl. lia.
    + lia.
  - exists (take i text), (drop (k + S (d + S n)) (drop i text)).
    rewrite <- Hm, take_drop, take_drop. done.
Qed.

Lemma is_upper_spec c : is_upper c = true <-> (65 <= c <= 90)%N.
Proof. unfold is_upper. rewrite andb_true_iff, !N.leb_le. lia. Qed.

Lemma is_letter_spec c :
  is_letter c = true <-> ((65 <= c <= 90) \/ (97 <= c <= 122))%N.
Proof.
  unfold is_letter, is_upper, is_lower.
  rewrite orb_true_iff, !andb_true_iff, !N.leb_le. lia.
Qed.

Lemma is_word_spec c :
  is_word c = true <-> ((65 <= c <= 90) \/ (97 <= c <= 122) \/ (48 <= c <= 57) \/ c = 95)%N.
Proof.
  unfold is_word, is_digit. rewrite !orb_true_iff, is_letter_spec, !andb_true_iff,
    !N.leb_le, N.eqb_eq. lia.
Qed.

Lemma is_local_spec c :
  is_local c = true <->
  ((65 <= c <= 90) \/ (97 <= c <= 122) \/ (48 <= c <= 57)
   \/ c = 46 \/ c = 95 \/ c = 37 \/ c = 43 \/ c = 45)%N.
Proof.
  unfold is_local, is_digit. rewrite !orb_true_iff, is_letter_spec, !andb_true_iff,
    !N.leb_le, !N.eqb_eq. lia.
Qed.

Lemma is_domain_spec c :
  is_domain c = true <->
  ((65 <= c <= 90) \/ (97 <= c <= 122) \/ (48 <= c <= 57) \/ c = 46 \/ c = 45)%N.
Proof.
  unfold is_domain, is_digit. rewrite !orb_true_iff, is_letter_spec, !andb_true_iff,
    !N.leb_le, !N.eqb_eq. lia.
Qed.

Lemma is_tld_spec c :
  is_tld c = true <-> ((65 <= c <= 90) \/ (97 <= c <= 122) \/ c = 124)%N.
Proof.
  unfold is_tld. rewrite !orb_true_iff, is_letter_spec, !N.eqb_eq. lia.
Qed.

Lemma is_space_spec c : is_space c = true -> (c <= 32 \/ 160 <= c)%N.
Proof.
  unfold is_space. rewrite orb_true_iff, andb_true_iff, !N.leb_le, bool_decide_eq_true.
  rewrite !elem_of_cons, elem_of_nil. lia.
Qed.

Lemma is_address_char_spec c : is_address_char c = true -> (37 <= c <= 124)%N.
Proof.
  unfold is_address_char.
  rewrite !orb_true_iff, is_local_spec, is_domain_spec, is_tld_spec, N.eqb_eq. lia.
Qed.

Lemma trimStart_id (s : JsString) :
  Forall (fun c => is_space c = false) s -> trimStart s = s.
Proof. destruct 1 as [|c s Hc _]; [done|]. simpl. by rewrite Hc. Qed.

Lemma trim_id (s : JsString) : Forall (fun c => is_space c = false) s -> trim s = s.
Proof.
  intros Hs. unfold trim. rewrite (trimStart_id s Hs), trimStart_id.
  - apply reverse_involutive.
  - by apply Forall_reverse.
Qed.

Lemma lower_classes c :
  is_upper (lower c) = false
  /\ (is_local c -> is_local (lower c))
  /\ (is_domain c -> is_domain (lower c))
  /\ (is_tld c -> is_tld (lower c)).
Proof.
  unfold lower. destruct (is_upper c) eqn:Hu.
  - apply is_upper_spec in Hu. repeat split.
    + apply not_true_is_false. rewrite is_upper_spec. lia.
    + intros _. apply Is_true_true, is_local_spec. lia.
    + intros _. apply Is_true_true, is_domain_spec. lia.
    + intros _. apply Is_true_true, is_tld_spec. lia.
  - repeat split; auto.
Qed.

Lemma is_address_lower (m : JsString) :
  is_address m ->
  is_address (toLowerCase m)
  /\ Forall (fun c => is_upper c = false) (toLowerCase m)
  /\ trim (toLowerCase m) = toLowerCase m.
Proof.
  intros (loc & dom & tld & -> & Hloc & Hl & Hdom & Hd & Htld & Ht).
  split; [|split].
  - exists (toLowerCase loc), (toLowerCase dom), (toLowerCase tld).
    unfold toLowerCase. rewrite !fmap_app, !fmap_cons, !fmap_app, !fmap_cons, !length_fmap.
    split; [done|].
    repeat split; auto.
    + by destruct loc.
    + apply Forall_fmap. eapply Forall_impl; [exact Hl|]. intros c. apply lower_classes.
    + by destruct dom.
    + apply Forall_fmap. eapply Forall_impl; [exact Hd|]. intros c. apply lower_classes.
    + apply Forall_fmap. eapply Forall_impl; [exact Ht|]. intros c. apply lower_classes.
  - unfold toLowerCase. apply Forall_fmap, Forall_forall. intros c _. apply lower_classes.
  - apply trim_id. unfold toLowerCase. apply Forall_fmap.
    assert (Forall (fun c => is_address_char c) (loc ++ 64%N :: dom ++ 46%N :: tld)) as Hall.
    { unfold is_address_char. apply Forall_app. split.
      - eapply Forall_impl; [exact Hl|]. intros c Hc. apply Is_true_true in Hc.
        apply Is_true_true. by rewrite Hc.
      - constructor; [done|]. apply Forall_app. split.
        + eapply Forall_impl; [exact Hd|]. intros c Hc. apply Is_true_true in Hc.
          apply Is_true_true. rewrite Hc. by rewrite !orb_true_r.
        + constructor; [done|].
          eapply Forall_impl; [exact Ht|]. intros c Hc. apply Is_true_true in Hc.
          apply Is_true_true. rewrite Hc. by rewrite !orb_true_r. }
    eapply Forall_impl; [exact Hall|]. intros c Hc. simpl.
    apply Is_true_true, is_address_char_spec in Hc.
    apply not_true_is_false. intros Hs. apply is_space_spec in Hs.
    unfold lower in Hs.
    destruct (is_upper c) eqn:Hu; [apply is_upper_spec in Hu|]; lia.
Qed.

(** X25: what [extractEmail] returns.  A result that is not [null] is a
    stretch of the text put in lower case, and it has the form
    [local@domain.tld]: a local part of one or more of [A-Za-z0-9._%+-], a
    domain of one or more of [A-Za-z0-9.-], and after a dot at least two
    letters or bars; no upper case letter is left in it. *)
Theorem extractEmail_shape (text email : JsString) :
  extractEmail text = Some email ->
  is_address email
  /\ Forall (fun c => is_upper c = false) email
  /\ exists pre m post, text = pre ++ m ++ post /\ email = toLowerCase m.
Proof.
  unfold extractEmail. case_decide; [done|].
  destruct (regex_match text) as [m|] eqn:Hm; [|done]. intros [= <-].
  apply regex_match_address in Hm as [Haddr (pre & post & ->)].
  destruct (is_address_lower m Haddr) as (Ha & Hu & ->).
  split; [done|]. split; [done|]. by exists pre, m, post.
Qed.

Lemma lookup_after (a b : JsString) (n m : nat) :
  n = length a -> (a ++ b) !! (n + m)%nat = b !! m.
Proof. intros ->. rewrite lookup_app_r by lia. f_equal. lia. Qed.

Lemma drop_after (a b : JsString) (n : nat) : n = length a -> drop n (a ++ b) = b.
Proof. intros ->. by rewrite drop_app_length. Qed.

Lemma run_stop (class : N -> bool) (s : JsString) :
  (forall c, head s = Some c -> class c = false) -> run class s = 0%nat.
Proof. destruct s as [|c s]; [done|]. simpl. intros H. by rewrite H. Qed.

Lemma search_first text i0 e :
  (forall i, (i < i0)%nat -> match_at text i = None) -> match_at text i0 = Some e ->
  forall count i, (i <= i0 < i + count)%nat -> search text i count = Some (i0, e).
Proof.
  intros Hnone Hat. induction count as [|count IH]; intros i Hi; [lia|]. simpl.
  destruct (decide (i = i0)) as [->|Hne]; [by rewrite Hat|].
  rewrite Hnone by lia. apply IH. lia.
Qed.

Lemma extractEmail_shape_witness :
  is_address (units "b@c.de")
  /\ Forall (fun c => is_upper c = false) (units "b@c.de")
  /\ exists pre m post,
       units "A@B@C.DE" = pre ++ m ++ post /\ units "b@c.de" = toLowerCase m.
Proof.
  apply (extractEmail_shape (units "A@B@C.DE") (units "b@c.de")).
  vm_compute. reflexivity.
Defined.

Section Address.
  Variables pre loc dom tld post : JsString.
  Hypothesis loc_starts : exists c loc', loc = c :: loc' /\ is_word c = true.
  Hypothesis loc_class : Forall (fun c => is_local c) loc.
  Hypothesis dom_not_empty : dom <> [].
  Hypothesis dom_class : Forall (fun c => is_domain c) dom.
  Hypothesis tld_long : (2 <= length tld)%nat.
  Hypothesis tld_class : Forall (fun c => is_letter c) tld.
  Hypothesis pre_no_at : 64%N ∉ pre.
  Hypothesis pre_ends : forall c, last pre = Some c -> is_local c = false.
  Hypothesis post_starts :
    forall c, head post = Some c ->
              is_domain c = false /\ is_tld c = false /\ is_word c = false.

Let R2 := tld ++ post.
Let R1 := dom ++ 46%N :: R2.
Let text := pre ++ loc ++ 64%N :: R1.
Let i0 := length pre.

Lemma address_not_before i : (i < i0)%nat -> match_at text i = None.
Proof.
  intros Hi. destruct (match_at text i) as [e|] eqn:E; [|done]. exfalso.
  apply match_at_Some in E as (k & d & n & Hk & Hat & _).
  assert (i0 <= i + k)%nat as Hik.
  { destruct (Nat.le_gt_cases i0 (i + k)) as [|Hlt]; [done|].
    subst text. rewrite lookup_app_l in Hat by done.
    destruct pre_no_at. by eapply list_elem_of_lookup_2. }
  destruct (run_take is_local (drop i text) k) as [Hall _]; [lia|].
  assert (take k (drop i text) !! (i0 - 1 - i)%nat = last pre) as Hlast.
  { rewrite lookup_take_lt by lia. rewrite lookup_drop. subst text.
    rewrite lookup_app_l by (subst i0; lia). rewrite last_lookup. f_equal. subst i0. lia. }
  destruct (last pre) as [c|] eqn:Hc.
  - rewrite Forall_lookup in Hall. apply Hall in Hlast.
    rewrite (pre_ends c) in Hlast by done. done.
  - apply lookup_ge_None in Hlast. rewrite length_take, length_drop in Hlast.
    subst text. rewrite !length_app in Hlast. simpl in Hlast. subst i0. lia.
Qed.

Lemma address_at :
  match_at text i0 = Some (i0 + length loc + 1 + length dom + 1 + length tld)%nat.
Proof.
  destruct loc_starts as (c0 & loc' & Hloc & Hc0).
  assert (Forall (fun c => is_domain c) tld) as tld_domain.
  { eapply Forall_impl; [exact tld_class|]. intros c Hc. apply Is_true_true in Hc.
    apply Is_true_true. unfold is_domain. by rewrite Hc. }
  assert (Forall (fun c => is_tld c) tld) as tld_tld.
  { eapply Forall_impl; [exact tld_class|]. intros c Hc. apply Is_true_true in Hc.
    apply Is_true_true. unfold is_tld. by rewrite Hc. }
  assert (text = (pre ++ loc) ++ 64%N :: R1) as T1 by (subst text; by rewrite <- app_assoc).
  assert (text = (pre ++ loc ++ [64%N]) ++ R1) as T2
      by (subst text; by rewrite <- !app_assoc).
  assert (text = (pre ++ loc ++ 64%N :: dom ++ [46%N]) ++ R2) as T3.
  { subst text R1. rewrite <- !app_assoc. simpl. by rewrite <- !app_assoc. }
  assert (text = (pre ++ loc ++ 64%N :: dom ++ 46%N :: tld) ++ post) as T4.
  { subst text R1 R2. rewrite <- !app_assoc. simpl. by rewrite <- !app_assoc. }
  unfold match_at.
  assert (boundary text i0 = true) as ->.
  { unfold boundary, word_at.
    replace (text !! i0) with (Some c0).
    2:{ subst text i0. rewrite Hloc, <- app_comm_cons. by rewrite list_lookup_middle. }
    rewrite Hc0. destruct i0 as [|k'] eqn:Hi0; [done|].
    replace (text !! k') with (last pre).
    2:{ subst text. rewrite lookup_app_l by lia. rewrite last_lookup. f_equal.
        subst i0. lia. }
    destruct (last pre) as [c|] eqn:Hc; [|done].
    pose proof (pre_ends c eq_refl) as Hl.
    assert (is_word c = false) as ->; [|done].
    apply not_true_is_false. intros Hw. apply is_word_spec in Hw.
    apply not_true_iff_false in Hl. apply Hl, is_local_spec. lia. }
  assert (run is_local (drop i0 text) = length loc) as ->.
  { subst text i0. rewrite drop_after by done. rewrite run_app by done. simpl. lia. }
  apply backtrack_first with (n := length loc); [destruct loc; simpl; [done|lia] | |lia|lia].
  rewrite decide_True by (rewrite T1; apply list_lookup_middle; rewrite length_app; lia).
  cbv zeta.
  assert (drop (i0 + length loc + 1) text = R1) as ->.
  { rewrite T2. apply drop_after. rewrite !length_app. simpl. lia. }
  assert (run is_domain R1 = length dom + 1 + length tld)%nat as ->.
  { subst R1 R2. rewrite run_app by done. simpl. rewrite run_app by done.
    rewrite run_stop; [lia|]. intros c Hc. by apply post_starts. }
  assert (forall m, text !! (i0 + length loc + 1 + m)%nat = R1 !! m) as Hlook.
  { intros m. rewrite T2. apply lookup_after. rewrite !length_app. simpl. lia. }
  apply backtrack_first with (n := length dom);
    [destruct dom; simpl; [done|lia] | |lia|].
  2:{ intros m Hm. rewrite decide_False; [done|]. rewrite Hlook. subst R1.
      rewrite lookup_app_r by lia.
      replace (m - length dom)%nat with (S (m - length dom - 1)) by lia. simpl.
      subst R2. destruct (decide (m - length dom - 1 < length tld)%nat) as [Hin|Hout].
      - rewrite lookup_app_l by done. intros Hdot.
        rewrite Forall_lookup in tld_class. apply tld_class in Hdot. done.
      - rewrite lookup_app_r by lia.
        replace (m - length dom - 1 - length tld)%nat with 0%nat by lia.
        rewrite <- head_lookup. intros Hdot. by apply post_starts in Hdot as [? _]. }
  rewrite decide_True by (rewrite Hlook; subst R1; by apply list_lookup_middle).
  cbv zeta.
  assert (drop (i0 + length loc + 1 + length dom + 1) text = R2) as ->.
  { rewrite T3. apply drop_after. rewrite !length_app. simpl. rewrite !length_app.
    simpl. lia. }
  assert (run is_tld R2 = length tld) as ->.
  { subst R2. rewrite run_app by done. rewrite run_stop; [lia|].
    intros c Hc. by apply post_starts. }
  apply backtrack_first with (n := length tld); [lia| |lia|lia].
  assert (boundary text (i0 + length loc + 1 + length dom + 1 + length tld) = true) as ->;
    [|done].
  unfold boundary.
  replace (i0 + length loc + 1 + length dom + 1 + length tld)%nat
    with (S (i0 + length loc + 1 + length dom + 1 + (length tld - 1)))%nat at 1 by lia.
  unfold word_at.
  assert (exists c, text !! (i0 + length loc + 1 + length dom + 1 + (length tld - 1))%nat
                    = Some c /\ is_word c = true) as (c & -> & ->).
  { destruct (lookup_lt_is_Some_2 tld (length tld - 1)) as [c Hc]; [lia|].
    exists c. split.
    - rewrite T3. rewrite lookup_after by (rewrite !length_app; simpl;
                                           rewrite !length_app; simpl; lia).
      subst R2. by rewrite lookup_app_l by lia.
    - rewrite Forall_lookup in tld_class. apply tld_class in Hc.
      apply Is_true_true in Hc. unfold is_word. by rewrite Hc. }
  replace (text !! (i0 + length loc + 1 + length dom + 1 + length tld)%nat)
    with (head post).
  2:{ rewrite T4. replace (i0 + length loc + 1 + length dom + 1 + length tld)%nat
        with (length (pre ++ loc ++ 64%N :: dom ++ 46%N :: tld) + 0)%nat.
      - rewrite lookup_after by done. by rewrite head_lookup.
      - rewrite !length_app. simpl. rewrite !length_app. simpl. lia. }
  destruct (head post) as [c'|] eqn:Hp; [|done].
  by destruct (post_starts c' eq_refl) as (_ & _ & ->).
Qed.

End Address.

(** X26: an address that stands out in the text is found.  Let the text
    be [pre ++ local@domain.tld ++ post] where the local part starts with a
    letter, a digit or an underscore, the top level domain is made of
    letters, [pre] holds no [@] and does not end with a character of the
    local part's class, and [post] does not start with a character that the
    domain, the top level domain or a word could go on with.  Then
    [extractEmail] returns that address in lower case. *)
Theorem extractEmail_finds_address (pre loc dom tld post : JsString) :
  (exists c loc', loc = c :: loc' /\ is_word c = true) ->
  Forall (fun c => is_local c) loc ->
  dom <> [] -> Forall (fun c => is_domain c) dom ->
  (2 <= length tld)%nat -> Forall (fun c => is_letter c) tld ->
  64%N ∉ pre ->
  (forall c, last pre = Some c -> is_local c = false) ->
  (forall c, head post = Some c ->
             is_domain c = false /\ is_tld c = false /\ is_word c = false) ->
  extractEmail (pre ++ loc ++ 64%N :: dom ++ 46%N :: tld ++ post)
  = Some (toLowerCase (loc ++ 64%N :: dom ++ 46%N :: tld)).
Proof.
  intros Hstart Hloc Hdom Hdomain Hlong Htld Hpre Hlast Hpost.
  set (text := pre ++ loc ++ 64%N :: dom ++ 46%N :: tld ++ post).
  assert (forall i, (i < length pre)%nat -> match_at text i = None) as Hbefore.
  { intros i. apply address_not_before; assumption. }
  assert (match_at text (length pre)
          = Some (length pre + length loc + 1 + length dom + 1 + length tld)%nat) as Hat.
  { apply address_at; assumption. }
  set (addr := loc ++ 64%N :: dom ++ 46%N :: tld).
  assert (text = pre ++ addr ++ post) as Htext.
  { subst text addr. rewrite <- !app_assoc. simpl. by rewrite <- !app_assoc. }
  assert (length addr = length loc + 1 + length dom + 1 + length tld)%nat as Hlen.
  { subst addr. rewrite !length_app. simpl. rewrite !length_app. simpl. lia. }
  unfold extractEmail. rewrite decide_False.
  2:{ destruct Hstart as (c & loc' & -> & _). subst text. by destruct pre. }
  unfold regex_match.
  rewrite (search_first text (length pre) _ Hbefore Hat).
  2:{ rewrite Htext, !length_app. lia. }
  simpl.
  replace (length pre + length loc + 1 + length dom + 1 + length tld - length pre)%nat
    with (length addr) by lia.
  rewrite Htext, drop_app_length, take_app_length.
  f_equal. apply is_address_lower.
  exists loc, dom, tld. repeat split; auto.
  - destruct Hstart as (c & loc' & -> & _). done.
  - eapply Forall_impl; [exact Htld|]. intros c Hc. apply Is_true_true in Hc.
    apply Is_true_true. unfold is_tld. by rewrite Hc.
Qed.

Lemma extractEmail_finds_address_witness :
  extractEmail (units "Contact: John <" ++ units "John.Doe" ++ 64%N :: units "Example"
                ++ 46%N :: units "COM" ++ units ">, tel")
  = Some (toLowerCase (units "John.Doe" ++ 64%N :: units "Example" ++ 46%N :: units "COM")).
Proof.
  apply (extractEmail_finds_address (units "Contact: John <") (units "John.Doe")
           (units "Example") (units "COM") (units ">, tel")).
  - eexists _, _. split; reflexivity.
  - vm_compute. repeat constructor.
  - discriminate.
  - vm_compute. repeat constructor.
  - vm_compute. lia.
  - vm_compute. repeat constructor.
  - vm_compute. intros H. repeat (apply elem_of_cons in H as [H|H]; [discriminate|]).
    by apply elem_of_nil in H.
  - intros c [= <-]. reflexivity.
  - intros c [= <-]. repeat split; reflexivity.
Defined.

(** X27: no address without an [@] and a dot: [extractEmail] returns
    [null] on every text that lacks one of the two characters. *)
Theorem extractEmail_needs_at_and_dot (text : JsString) :
  64%N ∉ text \/ 46%N ∉ text -> extractEmail text = None.
Proof.
  intros Hmissing. unfold extractEmail. case_decide; [done|].
  destruct (regex_match text) as [m|] eqn:Hm; [|done]. exfalso.
  revert Hm. unfold regex_match.
  destruct (search text 0 (S (length text))) as [[i e]|] eqn:E; [|done]. intros _.
  apply search_Some, match_at_Some in E as (k & d & n & _ & Hat & _ & Hdot & _).
  destruct Hmissing as [Hno|Hno]; apply Hno; by eapply list_elem_of_lookup_2.
Qed.

Lemma extractEmail_needs_at_and_dot_witness :
  extractEmail (units "john at example.com") = None.
Proof.
  apply (extractEmail_needs_at_and_dot (units "john at example.com")).
  left. vm_compute. intros H.
  repeat (apply elem_of_cons in H as [H|H]; [discriminate|]).
  by apply elem_of_nil in H.
Defined.
